(** * fivem-glsl: blur-behind regions, tracked from the DOM and drawn by a shader

    A shallow embedding of [src/index.ts] (the untyped [src/blur.js] is the same
    program without the type annotations):

    - [JS]      the host built-ins the script calls ([String.prototype.trim],
                [startsWith], [includes], [replace], [Number], [parseFloat],
                [Number.prototype.toString], [Math.floor], [Math.ceil], the
                arithmetic of Numbers);
    - [Dom]     elements with identity, class lists and [dataset]s, the node
                tree, mutation records, the size of a canvas;
    - [Blur]    the closure of the [DOMContentLoaded] handler: [processElement],
                [removeElement], [processAllElements], the [MutationObserver]
                callback, [createGameView] with [render];
    - [Shader]  the fragment shader [fragmentShaderSrc] on finite values,
                over the reals;
    - [Glsl]    the fragment shader on the values [render] hands it, the
                infinities and NaN included.

    Numbers.  A JavaScript Number is a binary64 value: [NaN], an infinity, or
    a finite number, written here as the decimal [m / 10^k] it is equal to
    (every finite binary64 value is such a decimal).  [+], [-], [*], [/ 2],
    [parseFloat] and [Number] compute the exact result and round it to the
    nearest binary64 value, ties to even, with overflow to an infinity and
    gradual underflow ([round64]); [toString] prints the shortest decimal
    that reads back as the number.  The two zeros are one zero: the script
    divides by 2 only, and prints no zero but as ["0"].  Strings are
    sequences of 8-bit code units.

    The shader.  GLSL ES leaves the precision and range of [mediump float]
    to the implementation; the shader is modelled in exact arithmetic on
    real numbers, with the infinities and NaN of IEEE 754 besides. *)

From Stdlib Require Import ZArith List String Ascii Bool Lia.
From Stdlib Require Import DecimalString.
From Stdlib Require Import QArith Qround.
From Stdlib Require Import Reals Lra.
From Stdlib Require Lqa.
From stdpp Require Import base option list gmap strings.

#[local] Set Warnings "-register-all".

Local Open Scope string_scope.
Local Open Scope Z_scope.
Local Open Scope list_scope.

(* ===================================================================== *)
(** ** Host built-ins *)
(* ===================================================================== *)

Module JS.

(** *** Strings *)

(** [WhiteSpace] and [LineTerminator] code units below 256: TAB, LF, VT, FF,
    CR, SP and NBSP. *)
Definition isWhiteSpace (c : ascii) : bool :=
  let n := N_of_ascii c in
  ((9 <=? n) && (n <=? 13))%N || (n =? 32)%N || (n =? 160)%N.

Fixpoint trimStart (s : string) : string :=
  match s with
  | String c r => if isWhiteSpace c then trimStart r else s
  | EmptyString => EmptyString
  end.

Fixpoint trimEnd (s : string) : string :=
  match s with
  | String c r =>
      match trimEnd r with
      | EmptyString => if isWhiteSpace c then EmptyString else String c EmptyString
      | r' => String c r'
      end
  | EmptyString => EmptyString
  end.

(** [s.trim()] *)
Definition trim (s : string) : string := trimEnd (trimStart s).

(** [s.startsWith(p)] *)
Definition startsWith (p s : string) : bool := String.prefix p s.

(** [s.includes(p)] *)
Fixpoint includes (p s : string) : bool :=
  String.prefix p s ||
  match s with
  | String _ r => includes p r
  | EmptyString => false
  end.

Fixpoint sliceFrom (n : nat) (s : string) : string :=
  match n, s with
  | S n', String _ r => sliceFrom n' r
  | _, _ => s
  end.

(** [s.replace(pat, rep)] with a string pattern: the first occurrence only. *)
Fixpoint replace (pat rep s : string) : string :=
  if String.prefix pat s then rep +:+ sliceFrom (String.length pat) s
  else match s with
       | String c r => String c (replace pat rep r)
       | EmptyString => EmptyString
       end.

(** No code unit of [p] is a space. *)
Fixpoint spaceFree (p : string) : bool :=
  match p with
  | String c r => negb (c =? " ")%char && spaceFree r
  | EmptyString => true
  end.

(** Truthiness of a string: every string but the empty one. *)
Definition truthy_string (s : string) : bool :=
  match s with EmptyString => false | _ => true end.

(** *** Numbers *)

Inductive JSNumber : Type :=
| NaN
| Infinity (negative : bool)
| Finite (m : Z) (k : nat).   (* m / 10^k *)

(** Canonical form: no trailing zero among the [k] fraction digits. *)
Fixpoint norm (m : Z) (k : nat) : Z * nat :=
  match k with
  | O => (m, O)
  | S k' => if m mod 10 =? 0 then norm (m / 10) k' else (m, k)
  end.

Definition mkFinite (m : Z) (k : nat) : JSNumber :=
  let (m', k') := norm m k in Finite m' k'.

(** [m * 10^x] *)
Definition decimal (m x : Z) : JSNumber :=
  if 0 <=? x then Finite (m * 10 ^ x) 0 else mkFinite m (Z.to_nat (- x)).

Definition ofZ (n : Z) : JSNumber := Finite n 0.

Definition isNaN (x : JSNumber) : bool :=
  match x with NaN => true | _ => false end.

(** Truthiness of a number: every number but [NaN] and zero. *)
Definition truthy (x : JSNumber) : bool :=
  match x with
  | NaN => false
  | Infinity _ => true
  | Finite m _ => negb (m =? 0)
  end.

(** [a || b] on numbers. *)
Definition or_else (a b : JSNumber) : JSNumber := if truthy a then a else b.

Definition neg (x : JSNumber) : JSNumber :=
  match x with
  | NaN => NaN
  | Infinity b => Infinity (negb b)
  | Finite m k => Finite (- m) k
  end.

(** The two mantissas over the common denominator [10^(max k1 k2)]. *)
Definition align (m1 : Z) (k1 : nat) (m2 : Z) (k2 : nat) : Z * Z * nat :=
  let k := Nat.max k1 k2 in
  (m1 * 10 ^ Z.of_nat (k - k1), m2 * 10 ^ Z.of_nat (k - k2), k).

(** The exact sum and product; [+] and [*] round them. *)
Definition exactSum (x y : JSNumber) : JSNumber :=
  match x, y with
  | NaN, _ | _, NaN => NaN
  | Infinity a, Infinity b => if Bool.eqb a b then Infinity a else NaN
  | Infinity a, Finite _ _ => Infinity a
  | Finite _ _, Infinity b => Infinity b
  | Finite m1 k1, Finite m2 k2 =>
      let '(a, b, k) := align m1 k1 m2 k2 in mkFinite (a + b) k
  end.

Definition exactProduct (x y : JSNumber) : JSNumber :=
  match x, y with
  | NaN, _ | _, NaN => NaN
  | Infinity a, Infinity b => Infinity (xorb a b)
  | Infinity a, Finite m _ | Finite m _, Infinity a =>
      if m =? 0 then NaN else Infinity (xorb a (m <? 0))
  | Finite m1 k1, Finite m2 k2 => mkFinite (m1 * m2) (k1 + k2)
  end.

(** **** Rounding to binary64 (IEEE 754, round to nearest, ties to even) *)

(** The integer nearest to [n / d], for [d] positive; of two that are
    equally near, the even one. *)
Definition roundHalfEven (n d : Z) : Z :=
  let q := n / d in
  match 2 * (n mod d) ?= d with
  | Lt => q
  | Gt => q + 1
  | Eq => if Z.even q then q else q + 1
  end.

(** The binary64 number nearest to [a / b], for [a] and [b] positive, as a
    mantissa [M <= 2^53] and an exponent [E >= 0] counted from that of the
    least subnormal: the number is [M * 2^E * 2^-1074].  For [a / b] from
    [2^-1022] on, [E] is such that [2^52 <= a / b / 2^(E - 1074) < 2^53];
    below, in the subnormal range, [E] is 0. *)
Definition nearest64 (a b : Z) : Z * Z :=
  let E := Z.log2 (a * 2 ^ 1022 / b) in
  (roundHalfEven (a * 2 ^ 1074) (b * 2 ^ E), E).

(** [M * 2^E * 2^-1074] as a decimal. *)
Definition dyadic (M E : Z) : JSNumber :=
  if 1074 <=? E then Finite (M * 2 ^ (E - 1074)) 0
  else mkFinite (M * 5 ^ (1074 - E)) (Z.to_nat (1074 - E)).

(** From [2^1024 - 2^970] on the nearest value is [Infinity]. *)
Definition roundPositive (a b : Z) : JSNumber :=
  let (M, E) := nearest64 a b in
  if (2045 <? E) || ((E =? 2045) && (M =? 2 ^ 53)) then Infinity false
  else dyadic M E.

(** The Number value for a real number: the binary64 number nearest to it. *)
Definition round64 (x : JSNumber) : JSNumber :=
  match x with
  | Finite (Zpos p) k => roundPositive (Zpos p) (10 ^ Z.of_nat k)
  | Finite (Zneg p) k => neg (roundPositive (Zpos p) (10 ^ Z.of_nat k))
  | Finite Z0 _ => Finite 0 0
  | _ => x
  end.

(** [x + y] *)
Definition add (x y : JSNumber) : JSNumber := round64 (exactSum x y).

(** [x - y] *)
Definition sub (x y : JSNumber) : JSNumber := add x (neg y).

(** [x * y] *)
Definition mul (x y : JSNumber) : JSNumber := round64 (exactProduct x y).

(** [x / 2]: the quotient is [x * 0.5] exactly, and is rounded. *)
Definition half (x : JSNumber) : JSNumber := round64 (exactProduct x (Finite 5 1)).

(** [Math.floor] *)
Definition floor (x : JSNumber) : JSNumber :=
  match x with
  | Finite m k => Finite (m / 10 ^ Z.of_nat k) 0
  | _ => x
  end.

(** [Math.ceil] *)
Definition ceil (x : JSNumber) : JSNumber :=
  match x with
  | Finite m k => Finite (- ((- m) / 10 ^ Z.of_nat k)) 0
  | _ => x
  end.

(** [x >= y] *)
Definition ge (x y : JSNumber) : bool :=
  match x, y with
  | NaN, _ | _, NaN => false
  | Infinity a, Infinity b => implb a b
  | Infinity a, Finite _ _ => negb a
  | Finite _ _, Infinity b => b
  | Finite m1 k1, Finite m2 k2 =>
      let '(a, b, _) := align m1 k1 m2 k2 in b <=? a
  end.

(** [ToUint32]: the whole part, towards zero, modulo [2^32]; zero for [NaN]
    and the infinities. *)
Definition toUint32 (x : JSNumber) : Z :=
  match x with
  | Finite m k => Z.quot m (10 ^ Z.of_nat k) mod 2 ^ 32
  | _ => 0
  end.

(** Whether a number is zero. *)
Definition isZero (x : JSNumber) : bool :=
  match x with Finite m _ => m =? 0 | _ => false end.

(** The rational a finite number stands for. *)
Definition pow10 (k : nat) : positive := Z.to_pos (10 ^ Z.of_nat k).

Definition value (x : JSNumber) : option Q :=
  match x with
  | Finite m k => Some (m # pow10 k)%Q
  | _ => None
  end.

(** [x] is finite and stands for the rational [q]. *)
Definition represents (x : JSNumber) (q : Q) : Prop :=
  exists m k, x = Finite m k /\ (m # pow10 k == q)%Q.

(** *** [StringToNumber] and [parseFloat] *)

Definition digitValue (c : ascii) : option Z :=
  let n := Z.of_N (N_of_ascii c) in
  if (48 <=? n) && (n <=? 57) then Some (n - 48) else None.

(** Reads decimal digits: the value accumulated on [acc], how many digits
    were read, and the rest. *)
Fixpoint scanDigits (s : string) (acc : Z) (cnt : nat) : Z * nat * string :=
  match s with
  | String c r =>
      match digitValue c with
      | Some d => scanDigits r (10 * acc + d) (S cnt)
      | None => (acc, cnt, s)
      end
  | EmptyString => (acc, cnt, s)
  end.

Definition scanSign (s : string) : bool * string :=
  match s with
  | String "+" r => (false, r)
  | String "-" r => (true, r)
  | _ => (false, s)
  end.

(** An optional [ExponentPart]; exponent 0 and nothing consumed when it is
    absent or incomplete. *)
Definition scanExponent (s : string) : Z * string :=
  match s with
  | String c r =>
      if (c =? "e")%char || (c =? "E")%char then
        let (negative, r1) := scanSign r in
        let '(v, n, r2) := scanDigits r1 0 0 in
        match n with
        | O => (0, s)
        | _ => (if negative then - v else v, r2)
        end
      else (0, s)
  | EmptyString => (0, s)
  end.

(** The longest prefix that is a [StrUnsignedDecimalLiteral], with its value and
    the rest of the string. *)
Definition scanUnsignedDecimal (s : string) : option (JSNumber * string) :=
  if String.prefix "Infinity" s then Some (Infinity false, sliceFrom 8 s)
  else
    let '(ip, ni, r1) := scanDigits s 0 0 in
    match r1 with
    | String "." r2 =>
        let '(fp, nf, r3) := scanDigits r2 ip 0 in
        match (ni + nf)%nat with
        | O => None
        | _ => let (ex, r4) := scanExponent r3 in
               Some (decimal fp (ex - Z.of_nat nf), r4)
        end
    | _ =>
        match ni with
        | O => None
        | _ => let (ex, r4) := scanExponent r1 in Some (decimal ip ex, r4)
        end
    end.

(** The longest prefix that is a [StrDecimalLiteral]. *)
Definition scanDecimal (s : string) : option (JSNumber * string) :=
  let (negative, r) := scanSign s in
  match scanUnsignedDecimal r with
  | Some (v, rest) => Some (if negative then neg v else v, rest)
  | None => None
  end.

(** [parseFloat(s)]: the longest prefix of the trimmed string that is a
    decimal literal, rounded to binary64. *)
Definition parseFloat (s : string) : JSNumber :=
  match scanDecimal (trimStart s) with
  | Some (v, _) => round64 v
  | None => NaN
  end.

Definition radixDigit (radix : Z) (c : ascii) : option Z :=
  let n := Z.of_N (N_of_ascii c) in
  let v := if (48 <=? n) && (n <=? 57) then n - 48
           else if (97 <=? n) && (n <=? 102) then n - 87
           else if (65 <=? n) && (n <=? 70) then n - 55
           else radix in
  if v <? radix then Some v else None.

(** All of [s] read as digits of the radix. *)
Fixpoint scanRadix (radix : Z) (s : string) (acc : Z) : option Z :=
  match s with
  | String c r =>
      match radixDigit radix c with
      | Some d => scanRadix radix r (radix * acc + d)
      | None => None
      end
  | EmptyString => Some acc
  end.

(** A [NonDecimalIntegerLiteral]: [0x], [0o] or [0b] and at least one digit. *)
Definition nonDecimalInteger (s : string) : option Z :=
  match s with
  | String "0" (String p (String c r)) =>
      let digits := String c r in
      if (p =? "x")%char || (p =? "X")%char then scanRadix 16 digits 0
      else if (p =? "o")%char || (p =? "O")%char then scanRadix 8 digits 0
      else if (p =? "b")%char || (p =? "B")%char then scanRadix 2 digits 0
      else None
  | _ => None
  end.

(** [Number(s)] *)
Definition Number (s : string) : JSNumber :=
  match trim s with
  | EmptyString => ofZ 0
  | t =>
      match nonDecimalInteger t with
      | Some n => round64 (ofZ n)
      | None =>
          match scanDecimal t with
          | Some (v, EmptyString) => round64 v
          | _ => NaN
          end
      end
  end.

(** *** [Number.prototype.toString] *)

Definition digitsOf (p : positive) : string :=
  NilEmpty.string_of_uint (Pos.to_uint p).

Fixpoint zeros (n : nat) : string :=
  match n with O => EmptyString | S n' => String "0" (zeros n') end.

(** Drops the zeros that end a digit string. *)
Fixpoint stripZeros (s : string) : string :=
  match s with
  | String c r =>
      match stripZeros r with
      | EmptyString => if (c =? "0")%char then EmptyString else String c EmptyString
      | r' => String c r'
      end
  | EmptyString => EmptyString
  end.

Definition sliceTo (n : nat) (s : string) : string := String.substring 0 n s.

(** The digits [s] (none of them a trailing zero), their number [k] and the
    position [n] of the decimal point: the value is [0.s * 10^n]. *)
Definition toStringPositive (m : positive) (fraction : nat) : string :=
  let all := digitsOf m in
  let s := stripZeros all in
  let k := Z.of_nat (String.length s) in
  let n := Z.of_nat (String.length all) - Z.of_nat fraction in
  if (k <=? n) && (n <=? 21) then s +:+ zeros (Z.to_nat (n - k))
  else if (0 <? n) && (n <=? 21) then sliceTo (Z.to_nat n) s +:+ "." +:+ sliceFrom (Z.to_nat n) s
  else if (-6 <? n) && (n <=? 0) then "0." +:+ zeros (Z.to_nat (- n)) +:+ s
  else
    let e := n - 1 in
    let exponent := (if e <? 0 then "-" else "+") +:+
                    match Z.abs e with Zpos p => digitsOf p | _ => "0" end in
    match s with
    | String d EmptyString => String d ("e" +:+ exponent)
    | String d r => String d ("." +:+ r +:+ "e" +:+ exponent)
    | EmptyString => EmptyString
    end.

Definition eqb (x y : JSNumber) : bool :=
  match x, y with
  | NaN, NaN => true
  | Infinity a, Infinity b => Bool.eqb a b
  | Finite m1 k1, Finite m2 k2 => (m1 =? m2) && (k1 =? k2)%nat
  | _, _ => false
  end.

(** The two decimals of [j] digits next to [p / 10^k], the nearer one first
    (of two equally near, the one with the even last digit). *)
Definition neighbours (p : positive) (k : nat) (j : Z) : list JSNumber :=
  let cut := Z.of_nat (String.length (digitsOf p)) - j in
  let lo := Zpos p / 10 ^ cut in
  let x := cut - Z.of_nat k in
  match 2 * (Zpos p mod 10 ^ cut) ?= 10 ^ cut with
  | Lt => [decimal lo x; decimal (lo + 1) x]
  | Gt => [decimal (lo + 1) x; decimal lo x]
  | Eq => if Z.even lo then [decimal lo x; decimal (lo + 1) x]
          else [decimal (lo + 1) x; decimal lo x]
  end.

(** The decimal with as few digits as possible, [j] at least, whose Number
    value is [p / 10^k]; among those of that many digits, the nearest.
    Seventeen digits tell any two binary64 numbers apart. *)
Fixpoint shortest (p : positive) (k : nat) (j : Z) (fuel : nat) : JSNumber :=
  match fuel with
  | O => Finite (Zpos p) k
  | S fuel' =>
      if Z.of_nat (String.length (digitsOf p)) <=? j then Finite (Zpos p) k
      else
        match List.find (fun c => eqb (round64 c) (Finite (Zpos p) k)) (neighbours p k j) with
        | Some c => c
        | None => shortest p k (j + 1) fuel'
        end
  end.

Definition toStringDecimal (x : JSNumber) : string :=
  match x with
  | Finite (Zpos q) j => toStringPositive q j
  | _ => EmptyString
  end.

(** [x.toString()] *)
Definition toString (x : JSNumber) : string :=
  match x with
  | NaN => "NaN"
  | Infinity false => "Infinity"
  | Infinity true => "-Infinity"
  | Finite m k =>
      match norm m k with
      | (Zpos p, k') => toStringDecimal (shortest p k' 1 17)
      | (Zneg p, k') => "-" +:+ toStringDecimal (shortest p k' 1 17)
      | (Z0, _) => "0"
      end
  end.

End JS.

(* ===================================================================== *)
(** ** The document *)
(* ===================================================================== *)

Module Dom.

(** An element is known by its identity (a [nat]); what the script reads and
    writes of it is its class list and its [dataset]. *)
Record Element : Type := {
  classList : list string;
  dataset : gmap string string;
}.

Definition emptyElement : Element := {| classList := []; dataset := ∅ |}.

(** [classList.add(token)] *)
Definition classList_add (token : string) (l : list string) : list string :=
  if bool_decide (token ∈ l) then l else l ++ [token].

(** The [class] attribute: the tokens of the class list, space-separated. *)
Definition className (el : Element) : string := String.concat " " (classList el).

(** The selector [[class*="blured"]]. *)
Definition matchesSelector (el : Element) : bool :=
  JS.includes "blured" (className el).

(** [Array.from(element.classList).some(c => c.includes('blured'))] *)
Definition hasBlurClass (el : Element) : bool :=
  existsb (fun c => JS.includes "blured" c) (classList el).

Inductive Node : Type :=
| TextNode
| ElementNode (id : nat) (childNodes : list Node).

(** The elements of a subtree, its root included, in tree order. *)
Fixpoint elementsOf (n : Node) : list nat :=
  match n with
  | TextNode => []
  | ElementNode id childNodes => id :: flat_map elementsOf childNodes
  end.

(** The elements below a node, in tree order. *)
Definition descendants (n : Node) : list nat :=
  match n with
  | TextNode => []
  | ElementNode _ childNodes => flat_map elementsOf childNodes
  end.

Inductive MutationType : Type := attributes | characterData | childList.

Record MutationRecord : Type := {
  type : MutationType;
  attributeName : option string;
  target : nat;
  addedNodes : list Node;
}.

Record DOMRect : Type := {
  left : JS.JSNumber;
  top : JS.JSNumber;
  width : JS.JSNumber;
  height : JS.JSNumber;
}.

(** What [canvas.width] (default 300) and [canvas.height] (default 150) hold
    after an assignment of [v]: the attributes are [unsigned long], so [v]
    goes through [ToUint32], and the reflected content attribute only takes a
    value up to [2^31 - 1], the default otherwise. *)
Definition canvasDimension (default : Z) (v : JS.JSNumber) : JS.JSNumber :=
  let u := JS.toUint32 v in
  JS.ofZ (if u <=? 2147483647 then u else default).

(** What layout and style answer at one frame: [getBoundingClientRect] of the
    canvas and of each element, and the computed [border-radius]. *)
Record Layout : Type := {
  canvasRect : DOMRect;
  boundingClientRect : nat -> DOMRect;
  borderRadius : nat -> string;
}.

End Dom.

(* ===================================================================== *)
(** ** The script *)
(* ===================================================================== *)

Module Blur.
Import JS Dom.

Module config.
Definition resolutionScale : JSNumber := Finite 5 1.
Definition defaultBlurStrength : JSNumber := ofZ 1.
Definition maxBlurSize : Z := 20.
End config.

(** *** A [Set] of elements, in insertion order *)

Definition has (x : nat) (l : list nat) : bool := bool_decide (x ∈ l).
Definition set_add (x : nat) (l : list nat) : list nat :=
  if has x l then l else l ++ [x].
Definition set_delete (x : nat) (l : list nat) : list nat :=
  filter (fun y => y ≠ x) l.

(** [l.forEach(f)] with the state [f] works on threaded through. *)
Definition forEach {A S : Type} (l : list A) (f : A -> S -> S) (s : S) : S :=
  fold_left (fun acc x => f x acc) l s.

(** *** State of the [DOMContentLoaded] closure *)

(** The variables of [createGameView] that change, and the canvas's size. *)
Record GameView : Type := {
  currentResolutionScale : JSNumber;
  currentElements : list nat;
  canvas_width : JSNumber;
  canvas_height : JSNumber;
}.

Record State : Type := {
  elements : gmap nat Element;
  trackedElements : list nat;
  canvas : bool;
  gameView : option GameView;
}.

(** What the host answers during one [processAllElements]. *)
Record Host : Type := {
  document : Node;
  webgl : bool;
  innerWidth : JSNumber;
  innerHeight : JSNumber;
}.

Definition getElement (s : State) (element : nat) : Element :=
  default emptyElement (elements s !! element).

Definition setElement (element : nat) (el : Element) (s : State) : State :=
  {| elements := <[element := el]> (elements s);
     trackedElements := trackedElements s;
     canvas := canvas s;
     gameView := gameView s |}.

Definition initialState (els : gmap nat Element) : State :=
  {| elements := els; trackedElements := []; canvas := false; gameView := None |}.

(** [root.querySelectorAll('[class*="blured"]')] over the elements [scope]. *)
Definition querySelectorAll (s : State) (scope : list nat) : list nat :=
  List.filter (fun e => matchesSelector (getElement s e)) scope.

(** *** Tracking *)

(** The strength [processElement] reads off a class list. *)
Definition blurStrengthOf (classes : list string) : JSNumber :=
  let classMatch := List.find (startsWith "blured-") classes in
  match classMatch with
  | Some c =>
      if truthy_string c then
        let extractedValue := replace "blured-" "" c in
        if negb (isNaN (Number extractedValue)) && negb (String.eqb (trim extractedValue) "")
        then parseFloat extractedValue
        else config.defaultBlurStrength
      else config.defaultBlurStrength
  | None => config.defaultBlurStrength
  end.

Definition processElement (element : nat) (s : State) : State :=
  if has element (trackedElements s) then s
  else
    let el := getElement s element in
    let classes := classList_add "relative" (classList el) in
    let blured := blurStrengthOf classes in
    {| elements :=
         <[element := {| classList := classes;
                         dataset := <["blurStrength" := toString blured]> (dataset el) |}]>
           (elements s);
       trackedElements := set_add element (trackedElements s);
       canvas := canvas s;
       gameView := gameView s |}.

Definition removeElement (element : nat) (s : State) : bool * State :=
  if has element (trackedElements s) then
    let el := getElement s element in
    (true,
     {| elements :=
          <[element := {| classList := classList el;
                          dataset := delete "blurStrength" (dataset el) |}]>
            (elements s);
        trackedElements := set_delete element (trackedElements s);
        canvas := canvas s;
        gameView := gameView s |})
  else (false, s).

(** *** The game view *)

Definition resize (w h : JSNumber) (g : GameView) : GameView :=
  let scaledWidth := ceil (mul w (currentResolutionScale g)) in
  let scaledHeight := ceil (mul h (currentResolutionScale g)) in
  {| currentResolutionScale := currentResolutionScale g;
     currentElements := currentElements g;
     canvas_width := canvasDimension 300 scaledWidth;
     canvas_height := canvasDimension 150 scaledHeight |}.

Definition setResolutionScale (h : Host) (scale : JSNumber) (g : GameView) : GameView :=
  resize (innerWidth h) (innerHeight h)
    {| currentResolutionScale := scale;
       currentElements := currentElements g;
       canvas_width := canvas_width g;
       canvas_height := canvas_height g |}.

Definition updateElements (newElements : list nat) (g : GameView) : GameView :=
  {| currentResolutionScale := currentResolutionScale g;
     currentElements := newElements;
     canvas_width := canvas_width g;
     canvas_height := canvas_height g |}.

(** [null] when the host has no WebGL context or the program does not build;
    a new canvas is 300 by 150. *)
Definition createGameView (h : Host) (glassElements : list nat)
    (resolutionScale : JSNumber) : option GameView :=
  if webgl h then
    Some {| currentResolutionScale := resolutionScale;
            currentElements := glassElements;
            canvas_width := ofZ 300;
            canvas_height := ofZ 150 |}
  else None.

Definition setGameView (g : option GameView) (s : State) : State :=
  {| elements := elements s;
     trackedElements := trackedElements s;
     canvas := canvas s;
     gameView := g |}.

Definition initCanvas (s : State) : State :=
  {| elements := elements s;
     trackedElements := trackedElements s;
     canvas := true;
     gameView := gameView s |}.

Definition processAllElements (h : Host) (s : State) : State :=
  let glassElements := querySelectorAll s (elementsOf (document h)) in
  let s :=
    forEach (trackedElements s)
      (fun element s =>
         if negb (hasBlurClass (getElement s element))
         then snd (removeElement element s) else s) s in
  if (0 <? length glassElements)%nat then
    match gameView s with
    | None =>
        let s := initCanvas s in
        let s := forEach glassElements processElement s in
        match createGameView h (trackedElements s) config.resolutionScale with
        | Some g => setGameView (Some (resize (innerWidth h) (innerHeight h) g)) s
        | None => setGameView None s
        end
    | Some g =>
        let s := forEach glassElements processElement s in
        setGameView (Some (updateElements (trackedElements s) g)) s
    end
  else
    match gameView s with
    | Some g => setGameView (Some (updateElements (trackedElements s) g)) s
    | None => s
    end.

(** *** The mutation observer *)

Definition observeAdded (node : Node) (acc : State * bool) : State * bool :=
  match node with
  | ElementNode element _ =>
      let acc :=
        if hasBlurClass (getElement (fst acc) element)
        then (processElement element (fst acc), true) else acc in
      let children := querySelectorAll (fst acc) (descendants node) in
      if (0 <? length children)%nat
      then (forEach children processElement (fst acc), true) else acc
  | TextNode => acc
  end.

Definition observeMutation (mutation : MutationRecord) (acc : State * bool) : State * bool :=
  let acc := forEach (addedNodes mutation) observeAdded acc in
  match type mutation, attributeName mutation with
  | attributes, Some name =>
      if String.eqb name "class" && hasBlurClass (getElement (fst acc) (target mutation))
      then (processElement (target mutation) (fst acc), true) else acc
  | _, _ => acc
  end.

Definition observer (mutations : list MutationRecord) (s : State) : State :=
  let '(s, hasNewBlurElements) := forEach mutations observeMutation (s, false) in
  match hasNewBlurElements, gameView s with
  | true, Some g => setGameView (Some (updateElements (trackedElements s) g)) s
  | _, _ => s
  end.

(** *** One frame *)

Record DrawCall : Type := {
  u_shape : JSNumber * JSNumber * JSNumber * JSNumber;
  u_borderRadius : JSNumber;
  u_resolution : JSNumber * JSNumber;
  u_blurStrength : JSNumber;
}.

Record Box : Type := {
  scaledLeft : JSNumber;
  scaledTop : JSNumber;
  scaledWidth : JSNumber;
  scaledHeight : JSNumber;
}.

Definition buffer : JSNumber := ofZ 1.

Definition scaledBox (canvasRect rect : DOMRect) (scale : JSNumber) : Box :=
  {| scaledLeft := sub (floor (mul (sub (left rect) (left canvasRect)) scale)) buffer;
     scaledTop := sub (floor (mul (sub (top rect) (top canvasRect)) scale)) buffer;
     scaledWidth := add (ceil (mul (width rect) scale)) (mul buffer (ofZ 2));
     scaledHeight := add (ceil (mul (height rect) scale)) (mul buffer (ofZ 2)) |}.

Definition isCircle (borderRadius : string) : bool :=
  includes "%" borderRadius && ge (parseFloat borderRadius) (ofZ 50).

Definition draw (l : Layout) (s : State) (g : GameView) (element : nat) : DrawCall :=
  let rect := boundingClientRect l element in
  let b := scaledBox (canvasRect l) rect (currentResolutionScale g) in
  let centerX := add (scaledLeft b) (half (scaledWidth b)) in
  let centerY := sub (canvas_height g) (add (scaledTop b) (half (scaledHeight b))) in
  let borderRadius := parseFloat (Dom.borderRadius l element) in
  let circle := isCircle (Dom.borderRadius l element) in
  let blurStrength :=
    or_else
      (parseFloat
         (match dataset (getElement s element) !! "blurStrength" with
          | Some v => if truthy_string v then v else ""
          | None => ""
          end))
      config.defaultBlurStrength in
  {| u_shape := (centerX, centerY,
                 (if circle then half (scaledWidth b) else half (scaledWidth b)),
                 (if circle then ofZ 0 else half (scaledHeight b)));
     u_borderRadius := mul borderRadius (currentResolutionScale g);
     u_resolution := (canvas_width g, canvas_height g);
     u_blurStrength := blurStrength |}.

(** The draw calls of one [render], in the order of [currentElements]. *)
Definition render (l : Layout) (s : State) (g : GameView) : list DrawCall :=
  map (draw l s g) (currentElements g).

(** *** Runs *)

Inductive Event : Type :=
| Refresh (h : Host)                        (* [processAllElements()] *)
| Mutations (ms : list MutationRecord)      (* the observer's callback *)
| PageScript (els : gmap nat Element).      (* the page edits its elements *)

Definition step (s : State) (ev : Event) : State :=
  match ev with
  | Refresh h => processAllElements h s
  | Mutations ms => observer ms s
  | PageScript els =>
      {| elements := els;
         trackedElements := trackedElements s;
         canvas := canvas s;
         gameView := gameView s |}
  end.

Definition run (s : State) (evs : list Event) : State := fold_left step evs s.

End Blur.

(* ===================================================================== *)
(** ** The fragment shader *)
(* ===================================================================== *)

(** The shader as it computes on finite values, in exact arithmetic.  [Glsl]
    below is the shader on all the values [render] hands it, and agrees with
    this one on the finite ones ([main_finite], [distance_finite]). *)
Module Shader.

Local Open Scope R_scope.

Record vec2 : Type := { x : R; y : R }.
Record vec4 : Type := { c1 : R; c2 : R; c3 : R; c4 : R }.

Definition vec4_zero : vec4 := {| c1 := 0; c2 := 0; c3 := 0; c4 := 0 |}.
Definition vec4_add (u v : vec4) : vec4 :=
  {| c1 := c1 u + c1 v; c2 := c2 u + c2 v; c3 := c3 u + c3 v; c4 := c4 u + c4 v |}.
Definition vec4_scale (v : vec4) (k : R) : vec4 :=
  {| c1 := c1 v * k; c2 := c2 v * k; c3 := c3 v * k; c4 := c4 v * k |}.
Definition vec4_div (v : vec4) (k : R) : vec4 :=
  {| c1 := c1 v / k; c2 := c2 v / k; c3 := c3 v / k; c4 := c4 v / k |}.

Record Uniforms : Type := {
  u_texture : vec2 -> vec4;      (* [texture2D(u_texture, .)] *)
  u_shape : vec4;
  u_borderRadius : R;
  u_resolution : vec2;
  u_blurStrength : R;
}.

Definition blurSizing : Z := Blur.config.maxBlurSize.

Definition length (v : vec2) : R := sqrt (x v * x v + y v * y v).

Definition roundedBoxSDF (centerPosition size : vec2) (radius : R) : R :=
  length {| x := Rmax (Rabs (x centerPosition) - x size + radius) 0;
            y := Rmax (Rabs (y centerPosition) - y size + radius) 0 |} - radius.

Definition gaussian (x sigma : R) : R :=
  exp (- (x * x) / (2 * sigma * sigma)) / (sqrt (2 * 3.14159) * sigma).

(** [distance] of [main]. *)
Definition distance (u : Uniforms) (gl_FragCoord : vec2) : R :=
  let pixelCoord := gl_FragCoord in
  let centerPosition :=
    {| x := x pixelCoord - c1 (u_shape u); y := y pixelCoord - c2 (u_shape u) |} in
  if Req_dec_T (c4 (u_shape u)) 0
  then length centerPosition - c3 (u_shape u)
  else roundedBoxSDF centerPosition {| x := c3 (u_shape u); y := c4 (u_shape u) |}
         (u_borderRadius u).

(** The values [x] and [y] run through: [-blurSizing], ..., [blurSizing]. *)
Definition loopRange : list Z := seqZ (- blurSizing) (2 * blurSizing + 1).

Definition weightAt (u : Uniforms) (ox oy : Z) : R :=
  let sigma := u_blurStrength u / 3 in
  let offset := {| x := IZR ox / x (u_resolution u); y := IZR oy / y (u_resolution u) |} in
  gaussian (length offset) sigma.

(** One turn of the inner loop, on [(blurredColor, totalWeight)]. *)
Definition sample (u : Uniforms) (v_texcoord : vec2) (ox oy : Z) (acc : vec4 * R) : vec4 * R :=
  if Rgt_dec (IZR (ox * ox + oy * oy)) (u_blurStrength u * u_blurStrength u) then acc
  else
    let offset := {| x := IZR ox / x (u_resolution u); y := IZR oy / y (u_resolution u) |} in
    let weight := weightAt u ox oy in
    (vec4_add (fst acc)
       (vec4_scale
          (u_texture u {| x := x v_texcoord + x offset; y := y v_texcoord + y offset |})
          weight),
     snd acc + weight).

(** The two loops of [main]. *)
Definition accumulate (u : Uniforms) (v_texcoord : vec2) : vec4 * R :=
  Blur.forEach loopRange
    (fun ox acc => Blur.forEach loopRange (fun oy acc => sample u v_texcoord ox oy acc) acc)
    (vec4_zero, 0).

(** [main]: [None] when the fragment is discarded, else [gl_FragColor]. *)
Definition main (u : Uniforms) (gl_FragCoord v_texcoord : vec2) : option vec4 :=
  if Rgt_dec (distance u gl_FragCoord) 0 then None
  else
    let '(blurredColor, totalWeight) := accumulate u v_texcoord in
    Some (vec4_div blurredColor totalWeight).

(** Whether an offset passes the radius test. *)
Definition included (s : R) (p : Z * Z) : bool :=
  if Rgt_dec (IZR (fst p * fst p + snd p * snd p)) (s * s) then false else true.

(** The offsets the loops keep, in the order they are visited. *)
Definition kernelOffsets (s : R) : list (Z * Z) :=
  List.filter (included s) (list_prod loopRange loopRange).



End Shader.

(* ===================================================================== *)
(** ** The fragment shader on the values [render] hands it *)
(* ===================================================================== *)

(** [Shader] reads the uniforms as real numbers.  [render] can hand the
    shader an infinity (the class [blured-Infinity]) and NaN (a computed
    border-radius that does not parse), so here a [float] is a real number,
    an infinity or NaN, with the arithmetic of IEEE 754 on the last two.  On
    real numbers the arithmetic is exact: GLSL ES leaves the precision and
    the range of [mediump float] to the implementation, and neither rounding
    nor overflow or underflow of finite values is modelled.  Zero has no
    sign; a number other than zero divided by zero is an infinity of the
    number's sign. *)
Module Glsl.

Local Open Scope R_scope.

Inductive float : Type :=
| Num (r : R)
| Inf (negative : bool)
| NaN.

Definition negativeR (r : R) : bool := if Rlt_dec r 0 then true else false.

Definition neg (a : float) : float :=
  match a with
  | Num r => Num (- r)
  | Inf s => Inf (negb s)
  | NaN => NaN
  end.

Definition add (a b : float) : float :=
  match a, b with
  | NaN, _ | _, NaN => NaN
  | Inf s, Inf t => if Bool.eqb s t then Inf s else NaN
  | Inf s, Num _ => Inf s
  | Num _, Inf t => Inf t
  | Num p, Num q => Num (p + q)
  end.

Definition sub (a b : float) : float := add a (neg b).

Definition mul (a b : float) : float :=
  match a, b with
  | NaN, _ | _, NaN => NaN
  | Inf s, Inf t => Inf (xorb s t)
  | Inf s, Num r | Num r, Inf s =>
      if Req_dec_T r 0 then NaN else Inf (xorb s (negativeR r))
  | Num p, Num q => Num (p * q)
  end.

Definition div (a b : float) : float :=
  match a, b with
  | NaN, _ | _, NaN => NaN
  | Inf _, Inf _ => NaN
  | Inf s, Num r => Inf (xorb s (negativeR r))
  | Num _, Inf _ => Num 0
  | Num p, Num q =>
      if Req_dec_T q 0 then (if Req_dec_T p 0 then NaN else Inf (negativeR p))
      else Num (p / q)
  end.

(** [a < b], [a > b] and [a == b]: false when either is NaN. *)
Definition lt (a b : float) : bool :=
  match a, b with
  | Num p, Num q => if Rlt_dec p q then true else false
  | Num _, Inf t => negb t
  | Inf s, Num _ => s
  | Inf s, Inf t => s && negb t
  | _, _ => false
  end.

Definition gt (a b : float) : bool := lt b a.

Definition eq (a b : float) : bool :=
  match a, b with
  | Num p, Num q => if Req_dec_T p q then true else false
  | Inf s, Inf t => Bool.eqb s t
  | _, _ => false
  end.

Definition abs (a : float) : float :=
  match a with
  | Num r => Num (Rabs r)
  | Inf _ => Inf false
  | NaN => NaN
  end.

(** [max(a, b)]: [b] if [a < b], else [a]. *)
Definition max (a b : float) : float := if lt a b then b else a.

Definition sqrt (a : float) : float :=
  match a with
  | Num r => if Rlt_dec r 0 then NaN else Num (R_sqrt.sqrt r)
  | Inf false => Inf false
  | _ => NaN
  end.

Definition exp (a : float) : float :=
  match a with
  | Num r => Num (Rtrigo_def.exp r)
  | Inf false => Inf false
  | Inf true => Num 0
  | NaN => NaN
  end.

(** [float(n)] *)
Definition ofInt (n : Z) : float := Num (IZR n).

Record vec2 : Type := { x : float; y : float }.
Record vec4 : Type := { c1 : float; c2 : float; c3 : float; c4 : float }.

Definition vec4_zero : vec4 := {| c1 := Num 0; c2 := Num 0; c3 := Num 0; c4 := Num 0 |}.
Definition vec4_add (u v : vec4) : vec4 :=
  {| c1 := add (c1 u) (c1 v); c2 := add (c2 u) (c2 v);
     c3 := add (c3 u) (c3 v); c4 := add (c4 u) (c4 v) |}.
Definition vec4_scale (v : vec4) (k : float) : vec4 :=
  {| c1 := mul (c1 v) k; c2 := mul (c2 v) k; c3 := mul (c3 v) k; c4 := mul (c4 v) k |}.
Definition vec4_div (v : vec4) (k : float) : vec4 :=
  {| c1 := div (c1 v) k; c2 := div (c2 v) k; c3 := div (c3 v) k; c4 := div (c4 v) k |}.

Record Uniforms : Type := {
  u_texture : vec2 -> vec4;      (* [texture2D(u_texture, .)] *)
  u_shape : vec4;
  u_borderRadius : float;
  u_resolution : vec2;
  u_blurStrength : float;
}.

Definition length (v : vec2) : float := sqrt (add (mul (x v) (x v)) (mul (y v) (y v))).

Definition roundedBoxSDF (centerPosition size : vec2) (radius : float) : float :=
  sub (length {| x := max (add (sub (abs (x centerPosition)) (x size)) radius) (Num 0);
                 y := max (add (sub (abs (y centerPosition)) (y size)) radius) (Num 0) |})
    radius.

Definition gaussian (x sigma : float) : float :=
  div (exp (div (neg (mul x x)) (mul (mul (Num 2) sigma) sigma)))
    (mul (sqrt (mul (Num 2) (Num 3.14159))) sigma).

(** [distance] of [main]. *)
Definition distance (u : Uniforms) (gl_FragCoord : vec2) : float :=
  let pixelCoord := gl_FragCoord in
  let centerPosition :=
    {| x := sub (x pixelCoord) (c1 (u_shape u)); y := sub (y pixelCoord) (c2 (u_shape u)) |} in
  if eq (c4 (u_shape u)) (Num 0)
  then sub (length centerPosition) (c3 (u_shape u))
  else roundedBoxSDF centerPosition {| x := c3 (u_shape u); y := c4 (u_shape u) |}
         (u_borderRadius u).

Definition weightAt (u : Uniforms) (ox oy : Z) : float :=
  let sigma := div (u_blurStrength u) (Num 3) in
  let offset := {| x := div (ofInt ox) (x (u_resolution u));
                   y := div (ofInt oy) (y (u_resolution u)) |} in
  gaussian (length offset) sigma.

(** One turn of the inner loop, on [(blurredColor, totalWeight)]. *)
Definition sample (u : Uniforms) (v_texcoord : vec2) (ox oy : Z) (acc : vec4 * float)
    : vec4 * float :=
  if gt (ofInt (ox * ox + oy * oy)) (mul (u_blurStrength u) (u_blurStrength u)) then acc
  else
    let offset := {| x := div (ofInt ox) (x (u_resolution u));
                     y := div (ofInt oy) (y (u_resolution u)) |} in
    let weight := weightAt u ox oy in
    (vec4_add (fst acc)
       (vec4_scale
          (u_texture u {| x := add (x v_texcoord) (x offset);
                          y := add (y v_texcoord) (y offset) |})
          weight),
     add (snd acc) weight).

(** The two loops of [main]. *)
Definition accumulate (u : Uniforms) (v_texcoord : vec2) : vec4 * float :=
  Blur.forEach Shader.loopRange
    (fun ox acc =>
       Blur.forEach Shader.loopRange (fun oy acc => sample u v_texcoord ox oy acc) acc)
    (vec4_zero, Num 0).

(** [main]: [None] when the fragment is discarded, else [gl_FragColor]. *)
Definition main (u : Uniforms) (gl_FragCoord v_texcoord : vec2) : option vec4 :=
  if gt (distance u gl_FragCoord) (Num 0) then None
  else
    let '(blurredColor, totalWeight) := accumulate u v_texcoord in
    Some (vec4_div blurredColor totalWeight).

(** *** From the draw call to the uniforms *)

(** [gl.uniform1f] and the like hand a Number over as a [float]. *)
Definition ofNumber (n : JS.JSNumber) : float :=
  match n with
  | JS.NaN => NaN
  | JS.Infinity s => Inf s
  | JS.Finite m k => Num (IZR m / IZR (10 ^ Z.of_nat k))
  end.

(** The uniforms of a draw call, over the texture bound to unit 0. *)
Definition uniforms (texture : vec2 -> vec4) (d : Blur.DrawCall) : Uniforms :=
  let '(cx, cy, hw, hh) := Blur.u_shape d in
  {| u_texture := texture;
     u_shape := {| c1 := ofNumber cx; c2 := ofNumber cy;
                   c3 := ofNumber hw; c4 := ofNumber hh |};
     u_borderRadius := ofNumber (Blur.u_borderRadius d);
     u_resolution := {| x := ofNumber (fst (Blur.u_resolution d));
                        y := ofNumber (snd (Blur.u_resolution d)) |};
     u_blurStrength := ofNumber (Blur.u_blurStrength d) |}.

(** *** Finite values *)

Definition ofReal2 (v : Shader.vec2) : vec2 :=
  {| x := Num (Shader.x v); y := Num (Shader.y v) |}.

Definition ofReal4 (v : Shader.vec4) : vec4 :=
  {| c1 := Num (Shader.c1 v); c2 := Num (Shader.c2 v);
     c3 := Num (Shader.c3 v); c4 := Num (Shader.c4 v) |}.



End Glsl.

(* ===================================================================== *)
(** ** Vocabulary of the properties *)
(* ===================================================================== *)

Module Props.
Import JS Dom Blur.

(** What [processElement] leaves of an element it starts to track. *)
Definition trackedForm (el : Element) : Element :=
  {| classList := classList_add "relative" (classList el);
     dataset :=
       <["blurStrength" := toString (blurStrengthOf (classList_add "relative" (classList el)))]>
         (dataset el) |}.

(** What [removeElement] leaves of an element it stops tracking. *)
Definition untrackedForm (el : Element) : Element :=
  {| classList := classList el; dataset := delete "blurStrength" (dataset el) |}.

(** The element carries the marker the script looks for: a class token that
    contains [blured]. *)
Definition marked (s : State) (x : nat) : Prop :=
  hasBlurClass (getElement s x) = true.

(** Tracked, and without the marker. *)
Definition stale (s : State) (x : nat) : Prop :=
  x ∈ trackedElements s /\ ~ marked s x.

#[global] Instance marked_dec (s : State) (x : nat) : Decision (marked s x).
Proof. unfold marked. apply _. Defined.

#[global] Instance stale_dec (s : State) (x : nat) : Decision (stale s x).
Proof. unfold stale. apply _. Defined.

(** The callback of the sweep at the head of [processAllElements]. *)
Definition sweepStep (element : nat) (s : State) : State :=
  if negb (hasBlurClass (getElement s element))
  then snd (removeElement element s) else s.

(** [s'] comes from [s] by tracking marked elements only. *)
Record extends (s s' : State) : Prop := {
  extends_prefix : trackedElements s `prefix_of` trackedElements s';
  extends_marked : forall x, x ∈ trackedElements s' -> x ∈ trackedElements s \/ marked s x;
  extends_classes : forall x, hasBlurClass (getElement s' x) = hasBlurClass (getElement s x);
  extends_kept : forall x, x ∈ trackedElements s -> getElement s' x = getElement s x;
}.

(** The qualifying marker as the specification words it: the class token
    [blured], or a token [blured-<suffix>]. *)
Definition carriesQualifyingMarker (el : Element) : bool :=
  existsb (fun c => String.eqb c "blured" || startsWith "blured-" c) (classList el).

(** The half-extents a draw call hands to the shader: [u_shape.z] and
    [u_shape.w]. *)
Definition shape_hw (d : DrawCall) : JSNumber := let '(_, _, hw, _) := u_shape d in hw.
Definition shape_hh (d : DrawCall) : JSNumber := let '(_, _, _, hh) := u_shape d in hh.

(** The computed border-radius as the specification words the circle test:
    it is expressed as a percentage - a number, [%], and nothing more - and
    that number is at least 50. *)
Definition percentage (style : string) : option JSNumber :=
  match scanDecimal style with
  | Some (v, "%") => Some (round64 v)
  | _ => None
  end.

Definition percentageOfAtLeast50 (style : string) : bool :=
  match percentage style with
  | Some v => ge v (ofZ 50)
  | None => false
  end.

(** A magnitude up to [2^52]: whole numbers that large, one or two more or
    less, are binary64 numbers. *)
Definition safeMagnitude (q : Q) : Prop :=
  (- inject_Z (2 ^ 52) <= q <= inject_Z (2 ^ 52))%Q.

(** The stored strength of an element. *)
Definition storedStrength (s : State) (x : nat) : option string :=
  dataset (getElement s x) !! "blurStrength".

End Props.

(* ===================================================================== *)
(** ** A sample page *)
(* ===================================================================== *)

Module Sample.
Import JS Dom Blur Props.
Local Open Scope nat_scope.

Definition el (classes : list string) : Element :=
  {| classList := classes; dataset := ∅ |}.

(** [<html 0> <body 1> <div 2 class="panel blured-7.5"> <span 3 class="unblured">
    <p 4 class="blured-abc"> <p 5 class="blured"> <p 6 class="plain"> <p 7 class="blured-0">] *)
Definition page : gmap nat Element :=
  <[2 := el ["panel"; "blured-7.5"]]>
    (<[3 := el ["unblured"]]>
       (<[4 := el ["blured-abc"]]>
          (<[5 := el ["blured"]]>
             (<[6 := el ["plain"]]>
                (<[7 := el ["blured-0"]]> ∅))))).

Definition tree : Node :=
  ElementNode 0
    [ElementNode 1
       [ElementNode 2 [TextNode; ElementNode 3 []];
        ElementNode 4 []; ElementNode 5 []; ElementNode 6 []; ElementNode 7 []]].

Definition host : Host :=
  {| document := tree; webgl := true; innerWidth := ofZ 1920; innerHeight := ofZ 1080 |}.

Definition booted : State := processAllElements host (initialState page).

(** After the first scan the page gives the [div] the class [blured-3] in
    place of [blured-7.5]. *)
Definition restyled : gmap nat Element :=
  <[2 := {| classList := ["panel"; "blured-3"; "relative"];
            dataset := dataset (getElement booted 2) |}]> (elements booted).

(** Layout of one frame: the canvas covers the window, the [div] is 40 by 20
    at (100, 50) with round corners of 8px, the bare [blured] paragraph is a
    disc. *)
Definition rectOf (l t w h : Z) : DOMRect :=
  {| left := ofZ l; top := ofZ t; width := ofZ w; height := ofZ h |}.

Definition layout : Layout :=
  {| canvasRect := rectOf 0 0 1920 1080;
     boundingClientRect := fun e =>
       match e with
       | 2 => rectOf 100 50 40 20
       | 5 => rectOf 300 200 64 64
       | _ => rectOf 0 0 10 10
       end;
     borderRadius := fun e =>
       match e with
       | 2 => "8px"
       | 5 => "50%"
       | _ => "0px"
       end |}.

Definition liveView : GameView :=
  {| currentResolutionScale := config.resolutionScale;
     currentElements := trackedElements booted;
     canvas_width := ofZ 960;
     canvas_height := ofZ 540 |}.

(** A later batch of mutation records: a text node and a subtree were
    added, and the [class] attribute of two elements changed. *)
Definition batch : list MutationRecord :=
  [ {| type := childList; attributeName := None; target := 1;
       addedNodes := [TextNode; ElementNode 2 [TextNode; ElementNode 3 []]] |};
    {| type := attributes; attributeName := Some "class"; target := 6; addedNodes := [] |};
    {| type := attributes; attributeName := Some "class"; target := 4; addedNodes := [] |} ].

(** The page takes the marker off the [div]. *)
Definition unmarked : gmap nat Element :=
  <[2 := {| classList := ["panel"; "relative"];
            dataset := dataset (getElement booted 2) |}]> (elements booted).

(** The placeholder texture (one blue texel) under a disc of radius 1 at the
    origin, blurred with strength 3. *)
Definition blue : Shader.vec4 :=
  {| Shader.c1 := 0%R; Shader.c2 := 0%R; Shader.c3 := 1%R; Shader.c4 := 1%R |}.

Definition disc : Shader.Uniforms :=
  {| Shader.u_texture := fun _ => blue;
     Shader.u_shape :=
       {| Shader.c1 := 0%R; Shader.c2 := 0%R; Shader.c3 := 1%R; Shader.c4 := 0%R |};
     Shader.u_borderRadius := 0%R;
     Shader.u_resolution := {| Shader.x := 960%R; Shader.y := 540%R |};
     Shader.u_blurStrength := 3%R |}.

Definition origin : Shader.vec2 := {| Shader.x := 0%R; Shader.y := 0%R |}.

End Sample.

(* ===================================================================== *)
(** ** The untyped copy *)
(* ===================================================================== *)

(** [src/blur.js] is [src/index.ts] without the types.  Its tracking code is
    the same text; its [render] sets the uniforms of the program one call
    after the other, some of them twice, and reads the stored strength
    without the [|| ''].  The uniforms of a program keep their values from
    one draw to the next, so they are a state the calls update, and a draw
    call is what they hold at [drawArrays]. *)
Module Untyped.
Import JS Dom Blur.

Definition uniform4f_shape (v : JSNumber * JSNumber * JSNumber * JSNumber)
    (u : DrawCall) : DrawCall :=
  {| u_shape := v; u_borderRadius := u_borderRadius u;
     u_resolution := u_resolution u; u_blurStrength := u_blurStrength u |}.

Definition uniform1f_borderRadius (v : JSNumber) (u : DrawCall) : DrawCall :=
  {| u_shape := u_shape u; u_borderRadius := v;
     u_resolution := u_resolution u; u_blurStrength := u_blurStrength u |}.

Definition uniform2f_resolution (v : JSNumber * JSNumber) (u : DrawCall) : DrawCall :=
  {| u_shape := u_shape u; u_borderRadius := u_borderRadius u;
     u_resolution := v; u_blurStrength := u_blurStrength u |}.

Definition uniform1f_blurStrength (v : JSNumber) (u : DrawCall) : DrawCall :=
  {| u_shape := u_shape u; u_borderRadius := u_borderRadius u;
     u_resolution := u_resolution u; u_blurStrength := v |}.

(** [parseFloat(x)] of a property that may be missing: [undefined] is
    converted to the string [undefined]. *)
Definition parseFloatOf (x : option string) : JSNumber :=
  parseFloat (match x with Some v => v | None => "undefined" end).

(** The callback of [currentElements.forEach] in [render]: the uniforms
    before the element, the uniforms at its [drawArrays]. *)
Definition draw (l : Layout) (s : State) (g : GameView) (element : nat)
    (u : DrawCall) : DrawCall :=
  let rect := boundingClientRect l element in
  let buffer := ofZ 1 in
  let scaledLeft :=
    sub (floor (mul (sub (left rect) (left (canvasRect l))) (currentResolutionScale g)))
      buffer in
  let scaledTop :=
    sub (floor (mul (sub (top rect) (top (canvasRect l))) (currentResolutionScale g)))
      buffer in
  let scaledWidth :=
    add (ceil (mul (width rect) (currentResolutionScale g))) (mul buffer (ofZ 2)) in
  let scaledHeight :=
    add (ceil (mul (height rect) (currentResolutionScale g))) (mul buffer (ofZ 2)) in
  let centerX := add scaledLeft (half scaledWidth) in
  let centerY := sub (canvas_height g) (add scaledTop (half scaledHeight)) in
  let borderRadius := parseFloat (Dom.borderRadius l element) in
  let isCircle :=
    includes "%" (Dom.borderRadius l element) &&
    ge (parseFloat (Dom.borderRadius l element)) (ofZ 50) in
  let shape :=
    (centerX, centerY,
     (if isCircle then half scaledWidth else half scaledWidth),
     (if isCircle then ofZ 0 else half scaledHeight)) in
  let u := uniform4f_shape shape u in
  let u := uniform1f_borderRadius (mul borderRadius (currentResolutionScale g)) u in
  let u := uniform2f_resolution (canvas_width g, canvas_height g) u in
  let blurStrength :=
    or_else (parseFloatOf (dataset (getElement s element) !! "blurStrength"))
      config.defaultBlurStrength in
  let u := uniform4f_shape shape u in
  let u := uniform1f_borderRadius (mul borderRadius (currentResolutionScale g)) u in
  let u := uniform2f_resolution (canvas_width g, canvas_height g) u in
  let u := uniform1f_blurStrength blurStrength u in
  u.

(** The draw calls of one [render], from the uniforms the last frame left. *)
Fixpoint drawAll (l : Layout) (s : State) (g : GameView) (elements : list nat)
    (u : DrawCall) : list DrawCall :=
  match elements with
  | [] => []
  | element :: rest => let u := draw l s g element u in u :: drawAll l s g rest u
  end.

Definition render (l : Layout) (s : State) (g : GameView) (u : DrawCall) : list DrawCall :=
  drawAll l s g (currentElements g) u.

End Untyped.

(* ===================================================================== *)
(** ** More vocabulary *)
(* ===================================================================== *)

Module More.
Import JS Dom Blur Props.

(** What the observer never touches: the canvas, and the view. *)
Definition sameView (s t : State) : Prop :=
  canvas t = canvas s /\ gameView t = gameView s.

(** The invariant of the two loops of the observer's callback: nothing but
    tracking happened, the view is as it was, and as long as the flag is
    down nothing happened at all. *)
Definition observing (s : State) (acc : State * bool) : Prop :=
  extends s (fst acc) /\ sameView s (fst acc) /\ (snd acc = false -> fst acc = s).

(** A rectangle [(left, top, width, height)] of rationals lies within
    another. *)
Definition margins (outerLeft outerWidth innerLeft innerWidth : Q) : Q * Q :=
  (innerLeft - outerLeft, (outerLeft + outerWidth) - (innerLeft + innerWidth))%Q.

(** The uniforms with another blur strength. *)
Definition withStrength (u : Shader.Uniforms) (s : R) : Shader.Uniforms :=
  {| Shader.u_texture := Shader.u_texture u;
     Shader.u_shape := Shader.u_shape u;
     Shader.u_borderRadius := Shader.u_borderRadius u;
     Shader.u_resolution := Shader.u_resolution u;
     Shader.u_blurStrength := s |}.


(** The colour negated, component by component. *)
Definition vec4_opp (v : Shader.vec4) : Shader.vec4 :=
  {| Shader.c1 := - Shader.c1 v; Shader.c2 := - Shader.c2 v;
     Shader.c3 := - Shader.c3 v; Shader.c4 := - Shader.c4 v |}%R.

(** The fragment's offset from the centre of the shape. *)
Definition fromCentre (u : Shader.Uniforms) (gl_FragCoord : Shader.vec2) : Shader.vec2 :=
  {| Shader.x := Shader.x gl_FragCoord - Shader.c1 (Shader.u_shape u);
     Shader.y := Shader.y gl_FragCoord - Shader.c2 (Shader.u_shape u) |}%R.

(** Reading digits.  [digitsValue s acc] is what [scanDigits] accumulates
    on [acc] over the digits that start [s]. *)
Definition isDigit (c : ascii) : bool :=
  match JS.digitValue c with Some _ => true | None => false end.

Fixpoint allDigits (s : string) : bool :=
  match s with
  | String c r => isDigit c && allDigits r
  | EmptyString => true
  end.

Fixpoint digitsValue (s : string) (acc : Z) : Z :=
  match s with
  | String c r =>
      match JS.digitValue c with
      | Some d => digitsValue r (10 * acc + d)
      | None => acc
      end
  | EmptyString => acc
  end.

(** The string is empty or starts with something else than a digit. *)
Definition startsNonDigit (s : string) : bool :=
  match s with
  | String c _ => negb (isDigit c)
  | EmptyString => true
  end.

(** The value of a decimal [uint], read from the left on [acc]. *)
Fixpoint uintValue (d : Decimal.uint) (acc : Z) : Z :=
  match d with
  | Decimal.Nil => acc
  | Decimal.D0 d => uintValue d (10 * acc)
  | Decimal.D1 d => uintValue d (10 * acc + 1)
  | Decimal.D2 d => uintValue d (10 * acc + 2)
  | Decimal.D3 d => uintValue d (10 * acc + 3)
  | Decimal.D4 d => uintValue d (10 * acc + 4)
  | Decimal.D5 d => uintValue d (10 * acc + 5)
  | Decimal.D6 d => uintValue d (10 * acc + 6)
  | Decimal.D7 d => uintValue d (10 * acc + 7)
  | Decimal.D8 d => uintValue d (10 * acc + 8)
  | Decimal.D9 d => uintValue d (10 * acc + 9)
  end.

(** A number in canonical form: no trailing zero among its fraction
    digits. *)
Definition canonical (x : JS.JSNumber) : Prop :=
  match x with
  | JS.Finite m k => JS.norm m k = (m, k)
  | _ => True
  end.

(** What [scanUnsignedDecimal] does once the leading digits are read: [ip]
    is their value, [ni] their number, [r1] the rest. *)
Definition afterDigits (ip : Z) (ni : nat) (r1 : string) : option (JS.JSNumber * string) :=
  match r1 with
  | String c r2 =>
      if Ascii.eqb c "." then
        let '(fp, nf, r3) := JS.scanDigits r2 ip 0 in
        match (ni + nf)%nat with
        | O => None
        | _ => let (ex, r4) := JS.scanExponent r3 in
               Some (JS.decimal fp (ex - Z.of_nat nf), r4)
        end
      else
        match ni with
        | O => None
        | _ => let (ex, r4) := JS.scanExponent r1 in Some (JS.decimal ip ex, r4)
        end
  | EmptyString =>
      match ni with
      | O => None
      | _ => let (ex, r4) := JS.scanExponent r1 in Some (JS.decimal ip ex, r4)
      end
  end.

(** The string is empty or starts with white space. *)
Definition blankStart (w : string) : bool :=
  match w with
  | String c _ => JS.isWhiteSpace c
  | EmptyString => true
  end.

(** What the loops of [main] do at an offset they keep. *)
Definition addSample (u : Shader.Uniforms) (v_texcoord : Shader.vec2)
    (acc : Shader.vec4 * R) (p : Z * Z) : Shader.vec4 * R :=
  (Shader.vec4_add (fst acc)
     (Shader.vec4_scale
        (Shader.u_texture u
           {| Shader.x :=
                Shader.x v_texcoord + IZR (fst p) / Shader.x (Shader.u_resolution u);
              Shader.y :=
                Shader.y v_texcoord + IZR (snd p) / Shader.y (Shader.u_resolution u) |})
        (Shader.weightAt u (fst p) (snd p))),
   snd acc + Shader.weightAt u (fst p) (snd p))%R.

End More.

(* ===================================================================== *)
(** ** More samples *)
(* ===================================================================== *)

Module Sample2.
Import JS Dom Blur Props.
Local Open Scope nat_scope.

(** A host without WebGL. *)
Definition plainHost : Host :=
  {| document := Sample.tree; webgl := false;
     innerWidth := ofZ 1920; innerHeight := ofZ 1080 |}.

(** After the first scan the page renames the marker of the [div]: no class
    token is [blured] or starts with [blured-] any more, but one still
    contains [blured]. *)
Definition renamed : gmap nat Element :=
  <[2 := {| classList := ["panel"; "unblured"; "relative"];
            dataset := dataset (getElement Sample.booted 2) |}]> (elements Sample.booted).

(** A frame in which the computed border-radius of the [div] is [60px 10%]:
    corners of 60px by 10% of the height. *)
Definition mixedCorners : Layout :=
  {| canvasRect := canvasRect Sample.layout;
     boundingClientRect := boundingClientRect Sample.layout;
     borderRadius := fun _ => "60px 10%" |}.

(** A frame in which the page is scrolled: the canvas is at -74.74 and the
    [div] at 931.26 from the left of the viewport.  In binary64
    [931.26 - -74.74] is 1006; the exact difference of the two numbers is a
    little less. *)
Definition scrolled : Layout :=
  {| canvasRect := {| left := parseFloat "-74.74"; top := ofZ 0;
                      width := ofZ 1920; height := ofZ 1080 |};
     boundingClientRect := fun _ =>
       {| left := parseFloat "931.26"; top := ofZ 50; width := ofZ 40; height := ofZ 20 |};
     borderRadius := borderRadius Sample.layout |}.

(** A page with a paragraph whose strength has more digits than a Number
    holds, and one whose strength is below the least Number. *)
Definition precise : gmap nat Element :=
  <[9 := Sample.el ["blured-0.1234567890123456789"]]>
    (<[10 := Sample.el ["blured-1e-400"]]> ∅).

(** An element 2 by 2 at (1.75, 0.375). *)
Definition offGrid : DOMRect :=
  {| left := Finite 175 2; top := Finite 375 3; width := ofZ 2; height := ofZ 2 |}.


(** The placeholder texture: blue wherever it is sampled. *)
Definition blueTexture : Glsl.vec2 -> Glsl.vec4 := fun _ => Glsl.ofReal4 Sample.blue.

(** The uniforms of the draw calls of the [div] and of that paragraph. *)
Definition panel : Glsl.Uniforms :=
  Glsl.uniforms blueTexture (draw Sample.layout Sample.booted Sample.liveView 2).


End Sample2.

(* ===================================================================== *)
(** ** Properties of the shader *)
(* ===================================================================== *)

Section ShaderFacts.
Import Shader.
Local Open Scope R_scope.









Lemma forEach_invariant {A S : Type} (P : S -> Prop) (f : A -> S -> S) (l : list A) (s : S) :
  (forall a s, P s -> P (f a s)) -> P s -> P (Blur.forEach l f s).
Proof.
  intros Hf. revert s. unfold Blur.forEach.
  induction l as [|a l IH]; intros s Hs; simpl; [exact Hs|].
  apply IH, Hf, Hs.
Qed.





End ShaderFacts.

(* ===================================================================== *)
(** ** Properties of the built-ins *)
(* ===================================================================== *)

Section StringFacts.
Import JS.

Lemma prefix_before_space (p a b : string) :
  spaceFree p = true ->
  String.prefix p (a +:+ String " " b) = String.prefix p a.
Proof.
  revert a. induction p as [|c p IH]; intros a Hp.
  - destruct a; reflexivity.
  - simpl in Hp. apply andb_prop in Hp as [Hc Hp].
    destruct a as [|d a]; simpl.
    + destruct (ascii_dec c " ") as [->|]; [discriminate|reflexivity].
    + destruct (ascii_dec c d); [apply IH, Hp|reflexivity].
Qed.

Lemma includes_app_space (p a b : string) :
  spaceFree p = true ->
  includes p (a +:+ String " " b) = includes p a || includes p b.
Proof.
  intros Hp. induction a as [|d a IH].
  - pose proof (prefix_before_space p EmptyString b Hp) as H.
    change (EmptyString +:+ String " " b) with (String " " b) in *.
    cbn [includes]. rewrite H, orb_false_r. reflexivity.
  - pose proof (prefix_before_space p (String d a) b Hp) as H.
    change (String d a +:+ String " " b) with (String d (a +:+ String " " b)) in *.
    cbn [includes]. rewrite H, IH, orb_assoc. reflexivity.
Qed.

(** A pattern without a space that occurs in the [class] attribute occurs in
    one of the class tokens, and the other way round. *)
Lemma includes_concat (p : string) (l : list string) :
  spaceFree p = true -> String.prefix p EmptyString = false ->
  includes p (String.concat " " l) = existsb (fun c => includes p c) l.
Proof.
  intros Hp Hne. induction l as [|c l IH].
  - cbn [String.concat includes existsb]. rewrite Hne. reflexivity.
  - destruct l as [|c' l].
    + cbn [String.concat existsb]. rewrite orb_false_r. reflexivity.
    + change (String.concat " " (c :: c' :: l))
        with (c +:+ String " " (String.concat " " (c' :: l))).
      rewrite includes_app_space, IH by exact Hp. reflexivity.
Qed.

Lemma matchesSelector_hasBlurClass (el : Dom.Element) :
  Dom.matchesSelector el = Dom.hasBlurClass el.
Proof. apply includes_concat; reflexivity. Qed.

Lemma replace_prefix (pat rep s : string) :
  String.prefix pat s = true ->
  replace pat rep s = rep +:+ sliceFrom (String.length pat) s.
Proof. intros H. destruct s; cbn [replace]; rewrite H; reflexivity. Qed.

End StringFacts.

(* ===================================================================== *)
(** ** Properties of the tracking *)
(* ===================================================================== *)

Section SetFacts.
Import Blur.
Implicit Types (x y : nat) (l : list nat).

Lemma has_true x l : has x l = true <-> x ∈ l.
Proof. unfold has. apply bool_decide_eq_true. Qed.

Lemma has_false x l : has x l = false <-> x ∉ l.
Proof. unfold has. apply bool_decide_eq_false. Qed.

Lemma elem_of_set_add x y l : y ∈ set_add x l <-> y = x \/ y ∈ l.
Proof.
  unfold set_add. destruct (has x l) eqn:H.
  - apply has_true in H. split; [auto|]. intros [->|?]; assumption.
  - rewrite elem_of_app, list_elem_of_singleton. tauto.
Qed.

Lemma set_add_tracked x l : x ∈ l -> set_add x l = l.
Proof. intros H. unfold set_add. apply has_true in H. rewrite H. reflexivity. Qed.

Lemma set_add_untracked x l : x ∉ l -> set_add x l = l ++ [x].
Proof. intros H. unfold set_add. apply has_false in H. rewrite H. reflexivity. Qed.

Lemma NoDup_set_add x l : NoDup l -> NoDup (set_add x l).
Proof.
  intros Hl. unfold set_add. destruct (has x l) eqn:H; [exact Hl|].
  apply has_false in H. apply NoDup_app. repeat split.
  - exact Hl.
  - intros y Hy Hx. apply list_elem_of_singleton in Hx. subst. contradiction.
  - apply NoDup_singleton.
Qed.

Lemma prefix_set_add x l : l `prefix_of` set_add x l.
Proof.
  unfold set_add. destruct (has x l); [reflexivity|].
  apply prefix_app_r. reflexivity.
Qed.

Lemma elem_of_set_delete x y l : y ∈ set_delete x l <-> y ∈ l /\ y <> x.
Proof. unfold set_delete. rewrite list_elem_of_filter. tauto. Qed.

Lemma NoDup_set_delete x l : NoDup l -> NoDup (set_delete x l).
Proof. apply NoDup_filter. Qed.

Lemma forEach_cons {A S : Type} (f : A -> S -> S) (a : A) (l : list A) (s : S) :
  forEach (a :: l) f s = forEach l f (f a s).
Proof. reflexivity. Qed.

Lemma forEach_nil {A S : Type} (f : A -> S -> S) (s : S) : forEach [] f s = s.
Proof. reflexivity. Qed.

End SetFacts.

Section ElementFacts.
Import JS Dom Blur Props.
Implicit Types (s : State) (e x : nat) (el : Element).

Lemma existsb_classList_add (f : string -> bool) (token : string) (l : list string) :
  f token = false -> existsb f (classList_add token l) = existsb f l.
Proof.
  intros Hf. unfold classList_add. case_bool_decide; [reflexivity|].
  rewrite existsb_app. simpl. rewrite Hf. rewrite !orb_false_r. reflexivity.
Qed.

Lemma find_classList_add (f : string -> bool) (token : string) (l : list string) :
  f token = false -> List.find f (classList_add token l) = List.find f l.
Proof.
  intros Hf. unfold classList_add. case_bool_decide; [reflexivity|].
  induction l as [|c l IH]; simpl.
  - rewrite Hf. reflexivity.
  - destruct (f c); [reflexivity|]. apply IH. rewrite elem_of_cons in *. tauto.
Qed.

(** Adding the class [relative] changes neither the marker nor the strength. *)
Lemma blurStrengthOf_relative (l : list string) :
  blurStrengthOf (classList_add "relative" l) = blurStrengthOf l.
Proof. unfold blurStrengthOf. rewrite find_classList_add; reflexivity. Qed.

Lemma hasBlurClass_trackedForm el : hasBlurClass (trackedForm el) = hasBlurClass el.
Proof. unfold hasBlurClass. simpl. apply existsb_classList_add. reflexivity. Qed.

Lemma hasBlurClass_untrackedForm el : hasBlurClass (untrackedForm el) = hasBlurClass el.
Proof. reflexivity. Qed.

Lemma getElement_insert (m : gmap nat Element) t c g e el x :
  getElement {| elements := <[e := el]> m; trackedElements := t;
                canvas := c; gameView := g |} x =
  if decide (x = e) then el else default emptyElement (m !! x).
Proof.
  unfold getElement. simpl. destruct (decide (x = e)) as [->|Hne].
  - rewrite lookup_insert_eq. reflexivity.
  - rewrite lookup_insert_ne by congruence. reflexivity.
Qed.

Lemma processElement_tracked e s : e ∈ trackedElements s -> processElement e s = s.
Proof. intros H. unfold processElement. apply has_true in H. rewrite H. reflexivity. Qed.

Lemma processElement_untracked e s :
  e ∉ trackedElements s ->
  processElement e s =
  {| elements := <[e := trackedForm (getElement s e)]> (elements s);
     trackedElements := trackedElements s ++ [e];
     canvas := canvas s;
     gameView := gameView s |}.
Proof.
  intros H. unfold processElement.
  rewrite (proj2 (has_false _ _) H), (set_add_untracked _ _ H). reflexivity.
Qed.

Lemma trackedElements_processElement e s :
  trackedElements (processElement e s) = set_add e (trackedElements s).
Proof.
  destruct (decide (e ∈ trackedElements s)) as [H|H].
  - rewrite processElement_tracked, set_add_tracked; auto.
  - rewrite processElement_untracked, set_add_untracked; auto.
Qed.

Lemma getElement_processElement e s x :
  getElement (processElement e s) x =
  if decide (x = e /\ e ∉ trackedElements s) then trackedForm (getElement s e)
  else getElement s x.
Proof.
  destruct (decide (e ∈ trackedElements s)) as [H|H].
  - rewrite processElement_tracked by exact H.
    destruct (decide _) as [[_ ?]|]; [contradiction|reflexivity].
  - rewrite processElement_untracked by exact H.
    unfold getElement. simpl.
    destruct (decide (x = e)) as [->|Hne].
    + rewrite lookup_insert_eq. destruct (decide _) as [|Hn]; [reflexivity|tauto].
    + rewrite lookup_insert_ne by congruence.
      destruct (decide _) as [[? _]|]; [contradiction|reflexivity].
Qed.

Lemma gameView_processElement e s : gameView (processElement e s) = gameView s.
Proof. unfold processElement. destruct (has _ _); reflexivity. Qed.

Lemma canvas_processElement e s : canvas (processElement e s) = canvas s.
Proof. unfold processElement. destruct (has _ _); reflexivity. Qed.

Lemma removeElement_untracked e s : e ∉ trackedElements s -> removeElement e s = (false, s).
Proof. intros H. unfold removeElement. apply has_false in H. rewrite H. reflexivity. Qed.

Lemma removeElement_tracked e s :
  e ∈ trackedElements s ->
  removeElement e s =
  (true,
   {| elements := <[e := untrackedForm (getElement s e)]> (elements s);
      trackedElements := set_delete e (trackedElements s);
      canvas := canvas s;
      gameView := gameView s |}).
Proof. intros H. unfold removeElement. apply has_true in H. rewrite H. reflexivity. Qed.

End ElementFacts.

Section LoopFacts.
Import JS Dom Blur Props.
Implicit Types (s : State) (e x : nat) (l : list nat).

(** [l.forEach(processElement)]: who is tracked afterwards. *)
Lemma forEach_processElement_tracked l s x :
  x ∈ trackedElements (forEach l processElement s) <-> x ∈ trackedElements s \/ x ∈ l.
Proof.
  revert s. induction l as [|a l IH]; intros s.
  - rewrite forEach_nil, elem_of_nil. tauto.
  - rewrite forEach_cons, IH, trackedElements_processElement, elem_of_set_add, elem_of_cons.
    tauto.
Qed.

(** [l.forEach(processElement)]: what becomes of each element. *)
Lemma forEach_processElement_element l s x :
  getElement (forEach l processElement s) x =
  if decide (x ∈ l /\ x ∉ trackedElements s) then trackedForm (getElement s x)
  else getElement s x.
Proof.
  revert s. induction l as [|a l IH]; intros s.
  - rewrite forEach_nil. destruct (decide _) as [[H _]|]; [|reflexivity].
    apply elem_of_nil in H. destruct H.
  - rewrite forEach_cons, IH, trackedElements_processElement.
    rewrite !getElement_processElement.
    repeat case_decide; rewrite ?elem_of_set_add, ?elem_of_cons in *;
      try reflexivity;
      try (exfalso; intuition congruence);
      try (intuition (subst; reflexivity)).
Qed.

Lemma forEach_processElement_prefix l s :
  trackedElements s `prefix_of` trackedElements (forEach l processElement s).
Proof.
  revert s. induction l as [|a l IH]; intros s; [reflexivity|].
  rewrite forEach_cons. etransitivity; [|apply IH].
  rewrite trackedElements_processElement. apply prefix_set_add.
Qed.

Lemma forEach_processElement_NoDup l s :
  NoDup (trackedElements s) -> NoDup (trackedElements (forEach l processElement s)).
Proof.
  revert s. induction l as [|a l IH]; intros s H; [exact H|].
  rewrite forEach_cons. apply IH. rewrite trackedElements_processElement.
  apply NoDup_set_add, H.
Qed.

Lemma forEach_processElement_gameView l s :
  gameView (forEach l processElement s) = gameView s.
Proof.
  revert s. induction l as [|a l IH]; intros s; [reflexivity|].
  rewrite forEach_cons, IH. apply gameView_processElement.
Qed.

(** One turn of the sweep. *)
Lemma sweepStep_stale e s :
  stale s e ->
  sweepStep e s =
  {| elements := <[e := untrackedForm (getElement s e)]> (elements s);
     trackedElements := set_delete e (trackedElements s);
     canvas := canvas s;
     gameView := gameView s |}.
Proof.
  intros [Ht Hm]. unfold sweepStep, marked in *.
  destruct (hasBlurClass _); [congruence|]. simpl.
  rewrite removeElement_tracked by exact Ht. reflexivity.
Qed.

Lemma sweepStep_fresh e s : ~ stale s e -> sweepStep e s = s.
Proof.
  intros H. unfold sweepStep, stale, marked in *.
  destruct (hasBlurClass _) eqn:Hb; [reflexivity|]. simpl.
  rewrite removeElement_untracked; [reflexivity|]. intros Ht. apply H. split; [exact Ht|congruence].
Qed.

Lemma sweepStep_tracked e s x :
  x ∈ trackedElements (sweepStep e s) <-> x ∈ trackedElements s /\ ~ (x = e /\ stale s e).
Proof.
  destruct (decide (stale s e)) as [H|H].
  - rewrite sweepStep_stale by exact H. simpl. rewrite elem_of_set_delete. tauto.
  - rewrite sweepStep_fresh by exact H. tauto.
Qed.

Lemma sweepStep_element e s x :
  getElement (sweepStep e s) x =
  if decide (x = e /\ stale s e) then untrackedForm (getElement s x) else getElement s x.
Proof.
  destruct (decide (stale s e)) as [H|H].
  - rewrite sweepStep_stale by exact H. rewrite getElement_insert.
    repeat case_decide; subst; try reflexivity; exfalso; tauto.
  - rewrite sweepStep_fresh by exact H. case_decide; [exfalso; tauto|reflexivity].
Qed.

Lemma sweepStep_marked e s x : marked (sweepStep e s) x <-> marked s x.
Proof.
  unfold marked. rewrite sweepStep_element. destruct (decide _); reflexivity.
Qed.

Lemma sweepStep_gameView e s : gameView (sweepStep e s) = gameView s.
Proof.
  destruct (decide (stale s e)) as [H|H].
  - rewrite sweepStep_stale by exact H. reflexivity.
  - rewrite sweepStep_fresh by exact H. reflexivity.
Qed.

(** The sweep drops the stale elements among those it visits. *)
Lemma sweep_tracked l s x :
  x ∈ trackedElements (forEach l sweepStep s) <->
  x ∈ trackedElements s /\ ~ (x ∈ l /\ stale s x).
Proof.
  revert s. induction l as [|a l IH]; intros s.
  - rewrite forEach_nil, elem_of_nil. tauto.
  - rewrite forEach_cons, IH. unfold stale at 1.
    rewrite sweepStep_marked, !sweepStep_tracked, elem_of_cons.
    unfold stale. split.
    + intros ([Ht Hn] & Hl). split; [exact Ht|]. intros [[->|Hin] [_ Hm]]; tauto.
    + intros [Ht Hn]. split; [split; [exact Ht|]|]; [intros [-> ?]|]; tauto.
Qed.

Lemma sweep_element l s x :
  getElement (forEach l sweepStep s) x =
  if decide (x ∈ l /\ stale s x) then untrackedForm (getElement s x) else getElement s x.
Proof.
  revert s. induction l as [|a l IH]; intros s.
  - rewrite forEach_nil. destruct (decide _) as [[H _]|]; [|reflexivity].
    apply elem_of_nil in H. destruct H.
  - rewrite forEach_cons, IH, !sweepStep_element.
    assert (Hs : stale (sweepStep a s) x <-> stale s x /\ ~ (x = a /\ stale s a)).
    { unfold stale at 1. rewrite sweepStep_marked, sweepStep_tracked. unfold stale. tauto. }
    repeat case_decide; rewrite ?Hs, ?elem_of_cons in *;
      try reflexivity;
      try (exfalso; intuition congruence);
      try (intuition (subst; reflexivity)).
Qed.

Lemma sweep_gameView l s : gameView (forEach l sweepStep s) = gameView s.
Proof.
  revert s. induction l as [|a l IH]; intros s; [reflexivity|].
  rewrite forEach_cons, IH. apply sweepStep_gameView.
Qed.

Lemma sweep_NoDup l s :
  NoDup (trackedElements s) -> NoDup (trackedElements (forEach l sweepStep s)).
Proof.
  revert s. induction l as [|a l IH]; intros s H; [exact H|].
  rewrite forEach_cons. apply IH.
  destruct (decide (stale s a)) as [Hs|Hs].
  - rewrite sweepStep_stale by exact Hs. simpl. apply NoDup_set_delete, H.
  - rewrite sweepStep_fresh by exact Hs. exact H.
Qed.

End LoopFacts.

Section ReconcileFacts.
Import JS Dom Blur Props.
Implicit Types (s : State) (h : Host) (e x : nat) (l : list nat).

Lemma elem_of_querySelectorAll s l x :
  x ∈ querySelectorAll s l <-> x ∈ l /\ marked s x.
Proof.
  unfold querySelectorAll, marked.
  rewrite list_elem_of_In, List.filter_In, <- list_elem_of_In, matchesSelector_hasBlurClass.
  reflexivity.
Qed.

Lemma processElement_initCanvas e s :
  processElement e (initCanvas s) = initCanvas (processElement e s).
Proof. unfold processElement, initCanvas. simpl. destruct (has _ _); reflexivity. Qed.

Lemma forEach_processElement_initCanvas l s :
  forEach l processElement (initCanvas s) = initCanvas (forEach l processElement s).
Proof.
  revert s. induction l as [|a l IH]; intros s; [reflexivity|].
  rewrite !forEach_cons, processElement_initCanvas. apply IH.
Qed.

(** [processAllElements] is the sweep followed by [processElement] on the
    elements the selector found; the rest is the canvas and the game view. *)
Lemma processAllElements_core h s :
  let glassElements := querySelectorAll s (elementsOf (document h)) in
  let swept := forEach (trackedElements s) sweepStep s in
  let final := forEach glassElements processElement swept in
  elements (processAllElements h s) = elements final /\
  trackedElements (processAllElements h s) = trackedElements final.
Proof.
  intros glassElements swept final. unfold processAllElements.
  change (forEach (trackedElements s) _ s) with swept.
  fold glassElements.
  destruct (0 <? length glassElements)%nat eqn:Hlen.
  - destruct (gameView swept) as [g|].
    + split; reflexivity.
    + rewrite forEach_processElement_initCanvas. fold final.
      destruct (createGameView _ _ _); split; reflexivity.
  - assert (glassElements = []) as Hnil.
    { destruct glassElements; [reflexivity|discriminate]. }
    subst final. rewrite Hnil, forEach_nil.
    destruct (gameView swept); split; reflexivity.
Qed.

Lemma getElement_core s s' x : elements s' = elements s -> getElement s' x = getElement s x.
Proof. unfold getElement. intros ->. reflexivity. Qed.

(** After a reconciliation the tracked elements are the formerly tracked ones
    that still carry the marker and the marked elements of the document. *)
Lemma processAllElements_tracked h s x :
  x ∈ trackedElements (processAllElements h s) <->
  (x ∈ trackedElements s \/ x ∈ elementsOf (document h)) /\ marked s x.
Proof.
  destruct (processAllElements_core h s) as [_ ->].
  rewrite forEach_processElement_tracked, sweep_tracked, elem_of_querySelectorAll.
  unfold stale, marked. destruct (hasBlurClass (getElement s x)); intuition congruence.
Qed.

(** What a reconciliation does to each element. *)
Lemma processAllElements_element h s x :
  getElement (processAllElements h s) x =
  if decide (stale s x) then untrackedForm (getElement s x)
  else if decide (x ∈ elementsOf (document h) /\ marked s x /\ x ∉ trackedElements s)
       then trackedForm (getElement s x)
       else getElement s x.
Proof.
  destruct (processAllElements_core h s) as [Hel _].
  rewrite (getElement_core _ _ _ Hel).
  rewrite forEach_processElement_element, sweep_element.
  pose proof (sweep_tracked (trackedElements s) s x) as Ht.
  pose proof (elem_of_querySelectorAll s (elementsOf (document h)) x) as Hq.
  unfold stale in *.
  repeat destruct (decide _) as [?|?]; try reflexivity; exfalso; tauto.
Qed.

Lemma processAllElements_NoDup h s :
  NoDup (trackedElements s) -> NoDup (trackedElements (processAllElements h s)).
Proof.
  intros H. destruct (processAllElements_core h s) as [_ ->].
  apply forEach_processElement_NoDup, sweep_NoDup, H.
Qed.

End ReconcileFacts.

Section ObserverFacts.
Import JS Dom Blur Props.
Implicit Types (s : State) (e x : nat) (l : list nat).

Lemma extends_refl s : extends s s.
Proof. split; [reflexivity|auto|reflexivity|reflexivity]. Qed.

Lemma extends_processElement s s' e :
  extends s s' -> marked s' e -> extends s (processElement e s').
Proof.
  intros [Hp Hm Hc Hk] He. split.
  - etransitivity; [exact Hp|]. rewrite trackedElements_processElement. apply prefix_set_add.
  - intros x. rewrite trackedElements_processElement, elem_of_set_add.
    intros [->|Hx]; [|auto]. right. unfold marked in *. rewrite <- Hc. exact He.
  - intros x. rewrite getElement_processElement. destruct (decide _) as [[-> _]|_]; [|apply Hc].
    rewrite hasBlurClass_trackedForm. apply Hc.
  - intros x Hx. rewrite getElement_processElement.
    destruct (decide _) as [[-> Hn]|_]; [|apply Hk, Hx].
    exfalso. apply Hn. eapply elem_of_prefix; eassumption.
Qed.

Lemma extends_forEach s s' l :
  extends s s' -> (forall e, e ∈ l -> marked s e) ->
  extends s (forEach l processElement s').
Proof.
  revert s'. induction l as [|a l IH]; intros s' Hext Hl; [exact Hext|].
  rewrite forEach_cons. apply IH.
  - apply extends_processElement; [exact Hext|].
    unfold marked. rewrite (extends_classes _ _ Hext). apply Hl, elem_of_cons. auto.
  - intros e He. apply Hl, elem_of_cons. auto.
Qed.

Lemma extends_querySelectorAll s s' l :
  extends s s' -> extends s (forEach (querySelectorAll s' l) processElement s').
Proof.
  intros Hext. apply extends_forEach; [exact Hext|].
  intros e He. apply elem_of_querySelectorAll in He as [_ He].
  unfold marked in *. rewrite <- (extends_classes _ _ Hext). exact He.
Qed.

Lemma extends_observeAdded s node (acc : State * bool) :
  extends s (fst acc) -> extends s (fst (observeAdded node acc)).
Proof.
  intros Hext. destruct node as [|element childNodes]; [exact Hext|].
  unfold observeAdded.
  set (acc1 := if hasBlurClass (getElement (fst acc) element)
               then (processElement element (fst acc), true) else acc).
  assert (Hext1 : extends s (fst acc1)).
  { subst acc1. destruct (hasBlurClass _) eqn:Hb; [|exact Hext].
    simpl. apply extends_processElement; assumption. }
  destruct (0 <? length _)%nat; [|exact Hext1].
  simpl. apply extends_querySelectorAll, Hext1.
Qed.

Lemma extends_observeMutation s mutation (acc : State * bool) :
  extends s (fst acc) -> extends s (fst (observeMutation mutation acc)).
Proof.
  intros Hext. unfold observeMutation.
  set (acc1 := forEach (addedNodes mutation) observeAdded acc).
  assert (Hext1 : extends s (fst acc1)).
  { subst acc1. apply (forEach_invariant (fun acc => extends s (fst acc))); [|exact Hext].
    intros node acc'. apply extends_observeAdded. }
  destruct (type mutation); try exact Hext1.
  destruct (attributeName mutation) as [name|]; [|exact Hext1].
  destruct (String.eqb name "class"); [|exact Hext1]. simpl.
  destruct (hasBlurClass _) eqn:Hb; [|exact Hext1].
  simpl. apply extends_processElement; assumption.
Qed.

Lemma extends_setGameView s s' g : extends s s' -> extends s (setGameView g s').
Proof. intros [Hp Hm Hc Hk]. split; assumption. Qed.

Lemma extends_observer mutations s : extends s (observer mutations s).
Proof.
  unfold observer.
  pose proof (forEach_invariant (fun acc : State * bool => extends s (fst acc))
                observeMutation mutations (s, false)
                (fun m acc => extends_observeMutation s m acc) (extends_refl s)) as H.
  destruct (forEach mutations observeMutation (s, false)) as [s' hasNew].
  simpl in H. destruct hasNew; [|exact H].
  destruct (gameView s'); [|exact H]. apply extends_setGameView, H.
Qed.

Lemma observer_NoDup mutations s :
  NoDup (trackedElements s) -> NoDup (trackedElements (observer mutations s)).
Proof.
  intros Hs. unfold observer.
  assert (H : NoDup (trackedElements
                       (fst (forEach mutations observeMutation (s, false))))).
  { apply (forEach_invariant (fun acc : State * bool => NoDup (trackedElements (fst acc))));
      [|exact Hs].
    intros m acc Hacc. unfold observeMutation.
    set (acc1 := forEach (addedNodes m) observeAdded acc).
    assert (H1 : NoDup (trackedElements (fst acc1))).
    { subst acc1.
      apply (forEach_invariant (fun acc : State * bool => NoDup (trackedElements (fst acc))));
        [|exact Hacc].
      intros node acc' Hacc'. destruct node as [|element childNodes]; [exact Hacc'|].
      unfold observeAdded.
      set (acc2 := if hasBlurClass _ then _ else _).
      assert (H2 : NoDup (trackedElements (fst acc2))).
      { subst acc2. destruct (hasBlurClass _); [|exact Hacc']. simpl.
        rewrite trackedElements_processElement. apply NoDup_set_add, Hacc'. }
      destruct (0 <? length _)%nat; [|exact H2].
      simpl. apply forEach_processElement_NoDup, H2. }
    destruct (type m); try exact H1.
    destruct (attributeName m); [|exact H1].
    destruct (_ && _); [|exact H1]. simpl.
    rewrite trackedElements_processElement. apply NoDup_set_add, H1. }
  destruct (forEach mutations observeMutation (s, false)) as [s' hasNew].
  simpl in H. destruct hasNew; [|exact H]. destruct (gameView s'); exact H.
Qed.

End ObserverFacts.

(* ===================================================================== *)
(** ** The claims about tracking *)
(* ===================================================================== *)

Section TrackingClaims.
Import JS Dom Blur Props.
Implicit Types (s : State) (h : Host) (e x : nat) (l : list nat).

Lemma step_tracked s ev x :
  x ∈ trackedElements (step s ev) -> x ∈ trackedElements s \/ marked s x.
Proof.
  destruct ev as [h|ms|els]; simpl.
  - rewrite processAllElements_tracked. unfold marked. tauto.
  - apply (extends_marked _ _ (extends_observer ms s)).
  - auto.
Qed.

Lemma step_NoDup s ev :
  NoDup (trackedElements s) -> NoDup (trackedElements (step s ev)).
Proof.
  destruct ev as [h|ms|els]; simpl.
  - apply processAllElements_NoDup.
  - apply observer_NoDup.
  - auto.
Qed.

Lemma run_snoc s evs ev : run s (evs ++ [ev]) = step (run s evs) ev.
Proof. unfold run. rewrite fold_left_app. reflexivity. Qed.

(** The tracked set never holds an element twice. *)
Lemma run_NoDup els evs : NoDup (trackedElements (run (initialState els) evs)).
Proof.
  induction evs as [|ev evs IH] using rev_ind.
  - apply NoDup_nil_2.
  - rewrite run_snoc. apply step_NoDup, IH.
Qed.

(** C1, as the code has it (no false positives).  In any run of the script
    from page load - reconciliations (the first scan and every later
    [processAllElements]), observer callbacks and edits by the page, in any
    order - an element none of whose class tokens ever contains [blured] is
    never in the tracked set. *)
Theorem no_false_positives (els : gmap nat Element) (evs : list Event) x :
  (forall n, ~ marked (run (initialState els) (take n evs)) x) ->
  x ∉ trackedElements (run (initialState els) evs).
Proof.
  induction evs as [|ev evs IH] using rev_ind; intros Hnever.
  - apply not_elem_of_nil.
  - rewrite run_snoc. intros Hin. apply step_tracked in Hin as [Hin|Hm].
    + revert Hin. apply IH. intros n.
      destruct (decide (n <= length evs)%nat) as [Hle|Hgt].
      * specialize (Hnever n). rewrite take_app_le in Hnever by exact Hle. exact Hnever.
      * specialize (Hnever (length evs)). rewrite take_app_le in Hnever by lia.
        rewrite take_ge by lia. rewrite take_ge in Hnever by lia. exact Hnever.
    + specialize (Hnever (length evs)). rewrite take_app_le in Hnever by lia.
      rewrite take_ge in Hnever by lia. contradiction.
Qed.

(** C1 as stated fails: the [span] of the sample page has the one class
    [unblured], which is neither [blured] nor [blured-<suffix>], before and
    after the first scan, and the first scan tracks it. *)
Lemma unblured_is_tracked :
  (forall n, carriesQualifyingMarker
               (getElement (run (initialState Sample.page)
                              (take n [Refresh Sample.host])) 3%nat) = false) /\
  3%nat ∈ trackedElements (run (initialState Sample.page) [Refresh Sample.host]).
Proof.
  split.
  - intros n. destruct n as [|n]; [vm_compute; reflexivity|].
    rewrite take_ge by (simpl; lia). vm_compute. reflexivity.
  - apply list_elem_of_In. vm_compute. tauto.
Qed.

(** C8 (the observer only adds).  Whatever the batch - class-attribute
    records of elements that lost the marker included - the tracked set
    before the callback is a prefix of the tracked set after it, and every
    element tracked before is tracked after, unchanged (its stored strength
    too). *)
Theorem observer_only_grows (mutations : list MutationRecord) s :
  trackedElements s `prefix_of` trackedElements (observer mutations s) /\
  forall x, x ∈ trackedElements s ->
    x ∈ trackedElements (observer mutations s) /\
    getElement (observer mutations s) x = getElement s x.
Proof.
  pose proof (extends_observer mutations s) as [Hp _ _ Hk].
  split; [exact Hp|]. intros x Hx. split; [|apply Hk, Hx].
  eapply elem_of_prefix; eassumption.
Qed.

(** C6 (idempotence of [processElement]).  With the page free to give the
    element another class list between the two calls: the second call
    changes nothing, the element is in the tracked set exactly once, and its
    stored strength is the one the first call left - for an element that was
    not tracked, the strength read off its class list at the first call. *)
Theorem processElement_idempotent s e (classes : list string) :
  NoDup (trackedElements s) ->
  let s1 := processElement e s in
  let between :=
    setElement e {| classList := classes; dataset := dataset (getElement s1 e) |} s1 in
  let s2 := processElement e between in
  processElement e s1 = s1 /\
  s2 = between /\
  trackedElements s2 = trackedElements s1 /\
  count_occ Nat.eq_dec (trackedElements s2) e = 1%nat /\
  storedStrength s2 e = storedStrength s1 e /\
  (e ∉ trackedElements s ->
   storedStrength s2 e = Some (toString (blurStrengthOf (classList (getElement s e))))).
Proof.
  intros Hnd s1 between s2.
  assert (Hin : e ∈ trackedElements s1).
  { subst s1. rewrite trackedElements_processElement, elem_of_set_add. auto. }
  assert (Hs2 : s2 = between).
  { subst s2. apply processElement_tracked. exact Hin. }
  assert (Hstored : storedStrength between e = storedStrength s1 e).
  { unfold storedStrength, between, setElement. rewrite getElement_insert.
    rewrite decide_True by reflexivity. reflexivity. }
  split; [apply processElement_tracked, Hin|].
  split; [exact Hs2|]. rewrite Hs2.
  split; [reflexivity|]. split; [|split; [exact Hstored|]].
  - assert (Hnd1 : NoDup (trackedElements s1)).
    { subst s1. rewrite trackedElements_processElement. apply NoDup_set_add, Hnd. }
    change (trackedElements between) with (trackedElements s1).
    apply list_elem_of_In in Hin.
    pose proof (proj1 (count_occ_In Nat.eq_dec _ _) Hin).
    apply NoDup_ListNoDup in Hnd1.
    pose proof (proj1 (NoDup_count_occ Nat.eq_dec _) Hnd1 e). lia.
  - intros Hnot. rewrite Hstored. unfold storedStrength. subst s1.
    rewrite getElement_processElement, decide_True by auto.
    unfold trackedForm. simpl. rewrite lookup_insert_eq, blurStrengthOf_relative.
    reflexivity.
Qed.

(** C7 (removal).  [removeElement] returns [false] and changes nothing for
    an element that is not tracked; for a tracked one it returns [true],
    takes the element out of the set and deletes its stored strength, and
    touches nothing else.  So a tracked element none of whose class tokens
    contains [blured] any more is, after the next [processAllElements],
    out of the set and without a stored strength; a tracked element one of
    whose class tokens still contains [blured] stays in the set, as it
    was. *)
Theorem removal_correct s h e :
  (e ∉ trackedElements s -> removeElement e s = (false, s)) /\
  (e ∈ trackedElements s ->
   fst (removeElement e s) = true /\
   (e ∉ trackedElements (snd (removeElement e s))) /\
   storedStrength (snd (removeElement e s)) e = None /\
   classList (getElement (snd (removeElement e s)) e) = classList (getElement s e) /\
   forall x, x <> e ->
     (x ∈ trackedElements (snd (removeElement e s)) <-> x ∈ trackedElements s) /\
     getElement (snd (removeElement e s)) x = getElement s x) /\
  (e ∈ trackedElements s -> ~ marked s e ->
   (e ∉ trackedElements (processAllElements h s)) /\
   storedStrength (processAllElements h s) e = None) /\
  (e ∈ trackedElements s -> marked s e ->
   e ∈ trackedElements (processAllElements h s) /\
   getElement (processAllElements h s) e = getElement s e).
Proof.
  split; [apply removeElement_untracked|]. split; [|split].
  - intros Hin. rewrite removeElement_tracked by exact Hin. simpl.
    split; [reflexivity|]. split; [|split; [|split]].
    + rewrite elem_of_set_delete. tauto.
    + unfold storedStrength. rewrite getElement_insert, decide_True by reflexivity.
      simpl. apply lookup_delete_eq.
    + rewrite getElement_insert, decide_True by reflexivity. reflexivity.
    + intros x Hne. rewrite elem_of_set_delete, getElement_insert, decide_False by exact Hne.
      split; [tauto|reflexivity].
  - intros Hin Hm. split.
    + rewrite processAllElements_tracked. tauto.
    + unfold storedStrength. rewrite processAllElements_element.
      rewrite decide_True by (split; assumption). simpl. apply lookup_delete_eq.
  - intros Hin Hm. split.
    + rewrite processAllElements_tracked. tauto.
    + rewrite processAllElements_element.
      rewrite decide_False by (unfold stale; tauto).
      rewrite decide_False by tauto. reflexivity.
Qed.

(** C7 as stated fails: the [div] of the sample page is tracked with 7.5
    stored, and the page then leaves it with the classes [panel], [unblured]
    and [relative] - no token [blured], none of the form [blured-<suffix>].
    The next [processAllElements] keeps it in the set, its strength still
    stored. *)
Lemma renamed_marker_stays_tracked :
  let s := run (initialState Sample.page)
             [Refresh Sample.host; PageScript Sample2.renamed] in
  2%nat ∈ trackedElements s /\
  classList (getElement s 2%nat) = ["panel"; "unblured"; "relative"] /\
  carriesQualifyingMarker (getElement s 2%nat) = false /\
  2%nat ∈ trackedElements (processAllElements Sample.host s) /\
  storedStrength (processAllElements Sample.host s) 2%nat = Some "7.5".
Proof.
  cbv zeta. split; [apply list_elem_of_In; vm_compute; tauto|].
  split; [vm_compute; reflexivity|]. split; [vm_compute; reflexivity|].
  split; [apply list_elem_of_In; vm_compute; tauto|vm_compute; reflexivity].
Qed.

(** C9 (what tracking writes).  Tracking an element that was not tracked
    sets its stored strength, puts it at the end of the tracked set, and adds
    the class [relative] to its class list (which stays as it is when the
    class is there already); the other classes, the other [dataset] entries
    and the other elements stay as they were. *)
Theorem processElement_effects s e :
  e ∉ trackedElements s ->
  let s' := processElement e s in
  let before := getElement s e in
  let after := getElement s' e in
  trackedElements s' = trackedElements s ++ [e] /\
  classList after =
    (if bool_decide ("relative" ∈ classList before) then classList before
     else classList before ++ ["relative"]) /\
  "relative" ∈ classList after /\
  (forall c, c ∈ classList after <-> c = "relative" \/ c ∈ classList before) /\
  dataset after !! "blurStrength" =
    Some (toString (blurStrengthOf (classList before))) /\
  (forall key, key <> "blurStrength" -> dataset after !! key = dataset before !! key) /\
  (forall x, x <> e -> getElement s' x = getElement s x) /\
  canvas s' = canvas s /\ gameView s' = gameView s.
Proof.
  intros Hnot s' before after.
  assert (Hafter : after = trackedForm before).
  { subst after s'. rewrite getElement_processElement, decide_True by auto. reflexivity. }
  assert (Hcl : forall c, c ∈ classList after <-> c = "relative" \/ c ∈ classList before).
  { intros c. rewrite Hafter. unfold trackedForm, classList_add. simpl.
    case_bool_decide as Hr.
    - split; [auto|]. intros [->|?]; assumption.
    - rewrite elem_of_app, list_elem_of_singleton. tauto. }
  split; [|split; [|split; [|split; [|split; [|split; [|split; [|split]]]]]]].
  - subst s'. rewrite trackedElements_processElement. apply set_add_untracked, Hnot.
  - rewrite Hafter. reflexivity.
  - apply Hcl. auto.
  - exact Hcl.
  - rewrite Hafter. unfold trackedForm. simpl.
    rewrite lookup_insert_eq, blurStrengthOf_relative. reflexivity.
  - intros key Hkey. rewrite Hafter. unfold trackedForm. simpl.
    apply lookup_insert_ne. congruence.
  - intros x Hne. subst s'. rewrite getElement_processElement.
    rewrite decide_False by tauto. reflexivity.
  - apply canvas_processElement.
  - apply gameView_processElement.
Qed.

End TrackingClaims.

(* ===================================================================== *)
(** ** What the arithmetic computes *)
(* ===================================================================== *)

Section NumberFacts.
Import JS More.

Lemma pow10_spec (k : nat) : Z.pos (pow10 k) = 10 ^ Z.of_nat k.
Proof. unfold pow10. apply Z2Pos.id. apply Z.pow_pos_nonneg; lia. Qed.

Lemma pow10_S (k : nat) : Z.pos (pow10 (S k)) = 10 * Z.pos (pow10 k).
Proof. rewrite !pow10_spec, Nat2Z.inj_succ, Z.pow_succ_r by lia. reflexivity. Qed.

Lemma pow10_add (j k : nat) : Z.pos (pow10 (j + k)) = Z.pos (pow10 j) * Z.pos (pow10 k).
Proof. rewrite !pow10_spec, Nat2Z.inj_add, Z.pow_add_r by lia. reflexivity. Qed.

Lemma norm_value (m : Z) (k : nat) :
  (fst (norm m k) # pow10 (snd (norm m k)) == m # pow10 k)%Q.
Proof.
  revert m. induction k as [|k IH]; intros m; simpl; [reflexivity|].
  destruct (m mod 10 =? 0) eqn:Hm; [|reflexivity].
  apply Z.eqb_eq in Hm. rewrite IH.
  unfold Qeq. cbn [Qnum Qden]. rewrite pow10_S.
  pose proof (Z.div_mod m 10 ltac:(lia)). nia.
Qed.

Lemma represents_mkFinite (m : Z) (k : nat) : represents (mkFinite m k) (m # pow10 k).
Proof.
  unfold mkFinite. pose proof (norm_value m k) as H.
  destruct (norm m k) as [m' k']. exists m', k'. split; [reflexivity|exact H].
Qed.

Lemma represents_ofZ (n : Z) : represents (ofZ n) (inject_Z n).
Proof. exists n, O. split; reflexivity. Qed.

Lemma represents_proper (x : JSNumber) (p q : Q) :
  (p == q)%Q -> represents x p -> represents x q.
Proof. intros Hpq (m & k & -> & H). exists m, k. split; [reflexivity|]. rewrite H. exact Hpq. Qed.

Lemma represents_unique (x : JSNumber) (p q : Q) :
  represents x p -> represents x q -> (p == q)%Q.
Proof.
  intros (m & k & -> & H) (m' & k' & [= <- <-] & H'). rewrite <- H, <- H'. reflexivity.
Qed.

Lemma represents_neg (x : JSNumber) (p : Q) : represents x p -> represents (neg x) (- p).
Proof.
  intros (m & k & -> & H). exists (- m), k. split; [reflexivity|].
  rewrite <- H. reflexivity.
Qed.

Lemma represents_exactProduct (x y : JSNumber) (p q : Q) :
  represents x p -> represents y q -> represents (exactProduct x y) (p * q).
Proof.
  intros (m1 & k1 & -> & H1) (m2 & k2 & -> & H2). simpl.
  eapply represents_proper; [|apply represents_mkFinite].
  rewrite <- H1, <- H2. unfold Qeq, Qmult. cbn [Qnum Qden].
  rewrite Pos2Z.inj_mul, pow10_add. reflexivity.
Qed.

Lemma align_left (m : Z) (j k : nat) :
  (j <= k)%nat -> (m * 10 ^ Z.of_nat (k - j) # pow10 k == m # pow10 j)%Q.
Proof.
  intros Hjk. unfold Qeq. cbn [Qnum Qden].
  rewrite !pow10_spec.
  assert (E : 10 ^ Z.of_nat k = 10 ^ Z.of_nat (k - j) * 10 ^ Z.of_nat j).
  { rewrite <- Z.pow_add_r by lia. f_equal. lia. }
  rewrite E. ring.
Qed.

Lemma represents_exactSum (x y : JSNumber) (p q : Q) :
  represents x p -> represents y q -> represents (exactSum x y) (p + q).
Proof.
  intros (m1 & k1 & -> & H1) (m2 & k2 & -> & H2). simpl.
  eapply represents_proper; [|apply represents_mkFinite].
  rewrite <- H1, <- H2.
  rewrite <- (align_left m1 k1 (Nat.max k1 k2)) by lia.
  rewrite <- (align_left m2 k2 (Nat.max k1 k2)) by lia.
  unfold Qeq, Qplus. cbn [Qnum Qden]. rewrite Pos2Z.inj_mul. ring.
Qed.

(** [Math.floor] and [Math.ceil] are the floor and the ceiling. *)
Lemma floor_represents (x : JSNumber) (p : Q) : represents x p -> floor x = ofZ (Qfloor p).
Proof.
  intros (m & k & -> & H). rewrite <- H. simpl. rewrite pow10_spec. reflexivity.
Qed.

Lemma ceil_represents (x : JSNumber) (p : Q) : represents x p -> ceil x = ofZ (Qceiling p).
Proof.
  intros (m & k & -> & H). rewrite <- H. unfold Qceiling. simpl. rewrite pow10_spec.
  reflexivity.
Qed.

Lemma isZero_represents (x : JSNumber) (p : Q) :
  represents x p -> (isZero x = true <-> (p == 0)%Q).
Proof.
  intros (m & k & -> & H). simpl. rewrite Z.eqb_eq, <- H.
  unfold Qeq. cbn [Qnum Qden]. lia.
Qed.

Lemma ge_represents (x y : JSNumber) (p q : Q) :
  represents x p -> represents y q -> (ge x y = true <-> (q <= p)%Q).
Proof.
  intros (m1 & k1 & -> & H1) (m2 & k2 & -> & H2). simpl.
  rewrite Z.leb_le, <- H1, <- H2.
  rewrite <- (align_left m1 k1 (Nat.max k1 k2)) by lia.
  rewrite <- (align_left m2 k2 (Nat.max k1 k2)) by lia.
  unfold Qle. cbn [Qnum Qden]. nia.
Qed.

(** *** Canonical forms *)

Lemma norm_snd_le (m : Z) (k : nat) : (snd (norm m k) <= k)%nat.
Proof.
  revert m. induction k as [|k IH]; intros m; cbn [norm]; [reflexivity|].
  destruct (m mod 10 =? 0); [|reflexivity]. specialize (IH (m / 10)). lia.
Qed.

Lemma norm_fixed (m : Z) (k : nat) : norm m k = (m, k) <-> k = 0%nat \/ m mod 10 <> 0.
Proof.
  destruct k as [|k]; [split; [auto|reflexivity]|].
  cbn [norm]. destruct (m mod 10 =? 0) eqn:Hm.
  - apply Z.eqb_eq in Hm. split.
    + intros H. pose proof (norm_snd_le (m / 10) k) as Hle. rewrite H in Hle.
      cbn [snd] in Hle. lia.
    + intros [H|H]; [discriminate|contradiction].
  - apply Z.eqb_neq in Hm. split; [auto|reflexivity].
Qed.

Lemma norm_idempotent (m : Z) (k : nat) :
  norm (fst (norm m k)) (snd (norm m k)) = norm m k.
Proof.
  revert m. induction k as [|k IH]; intros m; cbn [norm]; [reflexivity|].
  destruct (m mod 10 =? 0) eqn:Hm; [apply IH|].
  cbn [fst snd norm]. rewrite Hm. reflexivity.
Qed.

Lemma canonical_mkFinite (m : Z) (k : nat) : canonical (mkFinite m k).
Proof.
  unfold mkFinite. pose proof (norm_idempotent m k) as H.
  destruct (norm m k) as [m' k']. exact H.
Qed.

Lemma canonical_decimal (m x : Z) : canonical (decimal m x).
Proof.
  unfold decimal. destruct (0 <=? x); [reflexivity|apply canonical_mkFinite].
Qed.

Lemma canonical_neg (x : JSNumber) : canonical x -> canonical (neg x).
Proof.
  destruct x as [| |m k]; try exact (fun H => H).
  cbn [canonical neg]. rewrite !norm_fixed. intros [H|H]; [auto|right].
  intros Hm. apply H. apply Z.mod_divide in Hm; [|lia]. apply Z.mod_divide; [lia|].
  apply Z.divide_opp_r in Hm. rewrite Z.opp_involutive in Hm. exact Hm.
Qed.

(** Two numbers in canonical form that stand for the same rational are the
    same. *)
Lemma canonical_unique (x y : JSNumber) (q : Q) :
  canonical x -> canonical y -> represents x q -> represents y q -> x = y.
Proof.
  intros Hx Hy (m1 & k1 & -> & H1) (m2 & k2 & -> & H2).
  cbn [canonical] in Hx, Hy. apply norm_fixed in Hx, Hy.
  rewrite <- H2 in H1. unfold Qeq in H1. cbn [Qnum Qden] in H1.
  rewrite !pow10_spec in H1.
  assert (Hcase : forall a j b k, (j < k)%nat -> a * 10 ^ Z.of_nat k = b * 10 ^ Z.of_nat j ->
                    b mod 10 = 0).
  { intros a j b k Hjk E.
    replace (Z.of_nat k) with (Z.of_nat (k - j - 1) + 1 + Z.of_nat j) in E by lia.
    rewrite !Z.pow_add_r in E by lia.
    assert (Hp : 0 < 10 ^ Z.of_nat j) by (apply Z.pow_pos_nonneg; lia).
    assert (Eb : b = a * 10 ^ Z.of_nat (k - j - 1) * 10) by nia.
    rewrite Eb. apply Z.mod_mul. lia. }
  destruct (Nat.lt_trichotomy k1 k2) as [Hlt|[Heq|Hgt]].
  - pose proof (Hcase m1 k1 m2 k2 Hlt H1) as Hm. destruct Hy as [Hy|Hy]; [lia|contradiction].
  - subst k2. f_equal.
    assert (Hp : 0 < 10 ^ Z.of_nat k1) by (apply Z.pow_pos_nonneg; lia). nia.
  - symmetry in H1. pose proof (Hcase m2 k2 m1 k1 Hgt H1) as Hm.
    destruct Hx as [Hx|Hx]; [lia|contradiction].
Qed.

(** *** Rounding to binary64 *)

Lemma roundHalfEven_exact (q d : Z) : 0 < d -> roundHalfEven (q * d) d = q.
Proof.
  intros Hd. unfold roundHalfEven. rewrite Z.mod_mul, Z.div_mul by lia.
  change (2 * 0) with 0. destruct (Z.compare_spec 0 d); lia.
Qed.

Lemma roundHalfEven_bounds (n d : Z) :
  0 < d -> n / d <= roundHalfEven n d <= n / d + 1.
Proof.
  intros Hd. unfold roundHalfEven.
  destruct (2 * (n mod d) ?= d); [destruct (Z.even (n / d))| |]; lia.
Qed.

Lemma represents_dyadic (M E : Z) :
  0 <= E -> represents (dyadic M E) (M * 2 ^ E # Z.to_pos (2 ^ 1074)).
Proof.
  intros HE. unfold dyadic. destruct (1074 <=? E) eqn:Hc.
  - apply Z.leb_le in Hc. exists (M * 2 ^ (E - 1074)), 0%nat. split; [reflexivity|].
    unfold Qeq. cbn [Qnum Qden]. change (Z.pos (pow10 0)) with 1.
    rewrite Z2Pos.id by (apply Z.pow_pos_nonneg; lia).
    replace E with ((E - 1074) + 1074) at 2 by lia.
    rewrite (Z.pow_add_r 2 (E - 1074) 1074) by lia. ring.
  - apply Z.leb_gt in Hc. eapply represents_proper; [|apply represents_mkFinite].
    unfold Qeq. cbn [Qnum Qden]. rewrite pow10_spec, Z2Nat.id by lia.
    rewrite Z2Pos.id by (apply Z.pow_pos_nonneg; lia).
    replace 1074 with ((1074 - E) + E) at 2 by lia.
    rewrite (Z.pow_add_r 2 (1074 - E) E) by lia.
    replace (10 ^ (1074 - E)) with (2 ^ (1074 - E) * 5 ^ (1074 - E))
      by (rewrite <- Z.pow_mul_l; reflexivity).
    ring.
Qed.

Lemma canonical_dyadic (M E : Z) : canonical (dyadic M E).
Proof. unfold dyadic. destruct (1074 <=? E); [reflexivity|apply canonical_mkFinite]. Qed.

(** A ratio that is a binary64 number - [N * 2^F * 2^-1074] with [N] below
    [2^53] - is its own nearest binary64 number. *)
Lemma nearest64_exact (a b N F : Z) :
  0 < a -> 0 < b -> 0 < N < 2 ^ 53 -> 0 <= F ->
  a * 2 ^ 1074 = N * 2 ^ F * b ->
  let E := Z.max 0 (Z.log2 N + F - 52) in
  E <= F /\ nearest64 a b = (N * 2 ^ (F - E), E).
Proof.
  intros Ha Hb HN HF Hab E.
  assert (HlogN : Z.log2 N <= 52).
  { assert (Z.log2 N < 53); [|lia]. apply Z.log2_lt_pow2; lia. }
  assert (HE : E <= F) by (unfold E; lia).
  split; [exact HE|].
  assert (Hq : a * 2 ^ 1022 / b = Z.shiftr (N * 2 ^ F) 52).
  { rewrite Z.shiftr_div_pow2 by lia.
    rewrite <- (Z.div_mul_cancel_r (a * 2 ^ 1022) b (2 ^ 52)) by lia.
    replace (a * 2 ^ 1022 * 2 ^ 52) with (N * 2 ^ F * b).
    - rewrite (Z.mul_comm b), Z.div_mul_cancel_r by lia. reflexivity.
    - rewrite <- Hab. change (2 ^ 1074) with (2 ^ 1022 * 2 ^ 52). ring. }
  unfold nearest64. rewrite Hq.
  assert (HNF : 0 < N * 2 ^ F) by (apply Z.mul_pos_pos; [lia|apply Z.pow_pos_nonneg; lia]).
  rewrite Z.log2_shiftr by exact HNF.
  rewrite Z.log2_mul_pow2 by lia.
  replace (Z.max 0 (F + Z.log2 N - 52)) with E by (unfold E; lia).
  f_equal. rewrite Hab.
  replace (N * 2 ^ F * b) with (N * 2 ^ (F - E) * (b * 2 ^ E)).
  - apply roundHalfEven_exact. apply Z.mul_pos_pos; [lia|apply Z.pow_pos_nonneg; unfold E; lia].
  - replace F with ((F - E) + E) at 2 by lia.
    rewrite (Z.pow_add_r 2 (F - E) E) by (unfold E; lia). ring.
Qed.

(** [round64] leaves a binary64 number as it is. *)
Lemma round64_exact (x : JSNumber) (N F : Z) :
  canonical x -> 0 < N < 2 ^ 53 -> 0 <= F -> Z.log2 N + F <= 2097 ->
  represents x (N * 2 ^ F # Z.to_pos (2 ^ 1074)) ->
  round64 x = x.
Proof.
  intros Hc HN HF Hmax Hx.
  pose proof Hx as (m & k & -> & Hv).
  unfold Qeq in Hv. cbn [Qnum Qden] in Hv. rewrite pow10_spec in Hv.
  rewrite Z2Pos.id in Hv by (apply Z.pow_pos_nonneg; lia).
  assert (Hp10 : 0 < 10 ^ Z.of_nat k) by (apply Z.pow_pos_nonneg; lia).
  assert (HNF : 0 < N * 2 ^ F) by (apply Z.mul_pos_pos; [lia|apply Z.pow_pos_nonneg; lia]).
  assert (Hm : 0 < m) by nia.
  destruct m as [|p|p]; try lia.
  cbn [round64]. unfold roundPositive.
  destruct (nearest64_exact (Z.pos p) (10 ^ Z.of_nat k) N F) as [HE Hn]; try lia.
  rewrite Hn. set (E := Z.max 0 (Z.log2 N + F - 52)) in *.
  assert (HM : N * 2 ^ (F - E) < 2 ^ 53).
  { apply Z.log2_lt_pow2.
    - apply Z.mul_pos_pos; [lia|apply Z.pow_pos_nonneg; lia].
    - rewrite Z.log2_mul_pow2 by lia. unfold E. lia. }
  replace ((2045 <? E) || (E =? 2045) && (N * 2 ^ (F - E) =? 2 ^ 53)) with false.
  - apply (canonical_unique _ _ (N * 2 ^ F # Z.to_pos (2 ^ 1074)));
      [apply canonical_dyadic|exact Hc| |exact Hx].
    eapply represents_proper; [|apply represents_dyadic; unfold E; lia].
    unfold Qeq. cbn [Qnum Qden]. f_equal.
    replace F with ((F - E) + E) at 2 by lia.
    rewrite (Z.pow_add_r 2 (F - E) E) by (unfold E; lia). ring.
  - symmetry. apply orb_false_iff. split.
    + apply Z.ltb_ge. unfold E. lia.
    + apply andb_false_iff. right. apply Z.eqb_neq. lia.
Qed.

(** Whole numbers below [2^53] are binary64 numbers, and so are their halves. *)
Lemma represents_ofZ_scaled (z : Z) :
  represents (ofZ z) (z * 2 ^ 1074 # Z.to_pos (2 ^ 1074)).
Proof.
  exists z, 0%nat. split; [reflexivity|].
  unfold Qeq. cbn [Qnum Qden]. change (Z.pos (pow10 0)) with 1.
  rewrite Z2Pos.id by (apply Z.pow_pos_nonneg; lia). ring.
Qed.

Lemma round64_ofZ (z : Z) : Z.abs z < 2 ^ 53 -> round64 (ofZ z) = ofZ z.
Proof.
  intros Hz.
  assert (Hpos : forall p, Z.pos p < 2 ^ 53 -> round64 (ofZ (Z.pos p)) = ofZ (Z.pos p)).
  { intros p Hp. apply (round64_exact _ (Z.pos p) 1074); try lia;
      [reflexivity| |apply represents_ofZ_scaled].
    assert (Z.log2 (Z.pos p) < 53) by (apply Z.log2_lt_pow2; lia). lia. }
  destruct z as [|p|p]; [reflexivity|apply Hpos; lia|].
  change (round64 (ofZ (Z.neg p))) with (neg (round64 (ofZ (Z.pos p)))).
  rewrite Hpos by lia. reflexivity.
Qed.

Lemma add_ofZ (a b : Z) : Z.abs (a + b) < 2 ^ 53 -> add (ofZ a) (ofZ b) = ofZ (a + b).
Proof.
  intros H. unfold add.
  replace (exactSum (ofZ a) (ofZ b)) with (ofZ (a + b)); [apply round64_ofZ, H|].
  unfold ofZ, exactSum, align, mkFinite. simpl. f_equal. lia.
Qed.

Lemma sub_ofZ (a b : Z) : Z.abs (a - b) < 2 ^ 53 -> sub (ofZ a) (ofZ b) = ofZ (a - b).
Proof.
  intros H. unfold sub. change (neg (ofZ b)) with (ofZ (- b)). apply add_ofZ, H.
Qed.

Lemma half_ofZ (z : Z) :
  0 < z < 2 ^ 53 -> half (ofZ z) = mkFinite (5 * z) 1 /\ isZero (half (ofZ z)) = false.
Proof.
  intros Hz. unfold half.
  assert (Hp : exactProduct (ofZ z) (Finite 5 1) = mkFinite (5 * z) 1).
  { unfold ofZ, exactProduct. f_equal. lia. }
  rewrite Hp.
  assert (Hr : round64 (mkFinite (5 * z) 1) = mkFinite (5 * z) 1).
  { apply (round64_exact _ z 1073); try lia; [apply canonical_mkFinite| |].
    - assert (Z.log2 z < 53) by (apply Z.log2_lt_pow2; lia). lia.
    - eapply represents_proper; [|apply represents_mkFinite].
      unfold Qeq. cbn [Qnum Qden]. change (2 ^ 1074) with (2 ^ 1073 * 2).
      change (Z.pos (pow10 1)) with 10.
      rewrite Z2Pos.id by (apply Z.mul_pos_pos; [apply Z.pow_pos_nonneg|]; lia). ring. }
  rewrite Hr. split; [reflexivity|].
  apply not_true_is_false. intros Hzero.
  apply (isZero_represents _ _ (represents_mkFinite _ _)) in Hzero.
  unfold Qeq in Hzero. cbn [Qnum Qden] in Hzero. lia.
Qed.

Lemma mul_buffer : mul Blur.buffer (ofZ 2) = ofZ 2.
Proof. vm_compute. reflexivity. Qed.

(** Rounding keeps a number from [2^i] on - [1], [2], ... - at or above it. *)
Lemma roundPositive_lower (a b i : Z) :
  0 < a -> 0 < b -> 0 <= i -> b * 2 ^ i <= a ->
  roundPositive a b = Infinity false \/
  exists M E, roundPositive a b = dyadic M E /\ 0 <= E /\ 2 ^ (i + 1074) <= M * 2 ^ E.
Proof.
  intros Ha Hb Hi Hab. unfold roundPositive, nearest64.
  set (q0 := a * 2 ^ 1022 / b). set (E := Z.log2 q0).
  destruct ((2045 <? E) || _); [left; reflexivity|right].
  assert (Hp : 0 < 2 ^ i) by (apply Z.pow_pos_nonneg; lia).
  assert (Hq0 : 2 ^ (i + 1022) <= q0).
  { unfold q0. apply Z.div_le_lower_bound; [lia|].
    rewrite Z.pow_add_r by lia. nia. }
  assert (Hq0pos : 0 < q0).
  { assert (0 < 2 ^ (i + 1022)) by (apply Z.pow_pos_nonneg; lia). lia. }
  assert (HE : i + 1022 <= E).
  { unfold E. rewrite <- (Z.log2_pow2 (i + 1022)) by lia. apply Z.log2_le_mono, Hq0. }
  destruct (Z.log2_spec q0 Hq0pos) as [Hlo _]. fold E in Hlo.
  assert (HbE : b * 2 ^ E <= a * 2 ^ 1022).
  { pose proof (Z.mul_div_le (a * 2 ^ 1022) b Hb) as Hd. fold q0 in Hd. nia. }
  assert (HpE : 0 < 2 ^ E) by (apply Z.pow_pos_nonneg; lia).
  eexists _, E. split; [reflexivity|]. split; [lia|].
  pose proof (roundHalfEven_bounds (a * 2 ^ 1074) (b * 2 ^ E) ltac:(nia)) as [HM _].
  assert (Hdiv : 2 ^ 52 <= a * 2 ^ 1074 / (b * 2 ^ E)).
  { apply Z.div_le_lower_bound; [nia|].
    change (2 ^ 1074) with (2 ^ 1022 * 2 ^ 52). nia. }
  set (M := roundHalfEven _ _) in *.
  replace (i + 1074) with (52 + (i + 1022)) by lia.
  rewrite Z.pow_add_r by lia.
  assert (2 ^ (i + 1022) <= 2 ^ E) by (apply Z.pow_le_mono_r; lia).
  assert (0 < 2 ^ (i + 1022)) by (apply Z.pow_pos_nonneg; lia).
  nia.
Qed.

Lemma round64_lower (x : JSNumber) (q : Q) (i : Z) :
  0 <= i -> represents x q -> (inject_Z (2 ^ i) <= q)%Q ->
  round64 x = Infinity false \/
  exists q', represents (round64 x) q' /\ (inject_Z (2 ^ i) <= q')%Q.
Proof.
  intros Hi (m & k & -> & Hv) Hq. rewrite <- Hv in Hq.
  unfold Qle in Hq. cbn [Qnum Qden inject_Z] in Hq. rewrite pow10_spec in Hq.
  assert (Hp : 0 < 2 ^ i) by (apply Z.pow_pos_nonneg; lia).
  assert (Hp10 : 0 < 10 ^ Z.of_nat k) by (apply Z.pow_pos_nonneg; lia).
  destruct m as [|p|p]; try nia.
  cbn [round64].
  destruct (roundPositive_lower (Z.pos p) (10 ^ Z.of_nat k) i) as [->|(M & E & -> & HE & HM)];
    try lia; [left; reflexivity|right].
  exists (M * 2 ^ E # Z.to_pos (2 ^ 1074))%Q. split; [apply represents_dyadic, HE|].
  unfold Qle. cbn [Qnum Qden inject_Z].
  rewrite Z2Pos.id by (apply Z.pow_pos_nonneg; lia).
  rewrite Z.pow_add_r in HM by lia. lia.
Qed.

(** Rounding keeps the sign. *)
Lemma round64_nonneg (x : JSNumber) (q : Q) :
  represents x q -> (0 <= q)%Q ->
  round64 x = Infinity false \/ exists q', represents (round64 x) q' /\ (0 <= q')%Q.
Proof.
  intros (m & k & -> & Hv) Hq. rewrite <- Hv in Hq.
  unfold Qle in Hq. cbn [Qnum Qden] in Hq.
  destruct m as [|p|p]; try lia.
  - right. exists 0%Q. split; [|apply Qle_refl]. exists 0, 0%nat. split; reflexivity.
  - cbn [round64]. unfold roundPositive, nearest64.
    set (E := Z.log2 _). set (M := roundHalfEven _ _).
    destruct ((2045 <? E) || _); [left; reflexivity|right].
    assert (HE : 0 <= E) by apply Z.log2_nonneg.
    exists (M * 2 ^ E # Z.to_pos (2 ^ 1074))%Q. split; [apply represents_dyadic, HE|].
    assert (HM : 0 <= M).
    { unfold M. set (d := 10 ^ Z.of_nat k * 2 ^ E).
      assert (Hd : 0 < d).
      { unfold d. apply Z.mul_pos_pos; apply Z.pow_pos_nonneg; lia. }
      pose proof (roundHalfEven_bounds (Z.pos p * 2 ^ 1074) d Hd) as [Hlo _].
      assert (0 <= Z.pos p * 2 ^ 1074 / d); [|lia].
      apply Z.div_pos; [|exact Hd]. apply Z.mul_nonneg_nonneg; [lia|].
      apply Z.pow_nonneg. lia. }
    assert (Hprod : 0 <= M * 2 ^ E).
    { apply Z.mul_nonneg_nonneg; [exact HM|apply Z.pow_nonneg; lia]. }
    unfold Qle. cbn [Qnum Qden]. lia.
Qed.

(** *** The results of [round64] are binary64 numbers *)

Lemma norm_zero (k : nat) : norm 0 k = (0, 0%nat).
Proof. induction k as [|k IH]; [reflexivity|]. cbn [norm]. exact IH. Qed.

Lemma dyadic_zero (E : Z) : dyadic 0 E = Finite 0 0.
Proof.
  unfold dyadic. destruct (1074 <=? E); [reflexivity|].
  unfold mkFinite. rewrite Z.mul_0_l, norm_zero. reflexivity.
Qed.

Lemma nearest64_bound (a b : Z) :
  0 < a -> 0 < b -> 0 <= fst (nearest64 a b) <= 2 ^ 53 /\ 0 <= snd (nearest64 a b).
Proof.
  intros Ha Hb. unfold nearest64. cbn [fst snd].
  set (q0 := a * 2 ^ 1022 / b). set (E := Z.log2 q0).
  assert (HE : 0 <= E) by apply Z.log2_nonneg.
  assert (HpE : 0 < 2 ^ E) by (apply Z.pow_pos_nonneg; lia).
  assert (Hd : 0 < b * 2 ^ E) by nia.
  assert (Hlt : a * 2 ^ 1074 < b * 2 ^ E * 2 ^ 53).
  { assert (Hq : a * 2 ^ 1022 < b * 2 ^ (E + 1)).
    { assert (Hq0 : 0 <= q0) by (apply Z.div_pos; [nia|lia]).
      assert (Hup : q0 < 2 ^ (E + 1)).
      { destruct (Z.eq_dec q0 0) as [Hz|Hnz].
        - rewrite Hz. apply Z.pow_pos_nonneg; lia.
        - apply Z.log2_spec. lia. }
      pose proof (Z.mod_pos_bound (a * 2 ^ 1022) b Hb) as Hm.
      pose proof (Z.div_mod (a * 2 ^ 1022) b ltac:(lia)) as Hdm. fold q0 in Hdm.
      nia. }
    rewrite Z.pow_add_r in Hq by lia. change (2 ^ 1) with 2 in Hq.
    change (2 ^ 1074) with (2 ^ 1022 * 2 ^ 52). change (2 ^ 53) with (2 * 2 ^ 52). nia. }
  pose proof (roundHalfEven_bounds (a * 2 ^ 1074) (b * 2 ^ E) Hd) as [Hlo Hhi].
  assert (Hdiv : 0 <= a * 2 ^ 1074 / (b * 2 ^ E) < 2 ^ 53).
  { split; [apply Z.div_pos; nia|]. apply Z.div_lt_upper_bound; [exact Hd|]. nia. }
  split; [lia|exact HE].
Qed.

Lemma roundPositive_fixed (a b : Z) :
  0 < a -> 0 < b -> round64 (roundPositive a b) = roundPositive a b.
Proof.
  intros Ha Hb. unfold roundPositive.
  pose proof (nearest64_bound a b Ha Hb) as [HM HE].
  destruct (nearest64 a b) as [M E]. cbn [fst snd] in HM, HE.
  destruct ((2045 <? E) || (E =? 2045) && (M =? 2 ^ 53)) eqn:Hover; [reflexivity|].
  apply orb_false_iff in Hover as [H1 H2]. apply Z.ltb_ge in H1.
  destruct (Z.eq_dec M 0) as [->|HM0]; [rewrite dyadic_zero; reflexivity|].
  destruct (Z.eq_dec M (2 ^ 53)) as [->|HM53].
  - rewrite Z.eqb_refl, andb_true_r in H2. apply Z.eqb_neq in H2.
    apply (round64_exact _ (2 ^ 52) (E + 1)); try lia; [apply canonical_dyadic| |].
    + change (Z.log2 (2 ^ 52)) with 52. lia.
    + eapply represents_proper; [|apply represents_dyadic, HE].
      unfold Qeq. cbn [Qnum Qden]. f_equal.
      rewrite Z.pow_add_r by lia. change (2 ^ 53) with (2 ^ 52 * 2 ^ 1). ring.
  - apply (round64_exact _ M E); try lia; [apply canonical_dyadic| |].
    + assert (Z.log2 M < 53) by (apply Z.log2_lt_pow2; lia). lia.
    + apply represents_dyadic, HE.
Qed.

Lemma round64_neg (x : JSNumber) : round64 (neg x) = neg (round64 x).
Proof.
  assert (Hinv : forall y, neg (neg y) = y).
  { intros [| |m k]; cbn [neg]; [reflexivity| |].
    - rewrite negb_involutive. reflexivity.
    - rewrite Z.opp_involutive. reflexivity. }
  destruct x as [| |m k]; try reflexivity. destruct m as [|p|p]; try reflexivity.
  cbn [neg round64 Z.opp]. symmetry. apply Hinv.
Qed.

(** [round64] is idempotent: it lands on binary64 numbers. *)
Lemma round64_idempotent (x : JSNumber) : round64 (round64 x) = round64 x.
Proof.
  assert (Hp : forall k, 0 < 10 ^ Z.of_nat k) by (intros k; apply Z.pow_pos_nonneg; lia).
  destruct x as [| |m k]; try reflexivity. destruct m as [|p|p]; [reflexivity| |].
  - cbn [round64]. apply roundPositive_fixed; [lia|apply Hp].
  - cbn [round64]. rewrite round64_neg, roundPositive_fixed; [reflexivity|lia|apply Hp].
Qed.

Lemma canonical_round64 (x : JSNumber) : canonical x -> canonical (round64 x).
Proof.
  assert (Hr : forall a b, canonical (roundPositive a b)).
  { intros a b. unfold roundPositive. destruct (nearest64 a b) as [M E].
    destruct (_ || _); [exact I|apply canonical_dyadic]. }
  destruct x as [| |m k]; try exact (fun H => H). intros _.
  destruct m as [|p|p]; cbn [round64]; [reflexivity|apply Hr|apply canonical_neg, Hr].
Qed.

Lemma isNaN_round64 (x : JSNumber) : isNaN (round64 x) = isNaN x.
Proof.
  assert (Hr : forall a b, isNaN (roundPositive a b) = false).
  { intros a b. unfold roundPositive. destruct (nearest64 a b) as [M E].
    destruct (_ || _); [reflexivity|]. unfold dyadic, mkFinite.
    destruct (1074 <=? E); [reflexivity|]. destruct (norm _ _). reflexivity. }
  destruct x as [| |m k]; try reflexivity.
  destruct m as [|p|p]; cbn [round64 isNaN]; [reflexivity|apply Hr|].
  specialize (Hr (Z.pos p) (10 ^ Z.of_nat k)).
  destruct (roundPositive _ _); try reflexivity. discriminate Hr.
Qed.

Lemma eqb_eq (x y : JSNumber) : eqb x y = true -> x = y.
Proof.
  destruct x as [|a|m1 k1], y as [|b|m2 k2]; try discriminate; cbn [eqb].
  - reflexivity.
  - intros H. apply Bool.eqb_prop in H. subst. reflexivity.
  - intros H. apply andb_prop in H as [Hm Hk].
    apply Z.eqb_eq in Hm. apply Nat.eqb_eq in Hk. subst. reflexivity.
Qed.

End NumberFacts.

(* ===================================================================== *)
(** ** The claims about the strength *)
(* ===================================================================== *)

Section StrengthClaims.
Import JS Dom Blur Props.
Implicit Types (s : State) (h : Host) (e x : nat) (l : list nat).

Lemma prefix_includes (p c : string) : String.prefix p c = true -> includes p c = true.
Proof. intros H. destruct c; cbn [includes]; rewrite H; reflexivity. Qed.

Lemma prefix_app_l (p q c : string) :
  String.prefix (p +:+ q) c = true -> String.prefix p c = true.
Proof.
  revert c. induction p as [|a p IH]; intros c H.
  - destruct c; reflexivity.
  - change (String a p +:+ q) with (String a (p +:+ q)) in H.
    destruct c as [|b c]; [discriminate|]. cbn [String.prefix] in *.
    destruct (ascii_dec a b); [apply IH, H|discriminate].
Qed.

(** An element with the marker as the specification words it has the marker
    the script looks for. *)
Lemma qualifying_marked s x : carriesQualifyingMarker (getElement s x) = true -> marked s x.
Proof.
  unfold carriesQualifyingMarker, marked, hasBlurClass.
  rewrite !existsb_exists. intros (c & Hin & Hc). exists c. split; [exact Hin|].
  apply orb_prop in Hc as [Hc|Hc].
  - apply String.eqb_eq in Hc. subst c. reflexivity.
  - apply prefix_includes. apply (prefix_app_l "blured" "-"). exact Hc.
Qed.

Lemma replace_marker (v : string) : replace "blured-" "" ("blured-" +:+ v) = v.
Proof. rewrite replace_prefix by (destruct v; reflexivity). reflexivity. Qed.

(** The strength [processElement] reads off a class list, case by case. *)
Lemma blurStrengthOf_cases (classes : list string) :
  (forall v, List.find (startsWith "blured-") classes = Some ("blured-" +:+ v) ->
     (isNaN (Number v) = false -> trim v <> "" -> blurStrengthOf classes = parseFloat v) /\
     (isNaN (Number v) = true \/ trim v = "" ->
      blurStrengthOf classes = config.defaultBlurStrength)) /\
  (List.find (startsWith "blured-") classes = None ->
   blurStrengthOf classes = config.defaultBlurStrength).
Proof.
  unfold blurStrengthOf. split.
  - intros v ->. change (truthy_string ("blured-" +:+ v)) with true. cbv iota.
    rewrite replace_marker. split.
    + intros Hnum Htrim. apply String.eqb_neq in Htrim. rewrite Hnum, Htrim. reflexivity.
    + intros [Hnum|Htrim].
      * rewrite Hnum. reflexivity.
      * apply String.eqb_eq in Htrim. rewrite Htrim, andb_false_r. reflexivity.
  - intros ->. reflexivity.
Qed.

(** C2, as the code has it (the strength a reconciliation records).  For an
    element of the document that carries the marker and is not tracked yet
    when [processAllElements] runs, the run tracks it and stores the strength
    read off its class list: with [v] the suffix of the first class token
    that starts with [blured-], [parseFloat(v)] when [v] is numeric and not
    blank, the default 1 when it is not numeric (or blank); and the default 1
    when no token starts with [blured-]. *)
Theorem reconcile_records_strength s h x :
  x ∈ elementsOf (document h) ->
  marked s x ->
  x ∉ trackedElements s ->
  let classes := classList (getElement s x) in
  let s' := processAllElements h s in
  x ∈ trackedElements s' /\
  storedStrength s' x = Some (toString (blurStrengthOf classes)) /\
  (forall v, List.find (startsWith "blured-") classes = Some ("blured-" +:+ v) ->
     (isNaN (Number v) = false -> trim v <> "" ->
      storedStrength s' x = Some (toString (parseFloat v))) /\
     (isNaN (Number v) = true \/ trim v = "" ->
      storedStrength s' x = Some (toString config.defaultBlurStrength))) /\
  (List.find (startsWith "blured-") classes = None ->
   storedStrength s' x = Some (toString config.defaultBlurStrength)).
Proof.
  intros Hdoc Hm Hnot classes s'.
  assert (Hstored : storedStrength s' x = Some (toString (blurStrengthOf classes))).
  { unfold storedStrength. subst s'. rewrite processAllElements_element.
    rewrite decide_False by (unfold stale; tauto).
    rewrite decide_True by tauto.
    unfold trackedForm. simpl. rewrite lookup_insert_eq, blurStrengthOf_relative.
    reflexivity. }
  destruct (blurStrengthOf_cases classes) as [Hsome Hnone].
  split; [|split; [exact Hstored|split]].
  - subst s'. rewrite processAllElements_tracked. tauto.
  - intros v Hv. destruct (Hsome v Hv) as [H1 H2]. split.
    + intros Hnum Htrim. rewrite Hstored, H1 by assumption. reflexivity.
    + intros Hbad. rewrite Hstored, H2 by assumption. reflexivity.
  - intros Hv. rewrite Hstored, Hnone by assumption. reflexivity.
Qed.

(** C2 as stated fails for an element that is tracked already: the [div] of
    the sample page was tracked with strength 7.5, the page then gives it the
    class [blured-3], and the next [processAllElements] leaves 7.5 stored,
    not 3. *)
Lemma tracked_strength_is_kept :
  let s := run (initialState Sample.page)
             [Refresh Sample.host; PageScript Sample.restyled] in
  2%nat ∈ elementsOf (document Sample.host) /\
  carriesQualifyingMarker (getElement s 2%nat) = true /\
  List.find (startsWith "blured-") (classList (getElement s 2%nat)) = Some "blured-3" /\
  isNaN (Number "3") = false /\ trim "3" <> "" /\
  toString (parseFloat "3") = "3" /\
  storedStrength (processAllElements Sample.host s) 2%nat = Some "7.5".
Proof.
  cbv zeta. split; [apply list_elem_of_In; vm_compute; tauto|].
  repeat split; try (vm_compute; reflexivity). discriminate.
Qed.

End StrengthClaims.

(* ===================================================================== *)
(** ** The number scanners *)
(* ===================================================================== *)

Section ScanFacts.
Import JS More.

Lemma scanUnsignedDecimal_unfold (a : string) :
  scanUnsignedDecimal a =
  if String.prefix "Infinity" a then Some (Infinity false, sliceFrom 8 a)
  else let '(ip, ni, r1) := scanDigits a 0 0 in afterDigits ip ni r1.
Proof.
  unfold scanUnsignedDecimal, afterDigits. destruct (String.prefix "Infinity" a); [reflexivity|].
  destruct (scanDigits a 0 0) as [[ip ni] r1]. destruct r1 as [|c r2]; [reflexivity|].
  destruct c as [[] [] [] [] [] [] [] []]; reflexivity.
Qed.

Lemma includes_tail (p : string) (c : ascii) (r : string) :
  includes p r = true -> includes p (String c r) = true.
Proof. intros H. cbn [includes]. rewrite H. apply orb_true_r. Qed.

Lemma includes_self (p : string) : includes p p = true.
Proof.
  assert (H : String.prefix p p = true).
  { induction p as [|c p IH]; [reflexivity|]. cbn [String.prefix].
    destruct (ascii_dec c c); [exact IH|contradiction]. }
  destruct p; cbn [includes]; rewrite H; reflexivity.
Qed.

(** What a scanner leaves is an end of what it was given. *)
Lemma scanDigits_includes (p a : string) (acc : Z) (cnt : nat) :
  includes p (snd (scanDigits a acc cnt)) = true -> includes p a = true.
Proof.
  revert acc cnt. induction a as [|c a IH]; intros acc cnt; cbn [scanDigits]; [auto|].
  destruct (digitValue c); [|auto]. intros H. apply includes_tail, (IH _ _ H).
Qed.

Lemma scanSign_includes (p a : string) :
  includes p (snd (scanSign a)) = true -> includes p a = true.
Proof.
  destruct a as [|c a]; [auto|].
  destruct (Ascii.eqb c "+") eqn:Hplus; [apply Ascii.eqb_eq in Hplus; subst c|].
  { apply includes_tail. }
  destruct (Ascii.eqb c "-") eqn:Hminus; [apply Ascii.eqb_eq in Hminus; subst c|].
  { apply includes_tail. }
  replace (scanSign (String c a)) with (false, String c a); [auto|].
  destruct c as [[] [] [] [] [] [] [] []]; try reflexivity; discriminate.
Qed.

Lemma sliceFrom_includes (p a : string) (n : nat) :
  includes p (sliceFrom n a) = true -> includes p a = true.
Proof.
  revert a. induction n as [|n IH]; intros a; [destruct a; auto|].
  destruct a as [|c a]; [auto|]. cbn [sliceFrom]. intros H. apply includes_tail, IH, H.
Qed.

Lemma scanExponent_includes (p a : string) :
  includes p (snd (scanExponent a)) = true -> includes p a = true.
Proof.
  destruct a as [|c a]; [auto|]. cbn [scanExponent].
  destruct ((c =? "e")%char || (c =? "E")%char); [|auto].
  destruct (scanSign a) as [negative r1] eqn:Hs.
  destruct (scanDigits r1 0 0) as [[v n] r2] eqn:Hd.
  destruct n; [auto|]. cbn [snd]. intros H.
  apply includes_tail, scanSign_includes. rewrite Hs. cbn [snd].
  apply (scanDigits_includes _ _ 0 0). rewrite Hd. exact H.
Qed.

Lemma afterDigits_includes (p : string) (ip : Z) (ni : nat) (r1 : string)
    (x : JSNumber) (r : string) :
  afterDigits ip ni r1 = Some (x, r) -> includes p r = true -> includes p r1 = true.
Proof.
  assert (Hint : match ni with
                 | O => None
                 | _ => let (ex, r4) := scanExponent r1 in Some (decimal ip ex, r4)
                 end = Some (x, r) -> includes p r = true -> includes p r1 = true).
  { destruct ni; [discriminate|]. destruct (scanExponent r1) as [ex r4] eqn:He.
    intros [= _ <-] H. apply scanExponent_includes. rewrite He. exact H. }
  unfold afterDigits. destruct r1 as [|c r2]; [exact Hint|].
  destruct (Ascii.eqb c "."); [|exact Hint].
  destruct (scanDigits r2 ip 0) as [[fp nf] r3] eqn:Hd.
  destruct (ni + nf)%nat; [discriminate|].
  destruct (scanExponent r3) as [ex r4] eqn:He. intros [= _ <-] H.
  apply includes_tail, (scanDigits_includes _ _ ip 0). rewrite Hd. cbn [snd].
  apply scanExponent_includes. rewrite He. exact H.
Qed.

Lemma scanDecimal_rest (a : string) (x : JSNumber) (r : string) :
  scanDecimal a = Some (x, r) -> includes r a = true.
Proof.
  unfold scanDecimal. destruct (scanSign a) as [negative a'] eqn:Hs.
  rewrite scanUnsignedDecimal_unfold.
  intros H. apply scanSign_includes. rewrite Hs. cbn [snd].
  destruct (String.prefix "Infinity" a').
  - injection H as _ <-. apply (sliceFrom_includes _ _ 8), includes_self.
  - destruct (scanDigits a' 0 0) as [[ip ni] r1] eqn:Hd.
    destruct (afterDigits ip ni r1) as [[v rest]|] eqn:Ha; [|discriminate].
    injection H as _ <-.
    apply (scanDigits_includes _ _ 0 0). rewrite Hd. cbn [snd].
    apply (afterDigits_includes _ _ _ _ _ _ Ha), includes_self.
Qed.

(** A decimal literal does not start with white space. *)
Lemma scanDecimal_trimStart (a : string) (x : JSNumber) (r : string) :
  scanDecimal a = Some (x, r) -> trimStart a = a.
Proof.
  destruct a as [|c a]; [reflexivity|]. intros H. cbn [trimStart].
  destruct (isWhiteSpace c) eqn:Hws; [exfalso|reflexivity].
  destruct c as [[] [] [] [] [] [] [] []]; try discriminate Hws;
    vm_compute in H; discriminate H.
Qed.

End ScanFacts.

(* ===================================================================== *)
(** ** The claims about a frame *)
(* ===================================================================== *)

Section FrameClaims.
Import JS Dom Blur Props.
Implicit Types (s : State) (g : GameView) (l : Layout) (element : nat).

Lemma render_draws l s g :
  render l s g = map (draw l s g) (currentElements g) /\
  length (render l s g) = length (currentElements g).
Proof. unfold render. split; [reflexivity|apply length_map]. Qed.

Lemma exactSum_ofZ (a b : Z) : exactSum (ofZ a) (ofZ b) = ofZ (a + b).
Proof. unfold ofZ, exactSum, align, mkFinite. simpl. f_equal. lia. Qed.

Lemma safe_floor (q : Q) : safeMagnitude q -> Z.abs (Qfloor q - 1) < 2 ^ 53.
Proof.
  intros [Hlo Hhi].
  pose proof (Qfloor_le q) as H1. pose proof (Qlt_floor q) as H2.
  assert (Ha : (inject_Z (Qfloor q) <= inject_Z (2 ^ 52))%Q) by (eapply Qle_trans; eassumption).
  assert (Hb : (- inject_Z (2 ^ 52) < inject_Z (Qfloor q + 1))%Q)
    by (eapply Qle_lt_trans; eassumption).
  rewrite <- Zle_Qle in Ha. rewrite <- inject_Z_opp, <- Zlt_Qlt in Hb.
  change (2 ^ 53) with (2 * 2 ^ 52). lia.
Qed.

Lemma safe_ceiling (q : Q) : safeMagnitude q -> Z.abs (Qceiling q + 2) < 2 ^ 53.
Proof.
  intros [Hlo Hhi].
  pose proof (Qle_ceiling q) as H1. pose proof (Qceiling_lt q) as H2.
  assert (Ha : (inject_Z (Qceiling q - 1) < inject_Z (2 ^ 52))%Q)
    by (eapply Qlt_le_trans; eassumption).
  assert (Hb : (- inject_Z (2 ^ 52) <= inject_Z (Qceiling q))%Q)
    by (eapply Qle_trans; eassumption).
  rewrite <- Zlt_Qlt in Ha. rewrite <- inject_Z_opp, <- Zle_Qle in Hb.
  change (2 ^ 53) with (2 * 2 ^ 52). lia.
Qed.

(** The box in whole numbers, from the products the script computes. *)
Lemma scaledBox_value (canvasRect rect : DOMRect) (scale : JSNumber) (PL PT PW PH : Q) :
  represents (mul (sub (left rect) (left canvasRect)) scale) PL ->
  represents (mul (sub (top rect) (top canvasRect)) scale) PT ->
  represents (mul (width rect) scale) PW ->
  represents (mul (height rect) scale) PH ->
  safeMagnitude PL -> safeMagnitude PT -> safeMagnitude PW -> safeMagnitude PH ->
  scaledBox canvasRect rect scale =
    {| scaledLeft := ofZ (Qfloor PL - 1);
       scaledTop := ofZ (Qfloor PT - 1);
       scaledWidth := ofZ (Qceiling PW + 2);
       scaledHeight := ofZ (Qceiling PH + 2) |}.
Proof.
  intros HL HT HW HH SL ST SW SH. unfold scaledBox.
  rewrite (floor_represents _ PL HL), (floor_represents _ PT HT).
  rewrite (ceil_represents _ PW HW), (ceil_represents _ PH HH).
  rewrite mul_buffer. unfold buffer.
  rewrite !sub_ofZ by (apply safe_floor; assumption).
  rewrite !add_ofZ by (apply safe_ceiling; assumption).
  reflexivity.
Qed.

(** C4 (the device-space box).  Let [pl], [pt], [pw] and [ph] be the
    products [render] computes - [(rect.left - canvasRect.left) * scale] and
    so on, in binary64 - and let them be finite and at most [2^52] in
    magnitude.  Then the box [render] works with has left and top
    [floor(pl) - 1] and [floor(pt) - 1], width and height [ceil(pw) + 2] and
    [ceil(ph) + 2], as whole numbers; and the shape it hands to the shader is
    centred on that box, the vertical axis flipped. *)
Theorem render_box l s g element (PL PT PW PH : Q) :
  let rect := boundingClientRect l element in
  let scale := currentResolutionScale g in
  let b := scaledBox (canvasRect l) rect scale in
  represents (mul (sub (left rect) (left (canvasRect l))) scale) PL ->
  represents (mul (sub (top rect) (top (canvasRect l))) scale) PT ->
  represents (mul (width rect) scale) PW ->
  represents (mul (height rect) scale) PH ->
  safeMagnitude PL -> safeMagnitude PT -> safeMagnitude PW -> safeMagnitude PH ->
  b = {| scaledLeft := ofZ (Qfloor PL - 1);
         scaledTop := ofZ (Qfloor PT - 1);
         scaledWidth := ofZ (Qceiling PW + 2);
         scaledHeight := ofZ (Qceiling PH + 2) |} /\
  u_shape (draw l s g element) =
    (add (scaledLeft b) (half (scaledWidth b)),
     sub (canvas_height g) (add (scaledTop b) (half (scaledHeight b))),
     half (scaledWidth b),
     if isCircle (borderRadius l element) then ofZ 0 else half (scaledHeight b)).
Proof.
  intros rect scale b HL HT HW HH SL ST SW SH. split.
  - subst b. apply scaledBox_value; assumption.
  - unfold draw. fold rect scale b. destruct (isCircle _); reflexivity.
Qed.

(** A box over a rectangle of non-negative height, at a non-negative scale,
    has a half-height other than zero. *)
Lemma scaledHeight_positive (canvasRect rect : DOMRect) (scale : JSNumber) (H S : Q) :
  represents (height rect) H -> represents scale S -> (0 <= H)%Q -> (0 <= S)%Q ->
  isZero (half (scaledHeight (scaledBox canvasRect rect scale))) = false.
Proof.
  intros HH HS Hh Hs. unfold scaledBox. cbn [scaledHeight]. rewrite mul_buffer.
  assert (Hp : mul (height rect) scale = Infinity false \/
               exists q, represents (mul (height rect) scale) q /\ (0 <= q)%Q).
  { apply (round64_nonneg _ (H * S)); [apply represents_exactProduct; assumption|].
    apply Qmult_le_0_compat; assumption. }
  destruct Hp as [->|(q & Hq & Hq0)]; [vm_compute; reflexivity|].
  rewrite (ceil_represents _ q Hq). unfold add. rewrite exactSum_ofZ.
  assert (Hc : 0 <= Qceiling q).
  { pose proof (Qle_ceiling q) as Hle. pose proof (Qle_trans _ _ _ Hq0 Hle) as H0.
    rewrite <- (Zle_Qle 0) in H0. exact H0. }
  destruct (round64_lower (ofZ (Qceiling q + 2)) (inject_Z (Qceiling q + 2)) 1)
    as [->|(q' & Hq' & Hge)]; [lia|apply represents_ofZ| |vm_compute; reflexivity|].
  { rewrite <- Zle_Qle. change (2 ^ 1) with 2. lia. }
  unfold half.
  destruct (round64_lower (exactProduct (round64 (ofZ (Qceiling q + 2))) (Finite 5 1))
              (q' * (5 # 10)) 0) as [->|(q'' & Hq'' & Hge')];
    [lia| | |reflexivity|].
  - apply represents_exactProduct; [exact Hq'|]. exists 5, 1%nat. split; reflexivity.
  - change (inject_Z (2 ^ 1)) with 2%Q in Hge. change (inject_Z (2 ^ 0)) with 1%Q.
    Lqa.lra.
  - apply not_true_is_false. intros Hz.
    apply (isZero_represents _ _ Hq'') in Hz. change (inject_Z (2 ^ 0)) with 1%Q in Hge'.
    Lqa.lra.
Qed.

(** A computed border-radius that is a percentage of at least 50, in the
    specification's words, passes the script's test. *)
Lemma percentage_isCircle (style : string) :
  percentageOfAtLeast50 style = true -> isCircle style = true.
Proof.
  unfold percentageOfAtLeast50, percentage, isCircle, parseFloat.
  destruct (scanDecimal style) as [[v r]|] eqn:Hscan; [|discriminate].
  assert (Hr : r = "%" -> includes "%" style = true /\ trimStart style = style).
  { intros ->. split; [eapply scanDecimal_rest|eapply scanDecimal_trimStart]; exact Hscan. }
  destruct r as [|c r]; [discriminate|].
  destruct r as [|c' r]; [|destruct c as [[] [] [] [] [] [] [] []]; discriminate].
  destruct (Ascii.eqb c "%") eqn:Hc;
    [|destruct c as [[] [] [] [] [] [] [] []]; try discriminate; discriminate Hc].
  apply Ascii.eqb_eq in Hc. subst c. destruct (Hr eq_refl) as [Hi Ht].
  rewrite Hi, Ht, Hscan. intros Hge. exact Hge.
Qed.

(** C5 (circle or rounded rectangle).  For a region of finite, non-negative
    height at a finite, non-negative scale: the shader is handed [hh = 0]
    exactly when the computed border-radius contains [%] somewhere and the
    number it starts with is at least 50; then [hw] is half the box's width.
    Otherwise [hw] and [hh] are half the box's width and height.  A
    border-radius that is one percentage of at least 50 passes that test.
    Either way the corner radius is the number the border-radius starts
    with, times the scale. *)
Theorem shape_discriminator l s g element (H S : Q) :
  let rect := boundingClientRect l element in
  let scale := currentResolutionScale g in
  let style := borderRadius l element in
  let b := scaledBox (canvasRect l) rect scale in
  let d := draw l s g element in
  represents (height rect) H -> represents scale S -> (0 <= H)%Q -> (0 <= S)%Q ->
  (isZero (shape_hh d) = true <->
   includes "%" style = true /\ ge (parseFloat style) (ofZ 50) = true) /\
  (forall p, represents (parseFloat style) p ->
     (isZero (shape_hh d) = true <-> includes "%" style = true /\ (50 <= p)%Q)) /\
  (percentageOfAtLeast50 style = true -> shape_hh d = ofZ 0) /\
  (isCircle style = true ->
   shape_hh d = ofZ 0 /\ shape_hw d = half (scaledWidth b)) /\
  (isCircle style = false ->
   shape_hw d = half (scaledWidth b) /\ shape_hh d = half (scaledHeight b)) /\
  u_borderRadius d = mul (parseFloat style) scale.
Proof.
  intros rect scale style b d HH HS Hh Hs.
  pose proof (scaledHeight_positive (canvasRect l) rect scale H S HH HS Hh Hs) as Hpos.
  fold b in Hpos.
  assert (Hiff : isZero (shape_hh d) = true <->
                 includes "%" style = true /\ ge (parseFloat style) (ofZ 50) = true).
  { subst d. unfold shape_hh, draw. cbn [u_shape]. fold rect scale style b.
    unfold isCircle. rewrite <- andb_true_iff.
    destruct (includes "%" style && ge (parseFloat style) (ofZ 50)).
    - split; reflexivity.
    - rewrite Hpos. split; discriminate. }
  assert (Hcircle : isCircle style = true ->
                    shape_hh d = ofZ 0 /\ shape_hw d = half (scaledWidth b)).
  { intros Hc. subst d. unfold shape_hh, shape_hw, draw. cbn [u_shape].
    fold rect scale style b. rewrite Hc. split; reflexivity. }
  split; [exact Hiff|]. split; [|split; [|split; [|split]]].
  - intros p Hp. rewrite Hiff.
    rewrite (ge_represents _ _ p 50 Hp (represents_ofZ 50)). reflexivity.
  - intros Hp. apply Hcircle, percentage_isCircle, Hp.
  - exact Hcircle.
  - intros Hc. subst d. unfold shape_hh, shape_hw, draw. cbn [u_shape].
    fold rect scale style b. rewrite Hc. split; reflexivity.
  - reflexivity.
Qed.

(** C5 as stated fails: with the computed border-radius [60px 10%] - not a
    percentage of at least 50: its corners are 60px by 10% - the [div] of
    the sample page is drawn as a circle, with [hh = 0]. *)
Lemma mixed_corners_drawn_as_circle :
  borderRadius Sample2.mixedCorners 2%nat = "60px 10%" /\
  percentageOfAtLeast50 "60px 10%" = false /\
  percentageOfAtLeast50 "50%" = true /\
  parseFloat "60px 10%" = ofZ 60 /\
  shape_hh (draw Sample2.mixedCorners Sample.booted Sample.liveView 2%nat) = ofZ 0.
Proof. repeat split; vm_compute; reflexivity. Qed.

Lemma truthy_spec (x : JSNumber) : truthy x = negb (isNaN x) && negb (isZero x).
Proof. destruct x; reflexivity. Qed.

(** C10 (the strength of a frame).  [render] parses the stored strength
    again at every frame and hands the shader the parsed value only when it
    is a number other than zero; with no stored strength, with one that does
    not parse, and with one that parses to zero the shader gets the default
    1.  The paragraph of the sample page classed [blured-0] has the strength
    0 stored and is drawn with strength 1. *)
Theorem frame_strength l s g element :
  let stored := storedStrength s element in
  let parsed := parseFloat (default "" stored) in
  let d := draw l s g element in
  u_blurStrength d =
    (if negb (isNaN parsed) && negb (isZero parsed) then parsed
     else config.defaultBlurStrength) /\
  (stored = None -> u_blurStrength d = ofZ 1) /\
  (isNaN parsed = true -> u_blurStrength d = ofZ 1) /\
  (isZero parsed = true -> u_blurStrength d = ofZ 1) /\
  map u_blurStrength (render l s g) =
    map (fun e => or_else (parseFloat (default "" (storedStrength s e))) (ofZ 1))
      (currentElements g) /\
  storedStrength Sample.booted 7%nat = Some "0" /\
  u_blurStrength (draw l Sample.booted g 7%nat) = ofZ 1.
Proof.
  intros stored parsed d.
  assert (Hd : forall e, u_blurStrength (draw l s g e) =
                 or_else (parseFloat (default "" (storedStrength s e))) (ofZ 1)).
  { intros e. unfold draw, storedStrength. cbn [u_blurStrength].
    destruct (dataset (getElement s e) !! "blurStrength") as [v|]; [|reflexivity].
    destruct v; reflexivity. }
  assert (Hu : u_blurStrength d =
               (if negb (isNaN parsed) && negb (isZero parsed) then parsed
                else config.defaultBlurStrength)).
  { subst d. rewrite Hd. unfold or_else. rewrite truthy_spec. reflexivity. }
  split; [exact Hu|]. split; [|split; [|split; [|split; [|split]]]].
  - intros Hnone. rewrite Hu. subst parsed. rewrite Hnone. reflexivity.
  - intros Hnan. rewrite Hu, Hnan. reflexivity.
  - intros Hzero. rewrite Hu, Hzero, andb_false_r. reflexivity.
  - unfold render. rewrite map_map. apply map_ext. exact Hd.
  - vm_compute. reflexivity.
  - unfold draw. cbn [u_blurStrength]. vm_compute. reflexivity.
Qed.

End FrameClaims.

(* ===================================================================== *)
(** ** The theorems at work on the sample page *)
(* ===================================================================== *)

Section Witnesses.
Import JS Dom Blur Props.

(** The plain paragraph of the sample page is never tracked, whatever the
    scans and callbacks. *)
Lemma no_false_positives_witness :
  let evs := [Refresh Sample.host; Mutations Sample.batch;
              PageScript Sample.restyled; Refresh Sample.host] in
  (forall n, ~ marked (run (initialState Sample.page) (take n evs)) 6%nat) /\
  6%nat ∉ trackedElements (run (initialState Sample.page) evs).
Proof.
  cbv zeta.
  assert (H : forall n,
             ~ marked (run (initialState Sample.page)
                         (take n [Refresh Sample.host; Mutations Sample.batch;
                                  PageScript Sample.restyled; Refresh Sample.host]))
                 6%nat).
  { intros n. do 4 (destruct n as [|n]; [vm_compute; discriminate|]).
    rewrite take_ge by (simpl; lia). vm_compute. discriminate. }
  split; [exact H|]. exact (no_false_positives _ _ _ H).
Defined.

(** The first scan of the sample page stores 7.5 for [blured-7.5], and the
    default for [blured-abc] and for the bare [blured]. *)
Lemma reconcile_records_strength_witness :
  storedStrength Sample.booted 2%nat = Some "7.5" /\
  storedStrength Sample.booted 4%nat = Some "1" /\
  storedStrength Sample.booted 5%nat = Some "1".
Proof.
  assert (Hdoc : forall x, In x [2; 4; 5]%nat -> x ∈ elementsOf (document Sample.host)).
  { intros x Hx. apply list_elem_of_In. vm_compute. simpl in Hx. tauto. }
  assert (Hnot : forall x, x ∉ trackedElements (initialState Sample.page)).
  { intros x. apply not_elem_of_nil. }
  split; [|split].
  - destruct (reconcile_records_strength (initialState Sample.page) Sample.host 2%nat)
      as (_ & _ & Hsome & _);
      [apply Hdoc; simpl; tauto|vm_compute; reflexivity|apply Hnot|].
    destruct (Hsome "7.5") as [Hnum _]; [vm_compute; reflexivity|].
    apply Hnum; [vm_compute; reflexivity|discriminate].
  - destruct (reconcile_records_strength (initialState Sample.page) Sample.host 4%nat)
      as (_ & _ & Hsome & _);
      [apply Hdoc; simpl; tauto|vm_compute; reflexivity|apply Hnot|].
    destruct (Hsome "abc") as [_ Hbad]; [vm_compute; reflexivity|].
    apply Hbad. left. vm_compute. reflexivity.
  - destruct (reconcile_records_strength (initialState Sample.page) Sample.host 5%nat)
      as (_ & _ & _ & Hnone);
      [apply Hdoc; simpl; tauto|vm_compute; reflexivity|apply Hnot|].
    apply Hnone. vm_compute. reflexivity.
Defined.

(** The rectangle of the claim: 40 by 20 at (100, 50), at scale 0.5; and
    the [div] of the scrolled frame, whose box starts at 502 (and not at
    501, where exact arithmetic would put it). *)
Lemma render_box_witness :
  scaledBox (canvasRect Sample.layout) (boundingClientRect Sample.layout 2%nat)
    (currentResolutionScale Sample.liveView) =
  {| scaledLeft := ofZ 49; scaledTop := ofZ 24;
     scaledWidth := ofZ 22; scaledHeight := ofZ 12 |} /\
  scaledBox (canvasRect Sample2.scrolled) (boundingClientRect Sample2.scrolled 2%nat)
    (currentResolutionScale Sample.liveView) =
  {| scaledLeft := ofZ 502; scaledTop := ofZ 24;
     scaledWidth := ofZ 22; scaledHeight := ofZ 12 |} /\
  floor (exactProduct
           (exactSum (left (boundingClientRect Sample2.scrolled 2%nat))
              (neg (left (canvasRect Sample2.scrolled))))
           (currentResolutionScale Sample.liveView)) = ofZ 502.
Proof.
  split; [|split; [|vm_compute; reflexivity]].
  - refine (proj1 (render_box Sample.layout Sample.booted Sample.liveView 2%nat
                     50 25 20 10 _ _ _ _ _ _ _ _));
      try (eexists _, 0%nat; split; [vm_compute; reflexivity|reflexivity]);
      split; unfold Qle; vm_compute; discriminate.
  - refine (proj1 (render_box Sample2.scrolled Sample.booted Sample.liveView 2%nat
                     503 25 20 10 _ _ _ _ _ _ _ _));
      try (eexists _, 0%nat; split; [vm_compute; reflexivity|reflexivity]);
      split; unfold Qle; vm_compute; discriminate.
Defined.

(** The bare [blured] paragraph, with border-radius 50%, is drawn as a
    circle; the [div], with 8px, as a rounded rectangle with corner radius
    4. *)
Lemma shape_discriminator_witness :
  shape_hh (draw Sample.layout Sample.booted Sample.liveView 5%nat) = ofZ 0 /\
  shape_hh (draw Sample.layout Sample.booted Sample.liveView 2%nat) = ofZ 6 /\
  shape_hw (draw Sample.layout Sample.booted Sample.liveView 2%nat) = ofZ 11 /\
  u_borderRadius (draw Sample.layout Sample.booted Sample.liveView 2%nat) = ofZ 4.
Proof.
  assert (Hscale : represents (currentResolutionScale Sample.liveView) (1 # 2)).
  { exists 5, 1%nat. split; reflexivity. }
  destruct (shape_discriminator Sample.layout Sample.booted Sample.liveView 5%nat 64 (1 # 2))
    as (_ & _ & Hcircle & _ & _ & _);
    [apply represents_ofZ|exact Hscale|discriminate|discriminate|].
  destruct (shape_discriminator Sample.layout Sample.booted Sample.liveView 2%nat 20 (1 # 2))
    as (_ & _ & _ & _ & Hrect & Hradius);
    [apply represents_ofZ|exact Hscale|discriminate|discriminate|].
  split; [apply Hcircle; vm_compute; reflexivity|].
  destruct Hrect as [Hw Hh]; [vm_compute; reflexivity|].
  split; [rewrite Hh; vm_compute; reflexivity|].
  split; [rewrite Hw; vm_compute; reflexivity|].
  rewrite Hradius. vm_compute. reflexivity.
Defined.

(** Tracking the [div] twice, the page giving it the class [blured-3] in
    between: tracked once, with 7.5 stored. *)
Lemma processElement_idempotent_witness :
  let s1 := processElement 2%nat (initialState Sample.page) in
  let between :=
    setElement 2%nat {| classList := ["panel"; "blured-3"; "relative"];
                        dataset := dataset (getElement s1 2%nat) |} s1 in
  processElement 2%nat between = between /\
  trackedElements (processElement 2%nat between) = [2%nat] /\
  storedStrength (processElement 2%nat between) 2%nat = Some "7.5".
Proof.
  cbv zeta.
  destruct (processElement_idempotent (initialState Sample.page) 2%nat
              ["panel"; "blured-3"; "relative"] (NoDup_nil_2 : NoDup []))
    as (_ & Hsame & Htracked & _ & _ & Hstored).
  split; [exact Hsame|]. split; [rewrite Htracked; reflexivity|].
  rewrite Hstored by apply not_elem_of_nil. vm_compute. reflexivity.
Defined.

(** The [div] loses the marker after the first scan: [removeElement] would
    take it out, and the next scan does. *)
Lemma removal_correct_witness :
  let s := run (initialState Sample.page)
             [Refresh Sample.host; PageScript Sample.unmarked] in
  2%nat ∈ trackedElements s /\
  storedStrength s 2%nat = Some "7.5" /\
  removeElement 6%nat s = (false, s) /\
  fst (removeElement 2%nat s) = true /\
  (2%nat ∉ trackedElements (processAllElements Sample.host s)) /\
  storedStrength (processAllElements Sample.host s) 2%nat = None.
Proof.
  cbv zeta.
  set (s := run (initialState Sample.page)
              [Refresh Sample.host; PageScript Sample.unmarked]).
  assert (Hin : 2%nat ∈ trackedElements s).
  { apply list_elem_of_In. vm_compute. tauto. }
  assert (Hout : 6%nat ∉ trackedElements s).
  { intros H. apply list_elem_of_In in H. vm_compute in H. intuition discriminate. }
  assert (Hm : ~ marked s 2%nat) by (vm_compute; discriminate).
  destruct (removal_correct s Sample.host 2%nat) as (_ & Hrem & Hsweep & _).
  destruct (removal_correct s Sample.host 6%nat) as (Hnoop & _).
  split; [exact Hin|]. split; [vm_compute; reflexivity|].
  split; [exact (Hnoop Hout)|]. split; [exact (proj1 (Hrem Hin))|].
  exact (Hsweep Hin Hm).
Defined.

(** Tracking the [div] of the sample page. *)
Lemma processElement_effects_witness :
  let s' := processElement 2%nat (initialState Sample.page) in
  trackedElements s' = [2%nat] /\
  classList (getElement s' 2%nat) = ["panel"; "blured-7.5"; "relative"] /\
  storedStrength s' 2%nat = Some "7.5" /\
  getElement s' 3%nat = getElement (initialState Sample.page) 3%nat.
Proof.
  cbv zeta.
  destruct (processElement_effects (initialState Sample.page) 2%nat)
    as (Ht & Hc & _ & _ & Hd & _ & Hx & _); [apply not_elem_of_nil|].
  split; [rewrite Ht; reflexivity|]. split; [rewrite Hc; vm_compute; reflexivity|].
  split; [unfold storedStrength; rewrite Hd; vm_compute; reflexivity|].
  apply Hx. discriminate.
Defined.

End Witnesses.

(* ===================================================================== *)
(** ** More on reconciliation *)
(* ===================================================================== *)

Section ReconcileMore.
Import JS Dom Blur Props More.
Implicit Types (s t : State) (h : Host) (e x : nat) (l : list nat).

Lemma marked_trackedForm s x el :
  hasBlurClass el = hasBlurClass (getElement s x) ->
  hasBlurClass (trackedForm el) = hasBlurClass (getElement s x).
Proof. intros <-. apply hasBlurClass_trackedForm. Qed.

(** A reconciliation changes no element's marker. *)
Lemma processAllElements_marked h s x : marked (processAllElements h s) x <-> marked s x.
Proof.
  unfold marked. rewrite processAllElements_element.
  repeat case_decide; rewrite ?hasBlurClass_trackedForm; reflexivity.
Qed.

Lemma sweep_nothing l t : (forall x, x ∈ l -> ~ stale t x) -> forEach l sweepStep t = t.
Proof.
  induction l as [|a l IH]; intros Hl; [reflexivity|].
  rewrite forEach_cons, sweepStep_fresh by (apply Hl, elem_of_cons; auto).
  apply IH. intros x Hx. apply Hl, elem_of_cons. auto.
Qed.

Lemma forEach_processElement_nothing l t :
  (forall x, x ∈ l -> x ∈ trackedElements t) -> forEach l processElement t = t.
Proof.
  induction l as [|a l IH]; intros Hl; [reflexivity|].
  rewrite forEach_cons, processElement_tracked by (apply Hl, elem_of_cons; auto).
  apply IH. intros x Hx. apply Hl, elem_of_cons. auto.
Qed.

Lemma updateElements_same (g : GameView) : updateElements (currentElements g) g = g.
Proof. destruct g; reflexivity. Qed.

Lemma setGameView_same t : setGameView (gameView t) t = t.
Proof. destruct t; reflexivity. Qed.

Lemma sweepStep_canvas e t : canvas (sweepStep e t) = canvas t.
Proof.
  destruct (decide (stale t e)) as [H|H].
  - rewrite sweepStep_stale by exact H. reflexivity.
  - rewrite sweepStep_fresh by exact H. reflexivity.
Qed.

Lemma sweep_canvas l t : canvas (forEach l sweepStep t) = canvas t.
Proof.
  revert t. induction l as [|a l IH]; intros t; [reflexivity|].
  rewrite forEach_cons, IH. apply sweepStep_canvas.
Qed.

Lemma sweep_gameView_None l t :
  gameView t = None -> gameView (forEach l sweepStep t) = None.
Proof. intros H. rewrite sweep_gameView. exact H. Qed.

(** A state a reconciliation has nothing to do on. *)
Lemma processAllElements_fixpoint h t :
  (forall x, x ∈ trackedElements t -> marked t x) ->
  (forall x, x ∈ elementsOf (document h) -> marked t x -> x ∈ trackedElements t) ->
  (forall g, gameView t = Some g -> currentElements g = trackedElements t) ->
  (gameView t = None -> querySelectorAll t (elementsOf (document h)) <> [] ->
   canvas t = true /\ webgl h = false) ->
  processAllElements h t = t.
Proof.
  intros Hmarked Hall Hsync Hnone. unfold processAllElements.
  change (forEach (trackedElements t) _ t) with (forEach (trackedElements t) sweepStep t).
  rewrite sweep_nothing by (intros x Hx [_ Hn]; apply Hn, Hmarked, Hx).
  rewrite !forEach_processElement_nothing; cycle 1.
  { intros x Hx. apply elem_of_querySelectorAll in Hx as [Hd Hm]. auto. }
  { intros x Hx. apply elem_of_querySelectorAll in Hx as [Hd Hm]. apply Hall; assumption. }
  destruct (0 <? length (querySelectorAll t (elementsOf (document h))))%nat eqn:Hlen.
  - destruct (gameView t) as [g|] eqn:Hg.
    + rewrite <- (Hsync g eq_refl), updateElements_same, <- Hg. apply setGameView_same.
    + destruct Hnone as [Hc Hw]; [reflexivity| |].
      { intros Hnil. rewrite Hnil in Hlen. discriminate. }
      unfold createGameView. rewrite Hw.
      destruct t as [els tr c gv]. simpl in *. subst. reflexivity.
  - destruct (gameView t) as [g|] eqn:Hg; [|reflexivity].
    rewrite <- (Hsync g eq_refl), updateElements_same, <- Hg. apply setGameView_same.
Qed.

(** After a reconciliation the game view, when there is one, draws the
    tracked set. *)
Lemma processAllElements_synced h s g :
  gameView (processAllElements h s) = Some g ->
  currentElements g = trackedElements (processAllElements h s).
Proof.
  unfold processAllElements.
  set (swept := forEach (trackedElements s) _ s).
  set (glass := querySelectorAll s (elementsOf (document h))).
  destruct (0 <? length glass)%nat.
  - destruct (gameView swept) as [g0|].
    + simpl. intros [= <-]. reflexivity.
    + unfold createGameView. destruct (webgl h); simpl; [|discriminate].
      intros [= <-]. reflexivity.
  - destruct (gameView swept) as [g0|] eqn:Hg.
    + simpl. intros [= <-]. reflexivity.
    + rewrite Hg. discriminate.
Qed.

Lemma querySelectorAll_ext s t l :
  (forall x, marked t x <-> marked s x) -> querySelectorAll t l = querySelectorAll s l.
Proof.
  intros H. unfold querySelectorAll. apply List.filter_ext. intros x.
  rewrite !matchesSelector_hasBlurClass. specialize (H x). unfold marked in H.
  destruct (hasBlurClass (getElement t x)), (hasBlurClass (getElement s x));
    try reflexivity; exfalso; intuition congruence.
Qed.

(** Without a game view, a reconciliation that finds marked elements
    creates the canvas, and the view when the host has WebGL. *)
Lemma processAllElements_view h s :
  gameView s = None ->
  querySelectorAll s (elementsOf (document h)) <> [] ->
  canvas (processAllElements h s) = true /\
  gameView (processAllElements h s) =
    (if webgl h
     then Some {| currentResolutionScale := config.resolutionScale;
                  currentElements := trackedElements (processAllElements h s);
                  canvas_width := canvasDimension 300 (ceil (mul (innerWidth h) config.resolutionScale));
                  canvas_height := canvasDimension 150 (ceil (mul (innerHeight h) config.resolutionScale)) |}
     else None).
Proof.
  intros Hg Hglass. unfold processAllElements.
  change (forEach (trackedElements s) _ s) with (forEach (trackedElements s) sweepStep s).
  rewrite sweep_gameView, Hg.
  destruct (querySelectorAll s (elementsOf (document h))) as [|a glass] eqn:Hq;
    [contradiction|].
  cbn [length Nat.ltb Nat.leb]. rewrite forEach_processElement_initCanvas.
  unfold createGameView. destruct (webgl h); split; reflexivity.
Qed.

(** X1 (what a reconciliation tracks).  After [processAllElements] the
    tracked elements are exactly the marked ones among those tracked before
    and those of the document.  An element that stays tracked is left as it
    was - its stored strength is not read again - and so is an element that
    is neither tracked before nor a marked element of the document. *)
Theorem reconcile_exact h s x :
  (x ∈ trackedElements (processAllElements h s) <->
   (x ∈ trackedElements s \/ x ∈ elementsOf (document h)) /\ marked s x) /\
  (x ∈ trackedElements s -> marked s x ->
   getElement (processAllElements h s) x = getElement s x) /\
  (x ∉ trackedElements s -> ~ (x ∈ elementsOf (document h) /\ marked s x) ->
   (x ∉ trackedElements (processAllElements h s)) /\
   getElement (processAllElements h s) x = getElement s x).
Proof.
  split; [apply processAllElements_tracked|]. split.
  - intros Ht Hm. rewrite processAllElements_element.
    rewrite decide_False by (unfold stale; tauto).
    rewrite decide_False by tauto. reflexivity.
  - intros Ht Hn. split.
    + rewrite processAllElements_tracked. tauto.
    + rewrite processAllElements_element.
      rewrite decide_False by (unfold stale; tauto).
      rewrite decide_False by tauto. reflexivity.
Qed.

(** X2 (a reconciliation is idempotent).  Running [processAllElements]
    again on the same document changes nothing: not the tracked set, not an
    element, not the canvas, not the game view. *)
Theorem reconcile_idempotent h s :
  processAllElements h (processAllElements h s) = processAllElements h s.
Proof.
  apply processAllElements_fixpoint.
  - intros x Hx. apply processAllElements_marked.
    apply processAllElements_tracked in Hx. tauto.
  - intros x Hd Hm. apply processAllElements_marked in Hm.
    apply processAllElements_tracked. tauto.
  - apply processAllElements_synced.
  - intros Hnone Hglass.
    rewrite (querySelectorAll_ext s) in Hglass by apply processAllElements_marked.
    revert Hnone. unfold processAllElements.
    change (forEach (trackedElements s) _ s) with (forEach (trackedElements s) sweepStep s).
    destruct (querySelectorAll s (elementsOf (document h))) as [|a glass] eqn:Hq;
      [contradiction|].
    cbn [length Nat.ltb Nat.leb].
    destruct (gameView (forEach (trackedElements s) sweepStep s)) as [g|]; [discriminate|].
    rewrite forEach_processElement_initCanvas.
    unfold createGameView. destruct (webgl h); [discriminate|].
    intros _. split; reflexivity.
Qed.

(** X6 (the canvas and the view appear with the first marked element).
    While there is no game view: a reconciliation of a document without a
    marked element leaves the canvas and the view alone (none is created on
    a page that has none); one that finds a marked element creates the
    canvas, and - when the host has WebGL - a view at the default scale 0.5
    that draws the tracked set on a canvas whose width and height were
    assigned [ceil(window size * 0.5)];
    without WebGL there is still no view, and the marked elements are
    tracked all the same. *)
Theorem first_marked_element h s :
  gameView s = None ->
  let s' := processAllElements h s in
  ((forall x, x ∈ elementsOf (document h) -> ~ marked s x) ->
   canvas s' = canvas s /\ gameView s' = None) /\
  ((exists x, x ∈ elementsOf (document h) /\ marked s x) ->
   canvas s' = true /\
   gameView s' =
     (if webgl h
      then Some {| currentResolutionScale := Finite 5 1;
                   currentElements := trackedElements s';
                   canvas_width := canvasDimension 300 (ceil (mul (innerWidth h) (Finite 5 1)));
                   canvas_height := canvasDimension 150 (ceil (mul (innerHeight h) (Finite 5 1))) |}
      else None) /\
   forall x, x ∈ elementsOf (document h) -> marked s x -> x ∈ trackedElements s').
Proof.
  intros Hg s'. split.
  - intros Hnone.
    assert (Hq : querySelectorAll s (elementsOf (document h)) = []).
    { apply elem_of_nil_inv. intros x Hx.
      apply elem_of_querySelectorAll in Hx as [Hd Hm]. exact (Hnone x Hd Hm). }
    subst s'. unfold processAllElements. rewrite Hq. cbn [length Nat.ltb Nat.leb].
    change (forEach (trackedElements s) _ s) with (forEach (trackedElements s) sweepStep s).
    rewrite sweep_gameView, Hg. split; [|apply sweep_gameView_None; exact Hg].
    apply sweep_canvas.
  - intros (x & Hd & Hm).
    assert (Hq : querySelectorAll s (elementsOf (document h)) <> []).
    { intros Hnil. assert (Hx : x ∈ querySelectorAll s (elementsOf (document h))).
      { apply elem_of_querySelectorAll. tauto. }
      rewrite Hnil in Hx. apply elem_of_nil in Hx. exact Hx. }
    destruct (processAllElements_view h s Hg Hq) as [Hc Hv].
    split; [exact Hc|]. split; [exact Hv|].
    intros y Hy Hmy. apply processAllElements_tracked. tauto.
Qed.

End ReconcileMore.

(* ===================================================================== *)
(** ** More on the observer *)
(* ===================================================================== *)

Section ObserverMore.
Import JS Dom Blur Props More.
Implicit Types (s t : State) (e x : nat) (l : list nat) (acc : State * bool).

Lemma sameView_refl s : sameView s s.
Proof. split; reflexivity. Qed.

Lemma sameView_processElement s t e : sameView s t -> sameView s (processElement e t).
Proof.
  intros [Hc Hg]. split.
  - rewrite canvas_processElement. exact Hc.
  - rewrite gameView_processElement. exact Hg.
Qed.

Lemma sameView_forEach s t l : sameView s t -> sameView s (forEach l processElement t).
Proof.
  revert t. induction l as [|a l IH]; intros t H; [exact H|].
  rewrite forEach_cons. apply IH, sameView_processElement, H.
Qed.

Lemma observing_start s : observing s (s, false).
Proof. split; [apply extends_refl|]. split; [apply sameView_refl|reflexivity]. Qed.

Lemma observing_observeAdded s node acc :
  observing s acc -> observing s (observeAdded node acc).
Proof.
  intros (Hext & Hview & Hflag).
  split; [apply extends_observeAdded, Hext|].
  destruct node as [|element childNodes]; [split; assumption|].
  unfold observeAdded.
  destruct (hasBlurClass (getElement (fst acc) element));
    destruct (0 <? length _)%nat; cbn [fst snd];
    repeat split;
    try discriminate; try assumption;
    try (apply sameView_forEach); try (apply sameView_processElement);
    try apply Hview; try apply Hflag.
Qed.

Lemma observing_observeMutation s mutation acc :
  observing s acc -> observing s (observeMutation mutation acc).
Proof.
  intros Hacc. unfold observeMutation.
  set (acc1 := forEach (addedNodes mutation) observeAdded acc).
  assert (H1 : observing s acc1).
  { subst acc1. apply (forEach_invariant (observing s)); [|exact Hacc].
    intros node acc'. apply observing_observeAdded. }
  destruct (type mutation); try exact H1.
  destruct (attributeName mutation) as [name|]; [|exact H1].
  destruct (String.eqb name "class"); [|exact H1]. cbn [andb].
  destruct (hasBlurClass _) eqn:Hb; [|exact H1].
  destruct H1 as (Hext & Hview & _).
  split; [|split]; cbn [fst snd].
  - apply extends_processElement; assumption.
  - apply sameView_processElement, Hview.
  - discriminate.
Qed.

Lemma observing_batch s mutations :
  observing s (forEach mutations observeMutation (s, false)).
Proof.
  apply (forEach_invariant (observing s)); [|apply observing_start].
  intros m acc. apply observing_observeMutation.
Qed.

(** X5 (the observer builds no view).  The callback never creates the
    canvas or a game view and never changes the scale or the canvas's size
    of the view there is: at most it hands the view the tracked set to draw.
    On a page that had no marked element when it was last reconciled, new
    marked elements are tracked but have no view to be drawn by. *)
Theorem observer_builds_no_view (mutations : list MutationRecord) s :
  canvas (observer mutations s) = canvas s /\
  (gameView s = None -> gameView (observer mutations s) = None) /\
  (forall g, gameView s = Some g ->
     exists shown,
       gameView (observer mutations s) = Some (updateElements shown g) /\
       (shown = currentElements g \/ shown = trackedElements (observer mutations s))).
Proof.
  unfold observer.
  pose proof (observing_batch s mutations) as (_ & [Hc Hg] & _).
  destruct (forEach mutations observeMutation (s, false)) as [s' hasNew].
  cbn [fst snd] in *.
  destruct hasNew.
  - destruct (gameView s') as [g'|] eqn:Hg'; cbn [canvas gameView setGameView].
    + split; [exact Hc|]. split; [intros Hn; rewrite Hn in Hg; discriminate|].
      intros g Hs. rewrite Hs in Hg. injection Hg as ->.
      exists (trackedElements s'). split; [reflexivity|]. right. reflexivity.
    + split; [exact Hc|]. split; [intros _; exact Hg'|].
      intros g Hs. rewrite Hs in Hg. discriminate.
  - split; [exact Hc|]. split; [intros Hn; rewrite Hg; exact Hn|].
    intros g Hs. exists (currentElements g). rewrite updateElements_same.
    split; [rewrite Hg; exact Hs|]. left. reflexivity.
Qed.

Lemma observer_synced (mutations : list MutationRecord) s :
  (forall g, gameView s = Some g -> currentElements g = trackedElements s) ->
  forall g, gameView (observer mutations s) = Some g ->
    currentElements g = trackedElements (observer mutations s).
Proof.
  intros Hs. unfold observer.
  pose proof (observing_batch s mutations) as (_ & [_ Hg] & Hflag).
  destruct (forEach mutations observeMutation (s, false)) as [s' hasNew].
  cbn [fst snd] in *. destruct hasNew.
  - destruct (gameView s') as [g'|] eqn:Hg'; cbn [gameView setGameView trackedElements].
    + intros g [= <-]. reflexivity.
    + intros g Hn. rewrite Hg' in Hn. discriminate.
  - rewrite (Hflag eq_refl). exact Hs.
Qed.

(** X3 (the view draws the tracked set).  Along every run - scans, observer
    callbacks and page edits in any order - the game view, once there is
    one, draws exactly the tracked elements, in the order they were tracked
    and each of them once. *)
Theorem view_draws_tracked_set (els : gmap nat Element) (evs : list Event) (g : GameView) :
  gameView (run (initialState els) evs) = Some g ->
  currentElements g = trackedElements (run (initialState els) evs) /\
  NoDup (currentElements g).
Proof.
  intros Hg.
  assert (H : currentElements g = trackedElements (run (initialState els) evs)).
  { revert g Hg. induction evs as [|ev evs IH] using rev_ind; intros g.
    - discriminate.
    - rewrite run_snoc. destruct ev as [h|ms|els']; cbn [step].
      + apply processAllElements_synced.
      + apply observer_synced, IH.
      + cbn [gameView trackedElements]. apply IH. }
  split; [exact H|]. rewrite H. apply run_NoDup.
Qed.

Lemma forEach_app {A S : Type} (f : A -> S -> S) (l1 l2 : list A) (s : S) :
  forEach (l1 ++ l2) f s = forEach l2 f (forEach l1 f s).
Proof. unfold forEach. apply fold_left_app. Qed.

Lemma extends_batch s acc mutations :
  extends s (fst acc) -> extends s (fst (forEach mutations observeMutation acc)).
Proof.
  intros H. apply (forEach_invariant (fun acc => extends s (fst acc))); [|exact H].
  intros m acc'. apply extends_observeMutation.
Qed.

Lemma extends_nodes s acc (nodes : list Node) :
  extends s (fst acc) -> extends s (fst (forEach nodes observeAdded acc)).
Proof.
  intros H. apply (forEach_invariant (fun acc => extends s (fst acc))); [|exact H].
  intros n acc'. apply extends_observeAdded.
Qed.

Lemma extends_tracked s t x : extends s t -> x ∈ trackedElements s -> x ∈ trackedElements t.
Proof. intros [Hp _ _ _] Hx. eapply elem_of_prefix; eassumption. Qed.

Lemma extends_marked_iff s t x : extends s t -> (marked t x <-> marked s x).
Proof. intros [_ _ Hc _]. unfold marked. rewrite Hc. reflexivity. Qed.

(** The marked elements of an added subtree are tracked once the node has
    been looked at. *)
Lemma observeAdded_tracks s node acc x :
  extends s (fst acc) -> x ∈ elementsOf node -> marked s x ->
  x ∈ trackedElements (fst (observeAdded node acc)).
Proof.
  intros Hext Hx Hm. destruct node as [|element childNodes];
    [apply elem_of_nil in Hx; destruct Hx|].
  unfold observeAdded.
  set (acc1 := if hasBlurClass (getElement (fst acc) element)
               then (processElement element (fst acc), true) else acc).
  assert (Hext1 : extends s (fst acc1)).
  { subst acc1. destruct (hasBlurClass _) eqn:Hb; [|exact Hext].
    apply extends_processElement; assumption. }
  cbn [elementsOf] in Hx. apply elem_of_cons in Hx as [->|Hx].
  - assert (Hin : element ∈ trackedElements (fst acc1)).
    { subst acc1. apply (extends_marked_iff _ _ _ Hext) in Hm. unfold marked in Hm.
      rewrite Hm. cbn [fst]. rewrite trackedElements_processElement, elem_of_set_add. auto. }
    destruct (0 <? length _)%nat; [|exact Hin].
    cbn [fst]. apply forEach_processElement_tracked. auto.
  - assert (Hq : x ∈ querySelectorAll (fst acc1) (descendants (ElementNode element childNodes))).
    { apply elem_of_querySelectorAll. split; [exact Hx|].
      apply (extends_marked_iff _ _ _ Hext1). exact Hm. }
    destruct (querySelectorAll (fst acc1) _) as [|a l] eqn:Hl;
      [apply elem_of_nil in Hq; destruct Hq|].
    cbn [length Nat.ltb Nat.leb fst]. apply forEach_processElement_tracked. auto.
Qed.

Lemma observeMutation_tracks s mutation acc :
  extends s (fst acc) ->
  let acc' := observeMutation mutation acc in
  (forall node x, node ∈ addedNodes mutation -> x ∈ elementsOf node -> marked s x ->
     x ∈ trackedElements (fst acc')) /\
  (type mutation = attributes -> attributeName mutation = Some "class" ->
   marked s (target mutation) -> target mutation ∈ trackedElements (fst acc')).
Proof.
  intros Hext acc'.
  set (acc1 := forEach (addedNodes mutation) observeAdded acc).
  assert (Hext1 : extends s (fst acc1)) by (apply extends_nodes, Hext).
  assert (Hext' : extends (fst acc1) (fst acc')).
  { subst acc'. unfold observeMutation. fold acc1.
    destruct (type mutation); try apply extends_refl.
    destruct (attributeName mutation) as [name|]; [|apply extends_refl].
    destruct (_ && _) eqn:Hb; [|apply extends_refl].
    apply andb_prop in Hb as [_ Hb].
    apply extends_processElement; [apply extends_refl|exact Hb]. }
  split.
  - intros node x Hnode Hx Hm. apply (extends_tracked _ _ _ Hext').
    subst acc1. apply list_elem_of_split in Hnode as (l1 & l2 & ->).
    rewrite forEach_app, forEach_cons.
    set (acc0 := forEach l1 observeAdded acc).
    assert (Hext0 : extends s (fst acc0)) by (apply extends_nodes, Hext).
    apply (extends_tracked (fst (observeAdded node acc0))).
    + apply extends_nodes, extends_refl.
    + apply (observeAdded_tracks s); assumption.
  - intros Ht Ha Hm. subst acc'. unfold observeMutation. fold acc1.
    rewrite Ht, Ha. cbn [String.eqb Ascii.eqb Bool.eqb andb].
    apply (extends_marked_iff _ _ _ Hext1) in Hm. unfold marked in Hm. rewrite Hm.
    cbn [fst]. rewrite trackedElements_processElement, elem_of_set_add. auto.
Qed.

(** X4 (the observer misses no addition).  After the callback every marked
    element of a subtree that a record of the batch lists as added is
    tracked, and so is the target of every [class]-attribute record that
    carries the marker. *)
Theorem observer_tracks_additions (mutations : list MutationRecord) s mutation :
  mutation ∈ mutations ->
  (forall node x, node ∈ addedNodes mutation -> x ∈ elementsOf node -> marked s x ->
     x ∈ trackedElements (observer mutations s)) /\
  (type mutation = attributes -> attributeName mutation = Some "class" ->
   marked s (target mutation) -> target mutation ∈ trackedElements (observer mutations s)).
Proof.
  intros Hin.
  assert (Hfinal : forall x,
            x ∈ trackedElements (fst (forEach mutations observeMutation (s, false))) ->
            x ∈ trackedElements (observer mutations s)).
  { intros x. unfold observer.
    destruct (forEach mutations observeMutation (s, false)) as [s' hasNew].
    destruct hasNew; [|auto]. destruct (gameView s'); auto. }
  apply list_elem_of_split in Hin as (l1 & l2 & ->).
  set (acc0 := forEach l1 observeMutation (s, false)).
  assert (Hext0 : extends s (fst acc0)) by (apply extends_batch, extends_refl).
  destruct (observeMutation_tracks s mutation acc0 Hext0) as [Hadded Hclass].
  assert (Hlater : forall x,
            x ∈ trackedElements (fst (observeMutation mutation acc0)) ->
            x ∈ trackedElements (observer (l1 ++ mutation :: l2) s)).
  { intros x Hx. apply Hfinal. rewrite forEach_app, forEach_cons. fold acc0.
    apply (extends_tracked (fst (observeMutation mutation acc0))); [|exact Hx].
    apply extends_batch, extends_refl. }
  split.
  - intros node x Hnode Hx Hm. apply Hlater. eapply Hadded; eassumption.
  - intros Ht Ha Hm. apply Hlater. apply Hclass; assumption.
Qed.

End ObserverMore.

(* ===================================================================== *)
(** ** More on a frame *)
(* ===================================================================== *)


Section FrameMore.
Import JS Dom Blur Props More.
Implicit Types (s : State) (g : GameView) (l : Layout) (element : nat).

(** An interval [floor(a) - 1, floor(a) + ceil(w) + 1] around [a, a + w]. *)
Lemma padded_interval (a w : Q) :
  let lo := inject_Z (Qfloor a - 1) in
  let len := inject_Z (Qceiling w + 2) in
  (1 <= a - lo)%Q /\ (a - lo < 2)%Q /\
  (0 < (lo + len) - (a + w))%Q /\ ((lo + len) - (a + w) < 2)%Q.
Proof.
  intros lo len. subst lo len.
  pose proof (Qfloor_le a). pose proof (Qlt_floor a).
  pose proof (Qle_ceiling w). pose proof (Qceiling_lt w).
  rewrite !inject_Z_plus, ?inject_Z_opp in *.
  unfold Z.sub in *. rewrite !inject_Z_plus, ?inject_Z_opp in *.
  change (inject_Z 1) with 1%Q in *. change (inject_Z 2) with 2%Q in *.
  repeat split; Lqa.lra.
Qed.

(** X8 (the guard band).  Let [pl], [pt], [pw] and [ph] be the products
    [render] computes in binary64 - the element's rectangle scaled to the
    canvas, as the script has it - finite and at most [2^52] in magnitude.
    The box of [render] is made of whole numbers and contains that scaled
    rectangle: it starts at least one device pixel (and less than two) before
    it on the left and at the top, and ends after it - by more than nothing
    and less than two pixels - on the right and at the bottom. *)
Theorem guard_band (canvasRect rect : DOMRect) (scale : JSNumber) (PL PT PW PH : Q) :
  represents (mul (sub (left rect) (left canvasRect)) scale) PL ->
  represents (mul (sub (top rect) (top canvasRect)) scale) PT ->
  represents (mul (width rect) scale) PW ->
  represents (mul (height rect) scale) PH ->
  safeMagnitude PL -> safeMagnitude PT -> safeMagnitude PW -> safeMagnitude PH ->
  exists bl bt bw bh : Z,
    scaledBox canvasRect rect scale =
      {| scaledLeft := ofZ bl; scaledTop := ofZ bt;
         scaledWidth := ofZ bw; scaledHeight := ofZ bh |} /\
    let (before, after) := margins (inject_Z bl) (inject_Z bw) PL PW in
    let (above, below) := margins (inject_Z bt) (inject_Z bh) PT PH in
    (1 <= before < 2)%Q /\ (0 < after < 2)%Q /\
    (1 <= above < 2)%Q /\ (0 < below < 2)%Q.
Proof.
  intros HL HT HW HH SL ST SW SH.
  exists (Qfloor PL - 1)%Z, (Qfloor PT - 1)%Z, (Qceiling PW + 2)%Z, (Qceiling PH + 2)%Z.
  split; [apply scaledBox_value; assumption|].
  unfold margins.
  pose proof (padded_interval PL PW) as Hx.
  pose proof (padded_interval PT PH) as Hy.
  cbv zeta in Hx, Hy. tauto.
Qed.

(** What a canvas dimension is after an assignment. *)
Lemma toUint32_range (v : JSNumber) : 0 <= toUint32 v < 2 ^ 32.
Proof. destruct v; cbn [toUint32]; try lia. apply Z.mod_pos_bound. lia. Qed.

Lemma canvasDimension_range (default : Z) (v : JSNumber) :
  0 <= default <= 2147483647 ->
  exists n, canvasDimension default v = ofZ n /\ 0 <= n <= 2147483647.
Proof.
  intros Hd. unfold canvasDimension. pose proof (toUint32_range v) as Hu.
  destruct (toUint32 v <=? 2147483647) eqn:Hle; eexists; (split; [reflexivity|]).
  - apply Z.leb_le in Hle. lia.
  - exact Hd.
Qed.

Lemma toUint32_ofZ (n : Z) : toUint32 (ofZ n) = n mod 2 ^ 32.
Proof. cbn [toUint32 ofZ]. change (10 ^ Z.of_nat 0) with 1. rewrite Z.quot_1_r. reflexivity. Qed.

Lemma canvasDimension_ofZ (default n : Z) :
  (0 <= n <= 2147483647 -> canvasDimension default (ofZ n) = ofZ n) /\
  (- 2147483648 <= n < 0 \/ 2147483647 < n < 4294967296 ->
   canvasDimension default (ofZ n) = ofZ default).
Proof.
  unfold canvasDimension. rewrite toUint32_ofZ. split.
  - intros Hn. rewrite Z.mod_small by lia.
    destruct (n <=? 2147483647) eqn:Hle; [reflexivity|apply Z.leb_gt in Hle; lia].
  - intros Hn.
    assert (Hm : 2147483647 < n mod 2 ^ 32).
    { destruct Hn as [Hn|Hn].
      - replace n with (n + 2 ^ 32 + (- 1) * 2 ^ 32) by ring.
        rewrite Z.mod_add by lia. rewrite Z.mod_small by lia. lia.
      - rewrite Z.mod_small by lia. lia. }
    destruct (n mod 2 ^ 32 <=? 2147483647) eqn:Hle; [apply Z.leb_le in Hle; lia|reflexivity].
Qed.

(** X7 (a new scale takes effect at once).  [setResolutionScale] makes the
    scale the current one and sizes the canvas for the window as it is.  The
    canvas's width and height are always whole numbers from 0 to [2^31 - 1].
    When [ceil(size * scale)], with the product as the script computes it, is
    in that range, the canvas gets exactly that many pixels; when it is
    negative (down to [-2^31]) or from [2^31] up to [2^32 - 1], the canvas
    falls back to its default, 300 wide and 150 high.  The elements drawn
    are not touched, and resizing again for the same window changes
    nothing. *)
Theorem setResolutionScale_takes_effect (h : Host) (scale : JSNumber) g :
  let g' := setResolutionScale h scale g in
  currentResolutionScale g' = scale /\
  (exists cw ch : Z,
     canvas_width g' = ofZ cw /\ canvas_height g' = ofZ ch /\
     0 <= cw <= 2147483647 /\ 0 <= ch <= 2147483647) /\
  (forall P : Q, represents (mul (innerWidth h) scale) P ->
     (0 <= Qceiling P <= 2147483647 -> canvas_width g' = ofZ (Qceiling P)) /\
     (- 2147483648 <= Qceiling P < 0 \/ 2147483647 < Qceiling P < 4294967296 ->
      canvas_width g' = ofZ 300)) /\
  (forall P : Q, represents (mul (innerHeight h) scale) P ->
     (0 <= Qceiling P <= 2147483647 -> canvas_height g' = ofZ (Qceiling P)) /\
     (- 2147483648 <= Qceiling P < 0 \/ 2147483647 < Qceiling P < 4294967296 ->
      canvas_height g' = ofZ 150)) /\
  currentElements g' = currentElements g /\
  resize (innerWidth h) (innerHeight h) g' = g'.
Proof.
  intros g'. subst g'. unfold setResolutionScale, resize.
  cbn [currentResolutionScale currentElements canvas_width canvas_height].
  split; [reflexivity|]. split; [|split; [|split; [|split; reflexivity]]].
  - destruct (canvasDimension_range 300 (ceil (mul (innerWidth h) scale))) as (cw & Hw & Hcw);
      [lia|].
    destruct (canvasDimension_range 150 (ceil (mul (innerHeight h) scale))) as (ch & Hh & Hch);
      [lia|].
    exists cw, ch. tauto.
  - intros P HP. rewrite (ceil_represents _ P HP). apply canvasDimension_ofZ.
  - intros P HP. rewrite (ceil_represents _ P HP). apply canvasDimension_ofZ.
Qed.

Lemma truthy_or_else (a b : JSNumber) : truthy b = true -> truthy (or_else a b) = true.
Proof. intros Hb. unfold or_else. destruct (truthy a) eqn:Ha; assumption. Qed.

(** X11 (the shader is never handed a useless strength).  [render] issues
    one draw call for each element it was given, in their order, and the
    strength of each is a number other than zero - never [NaN], never 0 -
    whatever the element's [dataset] holds. *)
Theorem render_strength_usable l s g :
  length (render l s g) = length (currentElements g) /\
  forall d, d ∈ render l s g ->
    isNaN (u_blurStrength d) = false /\ isZero (u_blurStrength d) = false /\
    u_resolution d = (canvas_width g, canvas_height g).
Proof.
  split; [apply length_map|].
  intros d Hd. unfold render in Hd.
  apply list_elem_of_In, in_map_iff in Hd as (element & <- & _).
  assert (Ht : truthy (u_blurStrength (draw l s g element)) = true).
  { unfold draw. cbn [u_blurStrength]. apply truthy_or_else. reflexivity. }
  rewrite truthy_spec in Ht. apply andb_prop in Ht as [Hn Hz].
  apply negb_true_iff in Hn, Hz. repeat split; assumption.
Qed.

Lemma parseFloat_undefined : parseFloat "undefined" = parseFloat "".
Proof. reflexivity. Qed.

Lemma untyped_draw l s g element (u : DrawCall) :
  Untyped.draw l s g element u = draw l s g element.
Proof.
  unfold Untyped.draw, draw, scaledBox, isCircle, buffer, Untyped.parseFloatOf.
  cbn -[parseFloat mul add sub floor ceil half ge includes or_else].
  destruct (dataset (getElement s element) !! "blurStrength") as [v|];
    [destruct v|]; reflexivity.
Qed.

(** X14 (the two copies draw the same).  Whatever values the uniforms
    were left with, the [render] of [src/blur.js] issues the draw calls of
    the [render] of [src/index.ts]: setting uniforms twice changes nothing,
    and a missing or empty stored strength falls back to the default in
    both. *)
Theorem untyped_render_agrees l s g (u : DrawCall) :
  Untyped.render l s g u = render l s g.
Proof.
  unfold Untyped.render, render. revert u.
  induction (currentElements g) as [|element rest IH]; intros u; [reflexivity|].
  cbn [Untyped.drawAll map]. rewrite untyped_draw, IH. reflexivity.
Qed.

End FrameMore.

(* ===================================================================== *)
(** ** More on the shader *)
(* ===================================================================== *)

Section ShaderMore.
Import Shader More.
Local Open Scope R_scope.

Lemma length_ge_x (v : vec2) : Rabs (x v) <= length v.
Proof.
  unfold length. rewrite <- sqrt_Rsqr_abs. apply sqrt_le_1_alt.
  unfold Rsqr. pose proof (Rle_0_sqr (y v)) as H. unfold Rsqr in H. lra.
Qed.

Lemma length_ge_y (v : vec2) : Rabs (y v) <= length v.
Proof.
  unfold length. rewrite <- sqrt_Rsqr_abs. apply sqrt_le_1_alt.
  unfold Rsqr. pose proof (Rle_0_sqr (x v)) as H. unfold Rsqr in H. lra.
Qed.

Lemma length_zero : length {| x := 0; y := 0 |} = 0.
Proof.
  unfold length. cbn [x y]. replace (0 * 0 + 0 * 0) with 0 by ring. apply sqrt_0.
Qed.

Lemma main_kept (u : Uniforms) (gl_FragCoord v_texcoord : vec2) :
  distance u gl_FragCoord <= 0 ->
  exists colour, main u gl_FragCoord v_texcoord = Some colour.
Proof.
  intros H. unfold main. destruct (Rgt_dec _ _) as [Hgt|_]; [lra|].
  destruct (accumulate u v_texcoord) as [colour total]. eexists. reflexivity.
Qed.

Lemma main_discarded (u : Uniforms) (gl_FragCoord v_texcoord : vec2) :
  0 < distance u gl_FragCoord -> main u gl_FragCoord v_texcoord = None.
Proof.
  intros H. unfold main. destruct (Rgt_dec _ _) as [_|Hle]; [reflexivity|].
  exfalso. apply Hle. exact H.
Qed.

(** Over the reals, with [(dx, dy)] the fragment's offset from the centre of
    the shape, [hw] and [hh] its half-extents and [r] the corner radius: the
    distance of a rounded rectangle ([hh <> 0]) is positive when [|dx| > hw]
    or [|dy| > hh], and not when [|dx| <= hw - r] and [|dy| <= hh - r] with
    [r >= 0]; the distance of a circle ([hh = 0]) is [sqrt(dx^2 + dy^2) - hw]. *)
Lemma distance_outside (u : Uniforms) (gl_FragCoord : vec2) :
  let d := fromCentre u gl_FragCoord in
  c4 (u_shape u) <> 0 ->
  c3 (u_shape u) < Rabs (x d) \/ c4 (u_shape u) < Rabs (y d) ->
  0 < distance u gl_FragCoord.
Proof.
  intros d Hne Hout. unfold distance.
  destruct (Req_dec_T _ _) as [He|_]; [contradiction|].
  unfold roundedBoxSDF. cbn [x y].
  change (x gl_FragCoord - c1 (u_shape u)) with (x d).
  change (y gl_FragCoord - c2 (u_shape u)) with (y d).
  set (hw := c3 (u_shape u)) in *. set (hh := c4 (u_shape u)) in *.
  set (r := u_borderRadius u).
  set (q := {| x := Rmax (Rabs (x d) - hw + r) 0; y := Rmax (Rabs (y d) - hh + r) 0 |}).
  pose proof (length_ge_x q) as Hx. pose proof (length_ge_y q) as Hy.
  subst q. cbn [x y] in Hx, Hy.
  pose proof (Rmax_l (Rabs (x d) - hw + r) 0).
  pose proof (Rmax_l (Rabs (y d) - hh + r) 0).
  pose proof (Rle_abs (Rmax (Rabs (x d) - hw + r) 0)).
  pose proof (Rle_abs (Rmax (Rabs (y d) - hh + r) 0)).
  destruct Hout; lra.
Qed.

Lemma distance_inside (u : Uniforms) (gl_FragCoord : vec2) :
  let d := fromCentre u gl_FragCoord in
  c4 (u_shape u) <> 0 -> 0 <= u_borderRadius u ->
  Rabs (x d) <= c3 (u_shape u) - u_borderRadius u ->
  Rabs (y d) <= c4 (u_shape u) - u_borderRadius u ->
  distance u gl_FragCoord <= 0.
Proof.
  intros d Hne Hr Hx Hy. unfold distance.
  destruct (Req_dec_T _ _) as [He|_]; [contradiction|].
  unfold roundedBoxSDF. cbn [x y].
  change (x gl_FragCoord - c1 (u_shape u)) with (x d).
  change (y gl_FragCoord - c2 (u_shape u)) with (y d).
  rewrite !Rmax_right by lra. rewrite length_zero. lra.
Qed.


Lemma inner_loop_fold (u : Uniforms) (tc : vec2) (ox : Z) (ys : list Z) (acc : vec4 * R) :
  Blur.forEach ys (fun oy acc => sample u tc ox oy acc) acc =
  fold_left (addSample u tc)
    (List.filter (included (u_blurStrength u)) (map (fun oy => (ox, oy)) ys)) acc.
Proof.
  revert acc. induction ys as [|oy ys IH]; intros acc; [reflexivity|].
  rewrite forEach_cons, IH. cbn [map List.filter].
  unfold sample, included. cbn [fst snd].
  destruct (Rgt_dec _ _); reflexivity.
Qed.

Lemma loops_fold (u : Uniforms) (tc : vec2) (xs ys : list Z) (acc : vec4 * R) :
  Blur.forEach xs
    (fun ox acc => Blur.forEach ys (fun oy acc => sample u tc ox oy acc) acc) acc =
  fold_left (addSample u tc)
    (List.filter (included (u_blurStrength u)) (list_prod xs ys)) acc.
Proof.
  revert acc. induction xs as [|ox xs IH]; intros acc; [reflexivity|].
  rewrite forEach_cons, IH, inner_loop_fold. cbn [list_prod].
  rewrite List.filter_app, fold_left_app. reflexivity.
Qed.

Lemma accumulate_fold (u : Uniforms) (tc : vec2) :
  accumulate u tc =
  fold_left (addSample u tc) (kernelOffsets (u_blurStrength u)) (vec4_zero, 0).
Proof. unfold accumulate, kernelOffsets. apply loops_fold. Qed.





Lemma weightAt_opp (u : Uniforms) (ox oy : Z) :
  weightAt (withStrength u (- u_blurStrength u)) ox oy = - weightAt u ox oy.
Proof.
  unfold weightAt, gaussian, withStrength. cbn [u_blurStrength u_resolution].
  set (d := length _). set (s := u_blurStrength u).
  replace (2 * (- s / 3) * (- s / 3)) with (2 * (s / 3) * (s / 3)) by field.
  replace (sqrt (2 * 3.14159) * (- s / 3)) with (- (sqrt (2 * 3.14159) * (s / 3)))
    by field.
  rewrite Rdiv_opp_r. reflexivity.
Qed.

Lemma kernelOffsets_opp (s : R) : kernelOffsets (- s) = kernelOffsets s.
Proof.
  unfold kernelOffsets. apply List.filter_ext. intros p. unfold included.
  replace (- s * - s) with (s * s) by ring. reflexivity.
Qed.

Lemma fold_addSample_opp (u : Uniforms) (tc : vec2) (l : list (Z * Z)) (acc : vec4 * R) :
  fold_left (addSample (withStrength u (- u_blurStrength u)) tc) l
    (vec4_opp (fst acc), - snd acc) =
  (vec4_opp (fst (fold_left (addSample u tc) l acc)),
   - snd (fold_left (addSample u tc) l acc)).
Proof.
  revert acc. induction l as [|p l IH]; intros acc; [reflexivity|].
  cbn [fold_left]. rewrite <- IH. f_equal.
  unfold addSample. cbn [fst snd]. rewrite weightAt_opp.
  cbn [withStrength u_texture u_resolution].
  destruct (u_texture u _) as [a b c d]. destruct (fst acc) as [a' b' c' d'].
  unfold vec4_opp, vec4_add, vec4_scale. cbn [c1 c2 c3 c4].
  f_equal; [f_equal; ring|ring].
Qed.

(** X13 (the sign of the strength does not matter).  [main] computes the
    same for the strength [-s] as for [s]: the same fragments are
    discarded, the same offsets are sampled, and the weights change sign
    together with their total. *)
Theorem strength_sign_irrelevant (u : Uniforms) (gl_FragCoord v_texcoord : vec2) :
  kernelOffsets (- u_blurStrength u) = kernelOffsets (u_blurStrength u) /\
  main (withStrength u (- u_blurStrength u)) gl_FragCoord v_texcoord =
  main u gl_FragCoord v_texcoord.
Proof.
  split; [apply kernelOffsets_opp|].
  unfold main.
  change (distance (withStrength u (- u_blurStrength u)) gl_FragCoord)
    with (distance u gl_FragCoord).
  destruct (Rgt_dec _ _); [reflexivity|].
  rewrite !accumulate_fold.
  change (u_blurStrength (withStrength u (- u_blurStrength u))) with (- u_blurStrength u).
  rewrite kernelOffsets_opp.
  pose proof (fold_addSample_opp u v_texcoord (kernelOffsets (u_blurStrength u))
                (vec4_zero, 0)) as H.
  cbn [fst snd] in H.
  replace (vec4_opp vec4_zero, - 0) with (vec4_zero, 0) in H
    by (unfold vec4_opp, vec4_zero; cbn [c1 c2 c3 c4]; f_equal; [f_equal; ring|ring]).
  rewrite H.
  destruct (fold_left (addSample u v_texcoord) _ _) as [[a b c d] w].
  cbn [fst snd]. unfold vec4_div, vec4_opp. cbn [c1 c2 c3 c4].
  rewrite !Rdiv_opp_r, !Rdiv_opp_l, !Ropp_involutive. reflexivity.
Qed.

End ShaderMore.

(* ===================================================================== *)
(** ** The shader on the values [render] hands it *)
(* ===================================================================== *)

Section GlslFacts.
Import JS Dom Blur Props More Glsl.
Local Open Scope R_scope.

(** *** On finite values the shader computes what it computes over the reals *)

Lemma length_ofReal (v : Shader.vec2) : length (ofReal2 v) = Num (Shader.length v).
Proof.
  unfold length, ofReal2, sqrt, add, mul. cbn [x y].
  destruct (Rlt_dec _ 0) as [Hneg|_]; [|reflexivity].
  exfalso. pose proof (Rle_0_sqr (Shader.x v)) as Hx. pose proof (Rle_0_sqr (Shader.y v)) as Hy.
  unfold Rsqr in Hx, Hy. lra.
Qed.









Lemma max_zero (v : R) : max (Num v) (Num 0) = Num (Rmax v 0).
Proof.
  unfold max, lt, Rmax. destruct (Rlt_dec v 0) as [Hlt|Hge]; destruct (Rle_dec v 0) as [Hle|Hgt];
    try reflexivity; try (exfalso; lra).
  f_equal. lra.
Qed.

Lemma distance_finite (u : Uniforms) (u' : Shader.Uniforms) (fc : Shader.vec2) :
  u_shape u = ofReal4 (Shader.u_shape u') ->
  u_borderRadius u = Num (Shader.u_borderRadius u') ->
  distance u (ofReal2 fc) = Num (Shader.distance u' fc).
Proof.
  intros Hshape Hr. unfold distance, Shader.distance. rewrite Hshape, Hr.
  unfold ofReal4, ofReal2, eq. cbn [c1 c2 c3 c4 x y sub neg add].
  destruct (Req_dec_T _ 0) as [_|_].
  - change {| x := Num (Shader.x fc + - Shader.c1 (Shader.u_shape u'));
              y := Num (Shader.y fc + - Shader.c2 (Shader.u_shape u')) |}
      with (ofReal2 {| Shader.x := Shader.x fc - Shader.c1 (Shader.u_shape u');
                       Shader.y := Shader.y fc - Shader.c2 (Shader.u_shape u') |}).
    rewrite length_ofReal. reflexivity.
  - unfold roundedBoxSDF, Shader.roundedBoxSDF, abs. cbn [x y sub neg add].
    rewrite !max_zero.
    match goal with |- sub (length {| x := Num ?a; y := Num ?b |}) _ = _ =>
      change {| x := Num a; y := Num b |} with (ofReal2 {| Shader.x := a; Shader.y := b |})
    end.
    rewrite length_ofReal. reflexivity.
Qed.

(** *** An infinite strength *)




(** *** What a draw call hands over *)

Lemma uniforms_fields (texture : vec2 -> vec4) (d : DrawCall) :
  u_texture (uniforms texture d) = texture /\
  u_borderRadius (uniforms texture d) = ofNumber (Blur.u_borderRadius d) /\
  u_resolution (uniforms texture d) =
    {| x := ofNumber (fst (Blur.u_resolution d)); y := ofNumber (snd (Blur.u_resolution d)) |} /\
  u_blurStrength (uniforms texture d) = ofNumber (Blur.u_blurStrength d).
Proof.
  unfold uniforms. destruct (Blur.u_shape d) as [[[cx cy] hw] hh]. repeat split.
Qed.

Lemma ofNumber_ofZ (n : Z) : ofNumber (ofZ n) = Num (IZR n).
Proof.
  unfold ofNumber, ofZ. change (10 ^ Z.of_nat 0)%Z with 1%Z. f_equal. field.
Qed.


Lemma main_discard (u : Uniforms) (fc tc : vec2) :
  (main u fc tc = None <-> gt (distance u fc) (Num 0) = true) /\
  (gt (distance u fc) (Num 0) = false -> exists colour, main u fc tc = Some colour).
Proof.
  unfold main. destruct (gt _ _); destruct (accumulate u tc) as [colour total].
  - split; [split; reflexivity|discriminate].
  - split; [split; discriminate|]. intros _. eexists. reflexivity.
Qed.

(** *** Normalization and confinement *)




Lemma draw_panel :
  draw Sample.layout Sample.booted Sample.liveView 2%nat =
  {| Blur.u_shape := (ofZ 60, ofZ 510, ofZ 11, ofZ 6);
     Blur.u_borderRadius := ofZ 4;
     Blur.u_resolution := (ofZ 960, ofZ 540);
     Blur.u_blurStrength := Finite 75 1 |}.
Proof. vm_compute. reflexivity. Qed.




(** X9 (the effect stays within the shape).  For a shape of finite centre
    and half-extents [hw] and [hh], with [(dx, dy)] the fragment's offset
    from the centre: a rounded rectangle ([hh <> 0]) with a corner radius
    [r] that is a number discards every fragment with [|dx| > hw] or
    [|dy| > hh], and draws every fragment with [|dx| <= hw - r] and
    [|dy| <= hh - r] when [r >= 0]; a circle ([hh = 0]) draws the fragments
    at distance [sqrt(dx^2 + dy^2) <= hw] and discards the others, so all
    with [|dx| > hw] or [|dy| > hw].  With the corner radius NaN - which is
    what [render] hands over when the computed border-radius does not parse -
    a rounded rectangle discards no fragment at all. *)
Theorem main_confined (u : Uniforms) (shape : Shader.vec4) (gl_FragCoord : Shader.vec2)
    (v_texcoord : vec2) :
  u_shape u = ofReal4 shape ->
  let dx := Shader.x gl_FragCoord - Shader.c1 shape in
  let dy := Shader.y gl_FragCoord - Shader.c2 shape in
  let hw := Shader.c3 shape in
  let hh := Shader.c4 shape in
  let result := main u (ofReal2 gl_FragCoord) v_texcoord in
  (forall r, u_borderRadius u = Num r -> hh <> 0 ->
     hw < Rabs dx \/ hh < Rabs dy -> result = None) /\
  (forall r, u_borderRadius u = Num r -> hh <> 0 -> 0 <= r ->
     Rabs dx <= hw - r -> Rabs dy <= hh - r -> exists colour, result = Some colour) /\
  (hh = 0 ->
   (result = None <-> hw < R_sqrt.sqrt (dx * dx + dy * dy)) /\
   (hw < Rabs dx \/ hw < Rabs dy -> result = None)) /\
  (u_borderRadius u = NaN -> hh <> 0 -> exists colour, result = Some colour) /\
  (forall l s g element texture,
     JS.isNaN (parseFloat (borderRadius l element)) = true ->
     u_borderRadius (uniforms texture (draw l s g element)) = NaN).
Proof.
  intros Hshape dx dy hw hh result.
  pose proof (main_discard u (ofReal2 gl_FragCoord) v_texcoord) as [Hnone Hsome].
  fold result in Hnone, Hsome.
  assert (Hnum : forall r, u_borderRadius u = Num r ->
            distance u (ofReal2 gl_FragCoord) =
            Num (Shader.distance
                   {| Shader.u_texture := fun _ => Shader.vec4_zero;
                      Shader.u_shape := shape;
                      Shader.u_borderRadius := r;
                      Shader.u_resolution := {| Shader.x := 1; Shader.y := 1 |};
                      Shader.u_blurStrength := 1 |} gl_FragCoord)).
  { intros r Hr. apply distance_finite; [exact Hshape|exact Hr]. }
  assert (Hgt : forall v, gt (Num v) (Num 0) = true <-> 0 < v).
  { intros v. unfold gt, lt. destruct (Rlt_dec 0 v); split; auto; discriminate. }
  assert (Hcircle : hh = 0 ->
            distance u (ofReal2 gl_FragCoord) =
            Num (R_sqrt.sqrt (dx * dx + dy * dy) - hw)).
  { intros He. unfold distance. rewrite Hshape. unfold ofReal4, ofReal2, eq.
    cbn [c1 c2 c3 c4 x y sub neg add]. fold hh. rewrite He.
    destruct (Req_dec_T 0 0) as [_|Hne]; [|contradiction].
    change {| x := Num (Shader.x gl_FragCoord + - Shader.c1 shape);
              y := Num (Shader.y gl_FragCoord + - Shader.c2 shape) |}
      with (ofReal2 {| Shader.x := dx; Shader.y := dy |}).
    rewrite length_ofReal. reflexivity. }
  split; [|split; [|split; [|split]]].
  - intros r Hr Hne Hout. apply Hnone. rewrite (Hnum r Hr). apply Hgt.
    apply distance_outside; [exact Hne|exact Hout].
  - intros r Hr Hne Hr0 Hx Hy. apply Hsome. rewrite (Hnum r Hr).
    pose proof (distance_inside
                  {| Shader.u_texture := fun _ => Shader.vec4_zero;
                     Shader.u_shape := shape;
                     Shader.u_borderRadius := r;
                     Shader.u_resolution := {| Shader.x := 1; Shader.y := 1 |};
                     Shader.u_blurStrength := 1 |} gl_FragCoord Hne Hr0 Hx Hy) as Hd.
    unfold gt, lt. destruct (Rlt_dec 0 _) as [Hlt|_]; [exfalso; lra|reflexivity].
  - intros He. split; [rewrite Hnone, (Hcircle He), Hgt; split; intros; lra|].
    intros Hout. apply Hnone. rewrite (Hcircle He). apply Hgt.
    pose proof (length_ge_x {| Shader.x := dx; Shader.y := dy |}) as Hx.
    pose proof (length_ge_y {| Shader.x := dx; Shader.y := dy |}) as Hy.
    unfold Shader.length in Hx, Hy. cbn [Shader.x Shader.y] in Hx, Hy.
    destruct Hout; lra.
  - intros Hr Hne. apply Hsome. unfold distance. rewrite Hshape, Hr.
    unfold ofReal4, ofReal2, eq. cbn [c1 c2 c3 c4 x y]. fold hh.
    destruct (Req_dec_T hh 0) as [He|_]; [contradiction|]. reflexivity.
  - intros l s g element texture Hnan.
    destruct (uniforms_fields texture (draw l s g element)) as (_ & -> & _).
    unfold draw. cbn [Blur.u_borderRadius].
    destruct (parseFloat (borderRadius l element)); try discriminate. reflexivity.
Qed.


(** *** Sample frames *)


Lemma main_confined_witness :
  exists colour,
    main Sample2.panel (ofReal2 {| Shader.x := 60; Shader.y := 510 |})
      (ofReal2 Sample.origin) = Some colour.
Proof.
  destruct (main_confined Sample2.panel
              {| Shader.c1 := 60; Shader.c2 := 510; Shader.c3 := 11; Shader.c4 := 6 |}
              {| Shader.x := 60; Shader.y := 510 |} (ofReal2 Sample.origin))
    as (_ & Hin & _).
  - unfold Sample2.panel. rewrite draw_panel. unfold uniforms, ofReal4.
    cbn [Blur.u_shape u_shape Shader.c1 Shader.c2 Shader.c3 Shader.c4].
    rewrite !ofNumber_ofZ. reflexivity.
  - apply (Hin 4).
    + unfold Sample2.panel. rewrite draw_panel. unfold uniforms.
      cbn [Blur.u_shape Blur.u_borderRadius u_borderRadius]. apply ofNumber_ofZ.
    + cbn. lra.
    + lra.
    + cbn. replace (60 - 60) with 0 by ring. rewrite Rabs_R0. lra.
    + cbn. replace (510 - 510) with 0 by ring. rewrite Rabs_R0. lra.
Defined.


End GlslFacts.

(* ===================================================================== *)
(** ** More theorems at work on the samples *)
(* ===================================================================== *)

Section MoreWitnesses.
Import JS Dom Blur Props More.

(** The first scan of the sample page creates the view; without WebGL it
    creates the canvas alone, and tracks all the same. *)
Lemma first_marked_element_witness :
  gameView Sample.booted = Some Sample.liveView /\
  canvas (processAllElements Sample2.plainHost (initialState Sample.page)) = true /\
  gameView (processAllElements Sample2.plainHost (initialState Sample.page)) = None /\
  2%nat ∈ trackedElements (processAllElements Sample2.plainHost (initialState Sample.page)).
Proof.
  assert (Hm : exists x, x ∈ elementsOf Sample.tree /\ marked (initialState Sample.page) x).
  { exists 2%nat. split; [apply list_elem_of_In; vm_compute; tauto|vm_compute; reflexivity]. }
  destruct (first_marked_element Sample.host (initialState Sample.page) eq_refl)
    as [_ Hsome].
  destruct (Hsome Hm) as (_ & Hview & _).
  destruct (first_marked_element Sample2.plainHost (initialState Sample.page) eq_refl)
    as [_ Hplain].
  destruct (Hplain Hm) as (Hc & Hv & Ht).
  split; [etransitivity; [exact Hview|vm_compute; reflexivity]|].
  split; [exact Hc|]. split; [exact Hv|].
  apply Ht; [apply list_elem_of_In; vm_compute; tauto|vm_compute; reflexivity].
Defined.

(** The view of the sample page draws its five tracked elements. *)
Lemma view_draws_tracked_set_witness :
  currentElements Sample.liveView =
    trackedElements (run (initialState Sample.page) [Refresh Sample.host]) /\
  NoDup (currentElements Sample.liveView) /\
  length (currentElements Sample.liveView) = 5%nat.
Proof.
  destruct (view_draws_tracked_set Sample.page [Refresh Sample.host] Sample.liveView)
    as [Hsame Hnodup]; [vm_compute; reflexivity|].
  split; [exact Hsame|]. split; [exact Hnodup|]. vm_compute. reflexivity.
Defined.

(** The batch of the sample on the page before any scan: the [div] and the
    [span] of the added subtree and the paragraph whose class changed are
    tracked. *)
Lemma observer_tracks_additions_witness :
  2%nat ∈ trackedElements (observer Sample.batch (initialState Sample.page)) /\
  3%nat ∈ trackedElements (observer Sample.batch (initialState Sample.page)) /\
  4%nat ∈ trackedElements (observer Sample.batch (initialState Sample.page)).
Proof.
  assert (Hfirst : {| type := childList; attributeName := None; target := 1%nat;
                      addedNodes := [TextNode;
                                     ElementNode 2 [TextNode; ElementNode 3 []]] |}
                   ∈ Sample.batch).
  { apply list_elem_of_In. left. reflexivity. }
  assert (Hthird : {| type := attributes; attributeName := Some "class";
                      target := 4%nat; addedNodes := [] |} ∈ Sample.batch).
  { apply list_elem_of_In. right. right. left. reflexivity. }
  destruct (observer_tracks_additions Sample.batch (initialState Sample.page) _ Hfirst)
    as [Hadded _].
  destruct (observer_tracks_additions Sample.batch (initialState Sample.page) _ Hthird)
    as [_ Hclass].
  assert (Hnode : ElementNode 2 [TextNode; ElementNode 3 []]
                  ∈ [TextNode; ElementNode 2 [TextNode; ElementNode 3 []]]).
  { apply list_elem_of_In. right. left. reflexivity. }
  split; [|split].
  - apply (Hadded _ 2%nat Hnode); [apply list_elem_of_In; vm_compute; tauto|].
    vm_compute. reflexivity.
  - apply (Hadded _ 3%nat Hnode); [apply list_elem_of_In; vm_compute; tauto|].
    vm_compute. reflexivity.
  - apply Hclass; [reflexivity|reflexivity|vm_compute; reflexivity].
Defined.

(** A quarter of the resolution on the sample window: 480 by 270; a tenth
    of it: 192 wide, since [1920 * 0.1] is 192 in binary64 (the exact
    product of 1920 and the Number 0.1 is a little more); and a negative
    scale leaves the canvas at its default size. *)
Lemma setResolutionScale_takes_effect_witness :
  let g := setResolutionScale Sample.host (Finite 25 2) Sample.liveView in
  let g1 := setResolutionScale Sample.host (parseFloat "0.1") Sample.liveView in
  let g' := setResolutionScale Sample.host (ofZ (- 1)) Sample.liveView in
  currentResolutionScale g = Finite 25 2 /\
  canvas_width g = ofZ 480 /\ canvas_height g = ofZ 270 /\
  canvas_width g1 = ofZ 192 /\
  ceil (exactProduct (ofZ 1920) (parseFloat "0.1")) = ofZ 193 /\
  canvas_width g' = ofZ 300 /\ canvas_height g' = ofZ 150.
Proof.
  cbv zeta.
  destruct (setResolutionScale_takes_effect Sample.host (Finite 25 2) Sample.liveView)
    as (Hs & _ & Hw & Hh & _).
  destruct (setResolutionScale_takes_effect Sample.host (parseFloat "0.1") Sample.liveView)
    as (_ & _ & Hw1 & _).
  destruct (setResolutionScale_takes_effect Sample.host (ofZ (- 1)) Sample.liveView)
    as (_ & _ & Hw' & Hh' & _).
  assert (Hrep : forall x (n : Z), x = ofZ n -> represents x (inject_Z n)).
  { intros x n ->. apply represents_ofZ. }
  split; [exact Hs|].
  split; [apply (Hw 480%Q); [apply (Hrep _ 480); vm_compute; reflexivity|vm_compute; split; discriminate]|].
  split; [apply (Hh 270%Q); [apply (Hrep _ 270); vm_compute; reflexivity|vm_compute; split; discriminate]|].
  split; [apply (Hw1 192%Q); [apply (Hrep _ 192); vm_compute; reflexivity|vm_compute; split; discriminate]|].
  split; [vm_compute; reflexivity|].
  split.
  - apply (Hw' (inject_Z (- 1920))); [apply Hrep; vm_compute; reflexivity|].
    left. vm_compute. split; [discriminate|reflexivity].
  - apply (Hh' (inject_Z (- 1080))); [apply Hrep; vm_compute; reflexivity|].
    left. vm_compute. split; [discriminate|reflexivity].
Defined.

(** The box of an element off the pixel grid. *)
Lemma guard_band_witness :
  exists bl bt bw bh : Z,
    scaledBox (Sample.rectOf 0 0 1920 1080) Sample2.offGrid (Finite 5 1) =
      {| scaledLeft := ofZ bl; scaledTop := ofZ bt;
         scaledWidth := ofZ bw; scaledHeight := ofZ bh |} /\
    let (before, after) := margins (inject_Z bl) (inject_Z bw) (7 # 8) 1 in
    let (above, below) := margins (inject_Z bt) (inject_Z bh) (3 # 16) 1 in
    (1 <= before < 2)%Q /\ (0 < after < 2)%Q /\
    (1 <= above < 2)%Q /\ (0 < below < 2)%Q.
Proof.
  apply (guard_band (Sample.rectOf 0 0 1920 1080) Sample2.offGrid (Finite 5 1)
           (7 # 8) (3 # 16) 1 1);
    try (split; unfold Qle; vm_compute; discriminate).
  - exists 875, 3%nat. split; [vm_compute; reflexivity|reflexivity].
  - exists 1875, 4%nat. split; [vm_compute; reflexivity|reflexivity].
  - exists 1, 0%nat. split; [vm_compute; reflexivity|reflexivity].
  - exists 1, 0%nat. split; [vm_compute; reflexivity|reflexivity].
Defined.

End MoreWitnesses.

(* ===================================================================== *)
(** ** The stored strength read back *)
(* ===================================================================== *)

From Stdlib Require DecimalPos.

Section RoundTrip.
Import JS Dom Blur Props More.

Lemma append_cons (c : ascii) (a b : string) : String c a +:+ b = String c (a +:+ b).
Proof. reflexivity. Qed.

Lemma append_nil_l (b : string) : EmptyString +:+ b = b.
Proof. reflexivity. Qed.

Lemma append_nil_r (a : string) : a +:+ EmptyString = a.
Proof. induction a as [|c a IH]; [reflexivity|]. rewrite append_cons, IH. reflexivity. Qed.

Lemma append_assoc (a b c : string) : (a +:+ b) +:+ c = a +:+ (b +:+ c).
Proof. induction a as [|x a IH]; [reflexivity|]. rewrite !append_cons, IH. reflexivity. Qed.

Lemma length_append (a b : string) :
  String.length (a +:+ b) = (String.length a + String.length b)%nat.
Proof. induction a as [|x a IH]; [reflexivity|]. rewrite append_cons. simpl. rewrite IH. reflexivity. Qed.

Lemma scanDigits_stop (b : string) (acc : Z) (cnt : nat) :
  startsNonDigit b = true -> scanDigits b acc cnt = (acc, cnt, b).
Proof.
  destruct b as [|c b]; [reflexivity|]. unfold startsNonDigit, isDigit. cbn [scanDigits].
  destruct (digitValue c); [discriminate|reflexivity].
Qed.

Lemma scanDigits_app (a b : string) (acc : Z) (cnt : nat) :
  allDigits a = true ->
  scanDigits (a +:+ b) acc cnt =
  scanDigits b (digitsValue a acc) (cnt + String.length a).
Proof.
  revert acc cnt. induction a as [|c a IH]; intros acc cnt Ha.
  - rewrite append_nil_l. cbn [digitsValue String.length]. rewrite Nat.add_0_r. reflexivity.
  - rewrite append_cons. cbn [allDigits] in Ha. apply andb_prop in Ha as [Hc Ha].
    unfold isDigit in Hc. cbn [scanDigits digitsValue String.length].
    destruct (digitValue c) as [d|]; [|discriminate].
    rewrite IH by exact Ha. f_equal. lia.
Qed.

Lemma scanDigits_all (a b : string) (acc : Z) (cnt : nat) :
  allDigits a = true -> startsNonDigit b = true ->
  scanDigits (a +:+ b) acc cnt = (digitsValue a acc, (cnt + String.length a)%nat, b).
Proof. intros Ha Hb. rewrite scanDigits_app by exact Ha. apply scanDigits_stop, Hb. Qed.

Lemma allDigits_app (a b : string) :
  allDigits (a +:+ b) = allDigits a && allDigits b.
Proof.
  induction a as [|c a IH]; [reflexivity|].
  rewrite append_cons. cbn [allDigits]. rewrite IH, andb_assoc. reflexivity.
Qed.

Lemma digitsValue_app (a b : string) (acc : Z) :
  allDigits a = true -> digitsValue (a +:+ b) acc = digitsValue b (digitsValue a acc).
Proof.
  revert acc. induction a as [|c a IH]; intros acc Ha; [reflexivity|].
  rewrite append_cons. cbn [allDigits] in Ha. apply andb_prop in Ha as [Hc Ha].
  unfold isDigit in Hc. cbn [digitsValue].
  destruct (digitValue c) as [d|]; [|discriminate]. apply IH, Ha.
Qed.

Lemma allDigits_zeros (n : nat) : allDigits (zeros n) = true.
Proof. induction n as [|n IH]; [reflexivity|]. cbn [zeros allDigits]. rewrite IH. reflexivity. Qed.

Lemma length_zeros (n : nat) : String.length (zeros n) = n.
Proof. induction n as [|n IH]; [reflexivity|]. simpl. rewrite IH. reflexivity. Qed.

Lemma digitsValue_zeros (n : nat) (acc : Z) :
  digitsValue (zeros n) acc = acc * 10 ^ Z.of_nat n.
Proof.
  revert acc. induction n as [|n IH]; intros acc.
  - cbn [zeros digitsValue]. change (10 ^ Z.of_nat 0) with 1. lia.
  - cbn [zeros digitsValue]. change (digitValue "0") with (Some 0).
    cbv iota beta. rewrite IH, Nat2Z.inj_succ, Z.pow_succ_r by lia. lia.
Qed.

(** The digits of a positive number. *)
Lemma string_of_uint_digits (d : Decimal.uint) :
  allDigits (NilEmpty.string_of_uint d) = true /\
  forall acc, digitsValue (NilEmpty.string_of_uint d) acc = uintValue d acc.
Proof.
  induction d as [|d [IH1 IH2]|d [IH1 IH2]|d [IH1 IH2]|d [IH1 IH2]|d [IH1 IH2]
                  |d [IH1 IH2]|d [IH1 IH2]|d [IH1 IH2]|d [IH1 IH2]|d [IH1 IH2]];
    (split; [try reflexivity; cbn [NilEmpty.string_of_uint allDigits]; rewrite IH1; reflexivity
            |intros acc; try reflexivity;
             cbn [NilEmpty.string_of_uint digitsValue uintValue];
             match goal with |- context [digitValue ?c] =>
               let v := eval vm_compute in (digitValue c) in
               change (digitValue c) with v end;
             cbv iota beta; rewrite IH2; f_equal; lia]).
Qed.

Lemma uintValue_acc (d : Decimal.uint) (acc : positive) :
  uintValue d (Z.pos acc) = Z.pos (Pos.of_uint_acc d acc).
Proof.
  revert acc. induction d; intros acc; cbn [uintValue Pos.of_uint_acc];
    try reflexivity; rewrite <- IHd; f_equal; lia.
Qed.

Lemma uintValue_0 (d : Decimal.uint) : uintValue d 0 = Z.of_N (Pos.of_uint d).
Proof.
  induction d; cbn [uintValue Pos.of_uint]; try reflexivity;
    try exact IHd;
    match goal with |- uintValue _ ?a = _ =>
      let v := eval vm_compute in a in change a with v end;
    rewrite uintValue_acc; reflexivity.
Qed.

Lemma digitsOf_digits (p : positive) :
  allDigits (digitsOf p) = true /\ digitsValue (digitsOf p) 0 = Z.pos p.
Proof.
  unfold digitsOf. destruct (string_of_uint_digits (Pos.to_uint p)) as [H1 H2].
  split; [exact H1|]. rewrite H2, uintValue_0, DecimalPos.Unsigned.of_to. reflexivity.
Qed.

Lemma digitsValue_empty_or_pos (a : string) :
  digitsValue a 0 <> 0 -> a <> EmptyString.
Proof. intros H ->. apply H. reflexivity. Qed.

(** Stripping the zeros at the end takes zeros off, and nothing else. *)
Lemma stripZeros_spec (a : string) :
  a = stripZeros a +:+ zeros (String.length a - String.length (stripZeros a)) /\
  (String.length (stripZeros a) <= String.length a)%nat.
Proof.
  induction a as [|c a [IH Hlen]]; [split; reflexivity|].
  cbn [stripZeros]. destruct (stripZeros a) as [|x t] eqn:Ht.
  - rewrite append_nil_l in IH. cbn [String.length] in IH. rewrite Nat.sub_0_r in IH.
    destruct (Ascii.eqb c "0") eqn:Hc.
    + apply Ascii.eqb_eq in Hc. subst c. split; [|cbn [String.length]; lia].
      rewrite append_nil_l. cbn [String.length]. rewrite Nat.sub_0_r.
      cbn [zeros]. rewrite <- IH. reflexivity.
    + split; [|cbn [String.length]; lia].
      rewrite append_cons, append_nil_l. cbn [String.length].
      replace (S (String.length a) - 1)%nat with (String.length a) by lia.
      rewrite <- IH. reflexivity.
  - split; [|cbn [String.length] in *; lia].
    rewrite append_cons. cbn [String.length] in *.
    replace (S (String.length a) - S (S (String.length t)))%nat
      with (String.length a - S (String.length t))%nat by lia.
    rewrite <- IH. reflexivity.
Qed.

Lemma slice_split (n : nat) (a : string) :
  (n <= String.length a)%nat ->
  sliceTo n a +:+ sliceFrom n a = a /\ String.length (sliceTo n a) = n.
Proof.
  unfold sliceTo. revert a. induction n as [|n IH]; intros a Hn.
  - destruct a; split; reflexivity.
  - destruct a as [|c a]; [cbn [String.length] in Hn; lia|].
    cbn [String.length] in Hn. destruct (IH a ltac:(lia)) as [H1 H2].
    cbn [String.substring sliceFrom String.length]. rewrite append_cons, H1, H2.
    split; reflexivity.
Qed.

Lemma length_sliceFrom (n : nat) (a : string) :
  String.length (sliceFrom n a) = (String.length a - n)%nat.
Proof.
  revert a. induction n as [|n IH]; intros a.
  - destruct a; cbn [sliceFrom]; lia.
  - destruct a as [|c a]; [reflexivity|]. cbn [sliceFrom String.length]. apply IH.
Qed.

(** Canonical forms. *)
Lemma canonical_scanUnsignedDecimal (a : string) (x : JSNumber) (r : string) :
  scanUnsignedDecimal a = Some (x, r) -> canonical x.
Proof.
  unfold scanUnsignedDecimal. destruct (String.prefix "Infinity" a).
  - intros [= <- _]. exact I.
  - destruct (scanDigits a 0 0) as [[ip ni] r1].
    destruct r1 as [|c r2].
    + destruct ni; [discriminate|]. destruct (scanExponent _) as [ex r4].
      intros [= <- _]. apply canonical_decimal.
    + destruct (Ascii.eqb c ".") eqn:Hc.
      * apply Ascii.eqb_eq in Hc. subst c.
        destruct (scanDigits r2 ip 0) as [[fp nf] r3].
        destruct (ni + nf)%nat; [discriminate|]. destruct (scanExponent _) as [ex r4].
        intros [= <- _]. apply canonical_decimal.
      * assert (Hother :
          match String c r2 with
          | String "." r2' =>
              let '(fp, nf, r3) := scanDigits r2' ip 0 in
              match (ni + nf)%nat with
              | O => None
              | _ => let (ex, r4) := scanExponent r3 in
                     Some (decimal fp (ex - Z.of_nat nf), r4)
              end
          | _ =>
              match ni with
              | O => None
              | _ => let (ex, r4) := scanExponent (String c r2) in
                     Some (decimal ip ex, r4)
              end
          end =
          match ni with
          | O => None
          | _ => let (ex, r4) := scanExponent (String c r2) in Some (decimal ip ex, r4)
          end).
        { destruct c as [[] [] [] [] [] [] [] []]; try reflexivity.
          discriminate Hc. }
        rewrite Hother. destruct ni; [discriminate|].
        destruct (scanExponent _) as [ex r4]. intros [= <- _]. apply canonical_decimal.
Qed.

(** [parseFloat] returns binary64 numbers, in canonical form. *)
Lemma canonical_parseFloat (a : string) : canonical (parseFloat a).
Proof.
  unfold parseFloat, scanDecimal. destruct (scanSign (trimStart a)) as [negative r].
  destruct (scanUnsignedDecimal r) as [[x rest]|] eqn:Hx; [|exact I].
  apply canonical_scanUnsignedDecimal in Hx. apply canonical_round64.
  destruct negative; [apply canonical_neg|]; exact Hx.
Qed.

Lemma round64_parseFloat (a : string) : round64 (parseFloat a) = parseFloat a.
Proof.
  unfold parseFloat. destruct (scanDecimal _) as [[x rest]|]; [|reflexivity].
  apply round64_idempotent.
Qed.

Lemma canonical_blurStrengthOf (classes : list string) : canonical (blurStrengthOf classes).
Proof.
  unfold blurStrengthOf. destruct (List.find _ classes) as [c|]; [|reflexivity].
  destruct (truthy_string c); [|reflexivity].
  destruct (_ && _); [apply canonical_parseFloat|reflexivity].
Qed.

Lemma round64_blurStrengthOf (classes : list string) :
  round64 (blurStrengthOf classes) = blurStrengthOf classes.
Proof.
  assert (Hd : round64 config.defaultBlurStrength = config.defaultBlurStrength)
    by (vm_compute; reflexivity).
  unfold blurStrengthOf. destruct (List.find _ classes) as [c|]; [|exact Hd].
  destruct (truthy_string c); [|exact Hd].
  destruct (_ && _); [apply round64_parseFloat|exact Hd].
Qed.

(** Digits are none of the characters the scanner gives a meaning to. *)
Lemma isDigit_cases (c : ascii) :
  isDigit c = true ->
  In c ["0"; "1"; "2"; "3"; "4"; "5"; "6"; "7"; "8"; "9"]%char.
Proof.
  destruct c as [[] [] [] [] [] [] [] []]; intros H;
    try discriminate H; cbn [In]; tauto.
Qed.

Lemma digit_first (c : ascii) (r : string) :
  isDigit c = true ->
  trimStart (String c r) = String c r /\
  scanSign (String c r) = (false, String c r) /\
  String.prefix "Infinity" (String c r) = false.
Proof.
  intros H. apply isDigit_cases in H. cbn [In] in H.
  decompose [or] H; try contradiction; subst c; repeat split; reflexivity.
Qed.

Lemma length_nonempty (a : string) : a <> EmptyString -> String.length a <> 0%nat.
Proof. destruct a; [contradiction|discriminate]. Qed.

(** Digits alone, or digits and an exponent. *)
Lemma scan_integer (a r : string) :
  allDigits a = true -> a <> EmptyString ->
  r = EmptyString \/ (exists r', r = String "e" r') ->
  String.prefix "Infinity" (a +:+ r) = false ->
  scanUnsignedDecimal (a +:+ r) =
  let (ex, r4) := scanExponent r in Some (decimal (digitsValue a 0) ex, r4).
Proof.
  intros Ha Hne Hr Hinf. unfold scanUnsignedDecimal. rewrite Hinf.
  rewrite scanDigits_all; [|exact Ha|destruct Hr as [->|[r' ->]]; reflexivity].
  cbn [Nat.add]. apply length_nonempty in Hne.
  destruct Hr as [->|[r' ->]]; destruct (String.length a); try contradiction; reflexivity.
Qed.

(** Digits, a point and digits, with or without an exponent. *)
Lemma scan_fraction (a b r : string) :
  allDigits a = true -> allDigits b = true ->
  (String.length a + String.length b <> 0)%nat ->
  startsNonDigit r = true ->
  String.prefix "Infinity" (a +:+ String "." (b +:+ r)) = false ->
  scanUnsignedDecimal (a +:+ String "." (b +:+ r)) =
  let (ex, r4) := scanExponent r in
  Some (decimal (digitsValue (a +:+ b) 0) (ex - Z.of_nat (String.length b)), r4).
Proof.
  intros Ha Hb Hlen Hr Hinf. unfold scanUnsignedDecimal. rewrite Hinf.
  rewrite scanDigits_all by (try exact Ha; reflexivity).
  cbv iota beta. rewrite scanDigits_all by assumption.
  cbn [Nat.add]. rewrite digitsValue_app by exact Ha.
  destruct (String.length a + String.length b)%nat; [contradiction|reflexivity].
Qed.

Lemma digitsOf_nonempty (q : positive) : String.length (digitsOf q) <> 0%nat.
Proof.
  destruct (digitsOf_digits q) as [_ Hv]. apply length_nonempty.
  apply digitsValue_empty_or_pos. rewrite Hv. discriminate.
Qed.

Lemma scanExponent_digits (negative : bool) (q : positive) :
  scanExponent (String "e" ((if negative then "-" else "+") +:+ digitsOf q)) =
  (if negative then Z.neg q else Z.pos q, EmptyString).
Proof.
  destruct (digitsOf_digits q) as [Hd Hv]. pose proof (digitsOf_nonempty q) as Hn.
  assert (Hscan : scanDigits (digitsOf q) 0 0 =
                  (Z.pos q, String.length (digitsOf q), EmptyString)).
  { rewrite <- (append_nil_r (digitsOf q)) at 1.
    rewrite scanDigits_all by (try exact Hd; reflexivity). rewrite Hv. reflexivity. }
  unfold scanExponent. change (("e" =? "e")%char || ("e" =? "E")%char) with true.
  cbv iota.
  destruct negative; rewrite append_cons, append_nil_l; cbn [scanSign];
    rewrite Hscan; destruct (String.length (digitsOf q)); try contradiction; reflexivity.
Qed.

Lemma decimal_exact (p : positive) (k : nat) (v : Z) (L kk : nat) :
  k = 0%nat \/ Z.pos p mod 10 <> 0 ->
  Z.pos p = v * 10 ^ Z.of_nat (L - kk) ->
  (kk <= L)%nat -> (k <> 0%nat -> kk = L) ->
  decimal v (Z.of_nat L - Z.of_nat k - Z.of_nat kk) = Finite (Z.pos p) k.
Proof.
  intros Hcanon Hv Hle Hk. unfold decimal. destruct k as [|k].
  - replace (Z.of_nat L - Z.of_nat 0 - Z.of_nat kk) with (Z.of_nat (L - kk)) by lia.
    rewrite (proj2 (Z.leb_le _ _)) by lia. rewrite <- Hv. reflexivity.
  - specialize (Hk ltac:(discriminate)). subst kk.
    rewrite Nat.sub_diag in Hv. change (10 ^ Z.of_nat 0) with 1 in Hv.
    rewrite Z.mul_1_r in Hv. subst v.
    rewrite (proj2 (Z.leb_gt _ _)) by lia.
    replace (Z.to_nat (- (Z.of_nat L - Z.of_nat (S k) - Z.of_nat L))) with (S k) by lia.
    unfold mkFinite. rewrite (proj2 (norm_fixed (Z.pos p) (S k)) Hcanon). reflexivity.
Qed.

(** What [toString] prints for a positive canonical number reads back as
    that number, and starts with a digit. *)
Lemma parse_toStringPositive (p : positive) (k : nat) :
  k = 0%nat \/ Z.pos p mod 10 <> 0 ->
  scanUnsignedDecimal (toStringPositive p k) = Some (Finite (Z.pos p) k, EmptyString) /\
  exists c r, toStringPositive p k = String c r /\ isDigit c = true.
Proof.
  intros Hcanon.
  destruct (digitsOf_digits p) as [Hall Hval].
  destruct (stripZeros_spec (digitsOf p)) as [Hsplit Hle].
  unfold toStringPositive.
  remember (digitsOf p) as all eqn:Eall. remember (stripZeros all) as s eqn:Es.
  clear Eall Es.
  set (L := String.length all) in *. set (kk := String.length s) in *.
  assert (Hs : allDigits s = true).
  { rewrite Hsplit, allDigits_app in Hall. apply andb_prop in Hall. tauto. }
  assert (Hv : Z.pos p = digitsValue s 0 * 10 ^ Z.of_nat (L - kk)).
  { rewrite <- Hval. rewrite Hsplit at 1.
    rewrite digitsValue_app, digitsValue_zeros by exact Hs. reflexivity. }
  assert (Hne : s <> EmptyString).
  { intros E. rewrite E in Hv. change (digitsValue EmptyString 0) with 0 in Hv. lia. }
  assert (Hk : k <> 0%nat -> kk = L /\ s = all).
  { intros Hk0. destruct Hcanon as [->|Hmod]; [contradiction|].
    assert (Hz : (L - kk = 0)%nat).
    { destruct (L - kk)%nat as [|z] eqn:E; [reflexivity|]. exfalso. apply Hmod.
      rewrite Hv, Nat2Z.inj_succ, Z.pow_succ_r by lia.
      rewrite (Z.mul_comm 10), Z.mul_assoc. apply Z.mod_mul. lia. }
    split; [lia|]. rewrite Hsplit, Hz. cbn [zeros].
    symmetry. apply append_nil_r. }
  assert (Hhd : exists d r0, s = String d r0).
  { destruct s as [|d r0]; [contradiction|]. eexists _, _. reflexivity. }
  destruct Hhd as (d & r0 & Es).
  assert (Hd : isDigit d = true).
  { rewrite Es in Hs. cbn [allDigits] in Hs. apply andb_prop in Hs. tauto. }
  assert (Hkk : (1 <= kk)%nat) by (subst kk; rewrite Es; cbn [String.length]; lia).
  set (n := Z.of_nat L - Z.of_nat k).
  assert (Hinf : forall r, String.prefix "Infinity" (String d r) = false).
  { intros r. apply (digit_first d r Hd). }
  destruct ((Z.of_nat kk <=? n) && (n <=? 21)) eqn:B1.
  - (* digits and zeros *)
    apply andb_prop in B1 as [B1a B1b]. apply Z.leb_le in B1a, B1b.
    assert (k = 0%nat) as ->.
    { destruct k as [|k]; [reflexivity|]. destruct Hk as [Hk _]; [discriminate|].
      subst n. lia. }
    replace (Z.to_nat (n - Z.of_nat kk)) with (L - kk)%nat by (subst n; lia).
    subst kk L. rewrite <- Hsplit. split.
    + rewrite <- (append_nil_r all).
      rewrite scan_integer; [| exact Hall | | left; reflexivity | ].
      * cbn [scanExponent]. rewrite Hval. unfold decimal. cbn [Z.leb Z.compare].
        change (10 ^ 0) with 1. rewrite Z.mul_1_r. reflexivity.
      * apply digitsValue_empty_or_pos. rewrite Hval. discriminate.
      * rewrite append_nil_r, Hsplit, Es, append_cons. apply Hinf.
    + rewrite Hsplit, Es, append_cons. eexists _, _. split; [reflexivity|exact Hd].
  - apply andb_false_iff in B1.
    destruct ((0 <? n) && (n <=? 21)) eqn:B2.
    + (* a point among the digits *)
      apply andb_prop in B2 as [B2a B2b]. apply Z.ltb_lt in B2a. apply Z.leb_le in B2b.
      assert (Hlt : n < Z.of_nat kk).
      { destruct B1 as [B1|B1]; [apply Z.leb_gt in B1; exact B1|apply Z.leb_gt in B1; lia]. }
      assert (Hk0 : k <> 0%nat) by (subst n; lia).
      destruct (Hk Hk0) as [HkkL Hsall].
      destruct (slice_split (Z.to_nat n) s) as [Hjoin Hlen]; [fold kk; lia|].
      assert (Hab : allDigits (sliceTo (Z.to_nat n) s) = true /\
                    allDigits (sliceFrom (Z.to_nat n) s) = true).
      { rewrite <- Hjoin, allDigits_app in Hs. apply andb_prop in Hs. exact Hs. }
      destruct Hab as [Ha Hb].
      assert (Hhead : exists r, sliceTo (Z.to_nat n) s = String d r).
      { destruct (Z.to_nat n) as [|n'] eqn:En; [lia|]. rewrite Es. unfold sliceTo.
        cbn [String.substring]. eexists. reflexivity. }
      destruct Hhead as [ra Hra].
      rewrite append_cons, append_nil_l. split.
      * rewrite <- (append_nil_r (sliceFrom (Z.to_nat n) s)).
        rewrite scan_fraction; [| exact Ha | exact Hb | rewrite Hlen; lia | reflexivity | ].
        -- cbn [scanExponent]. rewrite Hjoin.
           replace (0 - Z.of_nat (String.length (sliceFrom (Z.to_nat n) s)))
             with (Z.of_nat L - Z.of_nat k - Z.of_nat kk)
             by (rewrite length_sliceFrom; fold kk; subst n; lia).
           rewrite (decimal_exact p k (digitsValue s 0) L kk); try assumption;
             try reflexivity; try lia.
        -- rewrite Hra, append_cons. apply Hinf.
      * rewrite Hra, append_cons. eexists _, _. split; [reflexivity|exact Hd].
    + apply andb_false_iff in B2.
      destruct ((-6 <? n) && (n <=? 0)) eqn:B3.
      * (* zeros after the point *)
        apply andb_prop in B3 as [B3a B3b]. apply Z.ltb_lt in B3a. apply Z.leb_le in B3b.
        assert (Hk0 : k <> 0%nat) by (subst n; lia).
        destruct (Hk Hk0) as [HkkL Hsall].
        change ("0." +:+ zeros (Z.to_nat (- n)) +:+ s)
          with (String "0" EmptyString +:+ String "." (zeros (Z.to_nat (- n)) +:+ s)).
        split; [|eexists _, _; split; reflexivity].
        rewrite <- (append_nil_r (zeros (Z.to_nat (- n)) +:+ s)).
        rewrite scan_fraction; [| reflexivity | | discriminate | reflexivity | reflexivity].
        -- cbn [scanExponent].
           rewrite append_cons, append_nil_l.
           change (digitsValue (String "0" (zeros (Z.to_nat (- n)) +:+ s)) 0)
             with (digitsValue (zeros (Z.to_nat (- n)) +:+ s) (10 * 0 + 0)).
           rewrite digitsValue_app, digitsValue_zeros by apply allDigits_zeros.
           replace ((10 * 0 + 0) * 10 ^ Z.of_nat (Z.to_nat (- n))) with 0 by lia.
           replace (0 - Z.of_nat (String.length (zeros (Z.to_nat (- n)) +:+ s)))
             with (Z.of_nat L - Z.of_nat k - Z.of_nat kk)
             by (rewrite length_append, length_zeros; fold kk; subst n; lia).
           rewrite (decimal_exact p k (digitsValue s 0) L kk); try assumption;
             try reflexivity; try lia.
        -- rewrite allDigits_app, allDigits_zeros. exact Hs.
      * (* an exponent *)
        apply andb_false_iff in B3.
        assert (Hn : 21 < n \/ n <= -6).
        { destruct B2 as [B2|B2], B3 as [B3|B3];
            rewrite ?Z.ltb_ge, ?Z.leb_gt in *; lia. }
        destruct (Z.abs (n - 1)) as [|q|q] eqn:Eq; [lia| |lia].
        assert (He : (if n - 1 <? 0 then Z.neg q else Z.pos q) = n - 1).
        { destruct (n - 1 <? 0) eqn:Hneg; [apply Z.ltb_lt in Hneg|apply Z.ltb_ge in Hneg]; lia. }
        pose proof (scanExponent_digits (n - 1 <? 0) q) as Hexp. rewrite He in Hexp.
        rewrite Es. destruct r0 as [|x r1].
        -- rewrite append_cons, append_nil_l.
           split; [|eexists _, _; split; [reflexivity|exact Hd]].
           change (String d (String "e" ((if n - 1 <? 0 then "-" else "+") +:+ digitsOf q)))
             with (String d EmptyString +:+
                   String "e" ((if n - 1 <? 0 then "-" else "+") +:+ digitsOf q)).
           rewrite scan_integer;
             [| rewrite <- Es; exact Hs | discriminate | right; eexists; reflexivity
              | rewrite append_cons; apply Hinf].
           rewrite Hexp. rewrite <- Es.
           replace (n - 1) with (Z.of_nat L - Z.of_nat k - Z.of_nat kk)
             by (subst n kk; rewrite Es; cbn [String.length]; lia).
           rewrite (decimal_exact p k (digitsValue s 0) L kk); try assumption;
             try reflexivity; try lia; try (intros Hk0; apply (Hk Hk0)).
        -- split; [|eexists _, _; split; [reflexivity|exact Hd]].
           match goal with
           | |- scanUnsignedDecimal ?str = _ =>
               change str
                 with (String d EmptyString +:+ String "." (String x r1 +:+
                         String "e" ((if n - 1 <? 0 then "-" else "+") +:+ digitsOf q)))
           end.
           assert (Hparts : isDigit d && allDigits (String x r1) = true).
           { rewrite Es in Hs. exact Hs. }
           apply andb_prop in Hparts as [_ Hb].
           rewrite scan_fraction;
             [| cbn [allDigits]; rewrite Hd; reflexivity | exact Hb | discriminate
              | reflexivity
              | rewrite append_cons; apply Hinf].
           rewrite Hexp. change (String d EmptyString +:+ String x r1) with (String d (String x r1)).
           rewrite <- Es.
           replace (n - 1 - Z.of_nat (String.length (String x r1)))
             with (Z.of_nat L - Z.of_nat k - Z.of_nat kk)
             by (subst n kk; rewrite Es; cbn [String.length]; lia).
           rewrite (decimal_exact p k (digitsValue s 0) L kk); try assumption;
             try reflexivity; try lia; try (intros Hk0; apply (Hk Hk0)).
Qed.

(** The scanners on a string with white space after it. *)
Lemma prefix_append (p a w : string) :
  String.prefix p a = true -> String.prefix p (a +:+ w) = true.
Proof.
  revert a. induction p as [|c p IH]; intros a H.
  - destruct (a +:+ w); reflexivity.
  - destruct a as [|d a]; [discriminate|]. rewrite append_cons.
    cbn [String.prefix] in *. destruct (ascii_dec c d); [apply IH, H|discriminate].
Qed.

Lemma blank_not_digit (c : ascii) : isWhiteSpace c = true -> isDigit c = false.
Proof. destruct c as [[] [] [] [] [] [] [] []]; intros H; try discriminate H; reflexivity. Qed.

Lemma blank_not_dot (c : ascii) : isWhiteSpace c = true -> Ascii.eqb c "." = false.
Proof. destruct c as [[] [] [] [] [] [] [] []]; intros H; try discriminate H; reflexivity. Qed.

Lemma blankStart_nonDigit (w : string) : blankStart w = true -> startsNonDigit w = true.
Proof.
  destruct w as [|c w]; [reflexivity|]. cbn [blankStart startsNonDigit]. intros H.
  rewrite (blank_not_digit c H). reflexivity.
Qed.

Lemma scanDigits_ext (a w : string) (acc : Z) (cnt : nat) :
  startsNonDigit w = true ->
  scanDigits (a +:+ w) acc cnt =
  let '(v, n, r) := scanDigits a acc cnt in (v, n, r +:+ w).
Proof.
  intros Hw. revert acc cnt. induction a as [|c a IH]; intros acc cnt.
  - rewrite append_nil_l. cbn [scanDigits]. apply scanDigits_stop, Hw.
  - rewrite append_cons. cbn [scanDigits]. destruct (digitValue c); [apply IH|reflexivity].
Qed.

Lemma afterDigits_ext (ip : Z) (ni : nat) (r1 w : string) :
  blankStart w = true ->
  afterDigits ip ni r1 <> None -> afterDigits ip ni (r1 +:+ w) <> None.
Proof.
  intros Hw. pose proof (blankStart_nonDigit w Hw) as Hnd.
  assert (Hint : ni <> 0%nat ->
            forall r, match ni with
                      | O => None
                      | _ => let (ex, r4) := scanExponent r in Some (decimal ip ex, r4)
                      end <> None).
  { intros Hni r. destruct ni; [contradiction|]. destruct (scanExponent r). discriminate. }
  destruct r1 as [|c r2].
  - rewrite append_nil_l. cbn [afterDigits]. intros H.
    assert (Hni : ni <> 0%nat) by (destruct ni; [contradiction|discriminate]).
    destruct w as [|c w]; [apply Hint, Hni|]. cbn [afterDigits blankStart] in *.
    rewrite (blank_not_dot c Hw). apply Hint, Hni.
  - rewrite append_cons. cbn [afterDigits]. destruct (Ascii.eqb c ".").
    + rewrite scanDigits_ext by exact Hnd.
      destruct (scanDigits r2 ip 0) as [[fp nf] r3].
      destruct (ni + nf)%nat; [intros H; exact H|].
      intros _. destruct (scanExponent (r3 +:+ w)). discriminate.
    + intros H. assert (Hni : ni <> 0%nat) by (destruct ni; [contradiction|discriminate]).
      apply Hint, Hni.
Qed.

Lemma scanUnsignedDecimal_ext (a w : string) :
  blankStart w = true ->
  scanUnsignedDecimal a <> None -> scanUnsignedDecimal (a +:+ w) <> None.
Proof.
  intros Hw. rewrite !scanUnsignedDecimal_unfold.
  destruct (String.prefix "Infinity" (a +:+ w)) eqn:Hi; [discriminate|].
  destruct (String.prefix "Infinity" a) eqn:Ha.
  - rewrite (prefix_append _ _ w Ha) in Hi. discriminate.
  - rewrite scanDigits_ext by (apply blankStart_nonDigit, Hw).
    destruct (scanDigits a 0 0) as [[ip ni] r1]. apply afterDigits_ext, Hw.
Qed.

Lemma scanDecimal_ext (a w : string) :
  blankStart w = true -> scanDecimal a <> None -> scanDecimal (a +:+ w) <> None.
Proof.
  intros Hw. unfold scanDecimal.
  assert (Hsome : forall negative r,
            scanUnsignedDecimal r <> None ->
            match scanUnsignedDecimal (r +:+ w) with
            | Some (v, rest) => Some (if negative : bool then neg v else v, rest)
            | None => None
            end <> None).
  { intros negative r Hr. pose proof (scanUnsignedDecimal_ext r w Hw Hr) as H.
    destruct (scanUnsignedDecimal (r +:+ w)) as [[v rest]|]; [discriminate|contradiction]. }
  assert (Hpass : forall negative r,
            match scanUnsignedDecimal r with
            | Some (v, rest) => Some (if negative : bool then neg v else v, rest)
            | None => None
            end <> None -> scanUnsignedDecimal r <> None).
  { intros negative r H E. rewrite E in H. contradiction. }
  destruct a as [|c a].
  - intros H. exfalso. apply H. reflexivity.
  - rewrite append_cons.
    destruct (Ascii.eqb c "+") eqn:Hplus; [apply Ascii.eqb_eq in Hplus; subst c|].
    { change (scanSign (String "+" a)) with (false, a).
      change (scanSign (String "+" (a +:+ w))) with (false, a +:+ w).
      intros H. apply Hsome, (Hpass false), H. }
    destruct (Ascii.eqb c "-") eqn:Hminus; [apply Ascii.eqb_eq in Hminus; subst c|].
    { change (scanSign (String "-" a)) with (true, a).
      change (scanSign (String "-" (a +:+ w))) with (true, a +:+ w).
      intros H. apply Hsome, (Hpass true), H. }
    assert (Hsign : forall r, scanSign (String c r) = (false, String c r)).
    { intros r. destruct c as [[] [] [] [] [] [] [] []]; try reflexivity;
        discriminate. }
    rewrite !Hsign. cbv beta iota. rewrite <- append_cons.
    intros H. apply (Hsome false), (Hpass false), H.
Qed.

(** A string is what is left of it after [trimEnd], and white space. *)
Lemma trimEnd_split (a : string) :
  exists w, a = trimEnd a +:+ w /\ blankStart w = true.
Proof.
  induction a as [|c a (w & Hw & Hb)].
  - exists EmptyString. split; reflexivity.
  - cbn [trimEnd]. destruct (trimEnd a) as [|x t] eqn:Ht.
    + rewrite append_nil_l in Hw. destruct (isWhiteSpace c) eqn:Hc.
      * exists (String c a). split; [reflexivity|exact Hc].
      * exists w. split; [|exact Hb]. rewrite append_cons, append_nil_l, <- Hw. reflexivity.
    + exists w. split; [|exact Hb]. rewrite append_cons, <- Hw. reflexivity.
Qed.

Lemma scanDigits_count (a : string) (acc : Z) (cnt : nat) :
  (cnt <= snd (fst (scanDigits a acc cnt)))%nat.
Proof.
  revert acc cnt. induction a as [|c a IH]; intros acc cnt; cbn [scanDigits]; [reflexivity|].
  destruct (digitValue c); [|reflexivity]. specialize (IH (10 * acc + z) (S cnt)). lia.
Qed.

Lemma scanDecimal_zero_first (r : string) : scanDecimal (String "0" r) <> None.
Proof.
  unfold scanDecimal. cbn [scanSign]. rewrite scanUnsignedDecimal_unfold.
  change (String.prefix "Infinity" (String "0" r)) with false. cbv iota.
  change (scanDigits (String "0" r) 0 0) with (scanDigits r (10 * 0 + 0) 1).
  pose proof (scanDigits_count r (10 * 0 + 0) 1) as Hc.
  destruct (scanDigits r (10 * 0 + 0) 1) as [[ip ni] r1]. cbn [fst snd] in Hc.
  destruct ni as [|ni]; [lia|].
  unfold afterDigits. destruct r1 as [|c r2].
  - destruct (scanExponent _). discriminate.
  - destruct (Ascii.eqb c ".").
    + destruct (scanDigits r2 ip 0) as [[fp nf] r3]. cbn [Nat.add].
      destruct (scanExponent _). discriminate.
    + destruct (scanExponent _). discriminate.
Qed.

Lemma nonDecimalInteger_zero_first (a : string) (n : Z) :
  nonDecimalInteger a = Some n -> exists r, a = String "0" r.
Proof.
  destruct a as [|c a]; [discriminate|].
  destruct c as [[] [] [] [] [] [] [] []]; try discriminate.
  intros _. eexists. reflexivity.
Qed.

Lemma scanDecimal_not_NaN (a : string) (x : JSNumber) (r : string) :
  scanDecimal a = Some (x, r) -> isNaN x = false.
Proof.
  unfold scanDecimal. destruct (scanSign a) as [negative a'].
  rewrite scanUnsignedDecimal_unfold.
  assert (Hdec : forall m e, isNaN (decimal m e) = false).
  { intros m e. unfold decimal, mkFinite. destruct (0 <=? e); [reflexivity|].
    destruct (norm _ _). reflexivity. }
  assert (Hneg : forall v, isNaN v = false -> isNaN (if negative then neg v else v) = false).
  { intros v Hv. destruct negative, v; try discriminate; reflexivity. }
  destruct (String.prefix "Infinity" a').
  - intros [= <- _]. destruct negative; reflexivity.
  - destruct (scanDigits a' 0 0) as [[ip ni] r1]. unfold afterDigits.
    destruct r1 as [|c r2].
    + destruct ni; [discriminate|]. destruct (scanExponent _).
      intros [= <- _]. apply Hneg, Hdec.
    + destruct (Ascii.eqb c ".").
      * destruct (scanDigits r2 ip 0) as [[fp nf] r3].
        destruct (ni + nf)%nat; [discriminate|]. destruct (scanExponent _).
        intros [= <- _]. apply Hneg, Hdec.
      * destruct ni; [discriminate|]. destruct (scanExponent _).
        intros [= <- _]. apply Hneg, Hdec.
Qed.

(** A suffix [Number] takes for a number and that is not blank parses. *)
Lemma isNaN_parseFloat (v : string) :
  isNaN (Number v) = false /\ trim v <> EmptyString -> isNaN (parseFloat v) = false.
Proof.
  intros [Hnum Htrim].
  assert (Ht : scanDecimal (trim v) <> None).
  { unfold Number in Hnum. destruct (trim v) as [|c t] eqn:Et; [contradiction|].
    destruct (nonDecimalInteger (String c t)) as [n|] eqn:Hnd.
    - apply nonDecimalInteger_zero_first in Hnd as [r ->]. apply scanDecimal_zero_first.
    - destruct (scanDecimal (String c t)) as [[x r]|]; [discriminate|discriminate Hnum]. }
  destruct (trimEnd_split (trimStart v)) as (w & Hsplit & Hw).
  apply (scanDecimal_ext _ w Hw) in Ht. unfold trim in Ht. rewrite <- Hsplit in Ht.
  unfold parseFloat. destruct (scanDecimal (trimStart v)) as [[x r]|] eqn:Hx;
    [|contradiction].
  apply scanDecimal_not_NaN in Hx. rewrite isNaN_round64. exact Hx.
Qed.

(** A number that rounds to a positive one is positive. *)
Lemma round64_positive (c : JSNumber) (p : positive) (k : nat) :
  round64 c = Finite (Z.pos p) k -> exists q i, c = Finite (Z.pos q) i.
Proof.
  destruct c as [| |m i]; try discriminate. destruct m as [|q|q]; [discriminate|eauto|].
  cbn [round64]. unfold roundPositive.
  pose proof (nearest64_bound (Z.pos q) (10 ^ Z.of_nat i) ltac:(lia)
                ltac:(apply Z.pow_pos_nonneg; lia)) as [HM HE].
  destruct (nearest64 _ _) as [M E]. cbn [fst snd] in HM, HE.
  destruct (_ || _); [discriminate|]. intros H. exfalso.
  pose proof (represents_neg _ _ (represents_dyadic M E HE)) as Hr. rewrite H in Hr.
  assert (Hp : represents (Finite (Z.pos p) k) (Z.pos p # pow10 k)).
  { exists (Z.pos p), k. split; reflexivity. }
  pose proof (represents_unique _ _ _ Hr Hp) as Heq.
  unfold Qeq, Qopp in Heq. cbn [Qnum Qden] in Heq.
  assert (0 <= M * 2 ^ E) by (apply Z.mul_nonneg_nonneg; [lia|apply Z.pow_nonneg; lia]).
  nia.
Qed.

(** The digits [toString] prints stand for a decimal whose Number value is
    the number printed. *)
Lemma shortest_spec (p : positive) (k : nat) (j : Z) (fuel : nat) :
  round64 (Finite (Z.pos p) k) = Finite (Z.pos p) k ->
  norm (Z.pos p) k = (Z.pos p, k) ->
  exists q i, shortest p k j fuel = Finite (Z.pos q) i /\
              (i = 0%nat \/ Z.pos q mod 10 <> 0) /\
              round64 (Finite (Z.pos q) i) = Finite (Z.pos p) k.
Proof.
  intros Hr Hc. revert j. induction fuel as [|fuel IH]; intros j; cbn [shortest].
  - exists p, k. split; [reflexivity|]. split; [apply norm_fixed, Hc|exact Hr].
  - destruct (_ <=? j).
    + exists p, k. split; [reflexivity|]. split; [apply norm_fixed, Hc|exact Hr].
    + destruct (List.find _ _) as [c|] eqn:Hfind; [|apply IH].
      apply List.find_some in Hfind as [Hin Heq]. apply eqb_eq in Heq.
      destruct (round64_positive _ _ _ Heq) as (q & i & ->).
      exists q, i. split; [reflexivity|]. split; [|exact Heq].
      apply norm_fixed.
      assert (Hcan : forall m x, canonical (decimal m x)) by apply canonical_decimal.
      unfold neighbours in Hin.
      destruct (_ ?= _) in Hin; [destruct (Z.even _) in Hin| |];
        cbn [In] in Hin; decompose [or] Hin; try contradiction;
        match goal with E : decimal ?m ?x = _ |- _ =>
          pose proof (Hcan m x) as Hd; rewrite E in Hd; exact Hd end.
Qed.

(** [parseFloat] undoes [toString], on binary64 numbers. *)
Lemma parseFloat_toString (x : JSNumber) :
  canonical x -> round64 x = x -> parseFloat (toString x) = x.
Proof.
  destruct x as [|[]|m k]; try reflexivity.
  cbn [canonical]. intros Hc Hr. unfold toString. rewrite Hc.
  pose proof (proj1 (norm_fixed m k) Hc) as Hfix.
  destruct m as [|p|p].
  - destruct Hfix as [->|Hm]; [reflexivity|]. exfalso. apply Hm. reflexivity.
  - destruct (shortest_spec p k 1 17 Hr Hc) as (q & i & -> & Hq & Hback).
    cbn [toStringDecimal].
    destruct (parse_toStringPositive q i Hq) as (Hscan & c & r & Hout & Hd).
    rewrite Hout in *. destruct (digit_first c r Hd) as (Htrim & Hsign & _).
    unfold parseFloat, scanDecimal. rewrite Htrim, Hsign, Hscan. exact Hback.
  - assert (Hpos : norm (Z.pos p) k = (Z.pos p, k)).
    { apply norm_fixed. destruct Hfix as [H|H]; [auto|right]. intros Hm. apply H.
      apply Z.mod_divide in Hm; [|lia]. apply Z.mod_divide; [lia|].
      change (Z.neg p) with (- Z.pos p). apply Z.divide_opp_r. exact Hm. }
    assert (Hr' : round64 (Finite (Z.pos p) k) = Finite (Z.pos p) k).
    { change (Finite (Z.neg p) k) with (neg (Finite (Z.pos p) k)) in Hr.
      rewrite round64_neg in Hr. destruct (round64 (Finite (Z.pos p) k)) as [| |m' k'];
        try discriminate. cbn [neg] in Hr. injection Hr as Hm <-. f_equal. lia. }
    destruct (shortest_spec p k 1 17 Hr' Hpos) as (q & i & -> & Hq & Hback).
    cbn [toStringDecimal].
    destruct (parse_toStringPositive q i Hq) as (Hscan & _).
    rewrite append_cons, append_nil_l.
    unfold parseFloat, scanDecimal.
    change (trimStart (String "-" (toStringPositive q i)))
      with (String "-" (toStringPositive q i)).
    change (scanSign (String "-" (toStringPositive q i)))
      with (true, toStringPositive q i).
    cbv beta iota. rewrite Hscan. rewrite round64_neg, Hback. reflexivity.
Qed.

(** X15 (the stored strength reads back).  [processElement] stores the
    strength it read off the class list - a binary64 number - as the
    shortest decimal that reads back as that number, and [render] parses
    that string at every frame: what it parses is the very strength that was
    computed, so the shader is handed that strength - or the default 1 in
    its place when it is zero. *)
Theorem stored_strength_round_trip (l : Layout) (s : State) (g : GameView) (e : nat) :
  e ∉ trackedElements s ->
  let strength := blurStrengthOf (classList (getElement s e)) in
  let s' := processElement e s in
  storedStrength s' e = Some (toString strength) /\
  parseFloat (toString strength) = strength /\
  isNaN strength = false /\
  u_blurStrength (draw l s' g e) =
    (if isZero strength then ofZ 1 else strength).
Proof.
  intros Hnot strength s'.
  assert (Hstored : storedStrength s' e = Some (toString strength)).
  { unfold storedStrength. subst s'.
    rewrite getElement_processElement, decide_True by auto.
    unfold trackedForm. cbn [dataset]. rewrite lookup_insert_eq, blurStrengthOf_relative.
    reflexivity. }
  assert (Hback : parseFloat (toString strength) = strength).
  { apply parseFloat_toString; [apply canonical_blurStrengthOf|apply round64_blurStrengthOf]. }
  assert (Hnan : isNaN strength = false).
  { subst strength. unfold blurStrengthOf.
    destruct (List.find _ _) as [c|]; [|reflexivity].
    destruct (truthy_string c); [|reflexivity].
    destruct (negb (isNaN (Number _)) && _) eqn:Hnum; [|reflexivity].
    apply isNaN_parseFloat. apply andb_prop in Hnum as [Hnum Htrim].
    split; [apply negb_true_iff, Hnum|].
    apply negb_true_iff, String.eqb_neq in Htrim. exact Htrim. }
  split; [exact Hstored|]. split; [exact Hback|]. split; [exact Hnan|].
  unfold draw. cbn [u_blurStrength]. unfold storedStrength in Hstored. rewrite Hstored.
  replace (if truthy_string (toString strength) then toString strength else EmptyString)
    with (toString strength) by (destruct (toString strength); reflexivity).
  rewrite Hback. unfold or_else. rewrite truthy_spec, Hnan.
  destruct (isZero strength); reflexivity.
Qed.

Lemma stored_strength_round_trip_witness :
  let s' := processElement 2%nat (initialState Sample.page) in
  let t' := processElement 9%nat (initialState Sample2.precise) in
  let t'' := processElement 10%nat (initialState Sample2.precise) in
  storedStrength s' 2%nat = Some "7.5" /\
  u_blurStrength (draw Sample.layout s' Sample.liveView 2%nat) = Finite 75 1 /\
  storedStrength t' 9%nat = Some "0.12345678901234568" /\
  u_blurStrength (draw Sample.layout t' Sample.liveView 9%nat) =
    parseFloat "0.1234567890123456789" /\
  storedStrength t'' 10%nat = Some "0" /\
  u_blurStrength (draw Sample.layout t'' Sample.liveView 10%nat) = ofZ 1.
Proof.
  cbv zeta.
  destruct (stored_strength_round_trip Sample.layout (initialState Sample.page)
              Sample.liveView 2%nat)
    as (Hstored & _ & _ & Hdraw); [apply not_elem_of_nil|].
  destruct (stored_strength_round_trip Sample.layout (initialState Sample2.precise)
              Sample.liveView 9%nat)
    as (Hstored' & _ & _ & Hdraw'); [apply not_elem_of_nil|].
  destruct (stored_strength_round_trip Sample.layout (initialState Sample2.precise)
              Sample.liveView 10%nat)
    as (Hstored'' & _ & _ & Hdraw''); [apply not_elem_of_nil|].
  split; [rewrite Hstored; vm_compute; reflexivity|].
  split; [rewrite Hdraw; vm_compute; reflexivity|].
  split; [rewrite Hstored'; vm_compute; reflexivity|].
  split; [rewrite Hdraw'; vm_compute; reflexivity|].
  split; [rewrite Hstored''; vm_compute; reflexivity|].
  rewrite Hdraw''. vm_compute. reflexivity.
Defined.

End RoundTrip.
